(** * mysqlconnect: the multi-connection MySQL registry

    A shallow embedding of package [mysqlconnect] (configuration
    validation, connection-string resolution, pool tuning, registry
    operations and the JSON [Duration] wrapper), together with the
    properties its specification states about it.  The helpers and methods
    of package [logger] and [web.EncodeJSON] follow, with properties read
    off their source.

    Conventions.  Go strings are byte strings ([string]); [map[string]T]
    is a [gmap string T]; a nil-able pointer field is an [option]; Go's
    [int], [time.Duration] and [uint64] values are integers in [Z], with
    wrap-around written out where the source can reach it.  *)

From Stdlib Require Import ZArith Lia Ascii String List.
From Stdlib Require Floats.
From stdpp Require Import base strings gmap list sorting.

Local Open Scope string_scope.
Local Open Scope Z_scope.
Local Open Scope list_scope.

(** ** Configuration (type [Config] and its parts) *)

(** [ConnectionPool]: every field is a pointer in the source, [None] is nil. *)
Record ConnectionPool := mkConnectionPool {
  ConnMaxLifetime : option Z;      (* *Duration, nanoseconds *)
  MaxIdleConnections : option Z;   (* *int *)
  MaxOpenConnections : option Z;   (* *int *)
  ConnMaxIdleTime : option Z       (* *Duration, nanoseconds *)
}.

Record Connection := mkConnection {
  Name : string;
  IsMaster : bool;
  IsReadOnly : bool;
  Parameters : string;
  connection_pool : ConnectionPool
}.

Record Config := mkConfig {
  DSN : string;
  Cluster : string;
  HACluster : string;
  Schema : string;
  Connections : list Connection
}.

(** The zero value of [ConnectionPool] (all pointers nil). *)
Definition noPool : ConnectionPool := mkConnectionPool None None None None.

(** ** Errors returned by [Open]

    The source builds them with [errors.New] and [fmt.Errorf]; each
    constructor stands for one message, given by [errorText]. *)
Inductive error :=
  | ErrNoTopology          (* DSN, Cluster and HACluster are empty *)
  | ErrDSNExclusive        (* DSN together with Cluster or HACluster *)
  | ErrClusterExclusive    (* Cluster together with HACluster *)
  | ErrDSNWithSchema       (* DSN together with Schema *)
  | ErrSchemaMissing       (* no DSN and no Schema *)
  | ErrNoConnections       (* empty connection list *)
  | ErrDuplicatedName (name : string)
  | ErrReplicaWrite (name : string)
  | ErrDriver (msg : string)   (* the error of sql.Open, passed through *)
  | ErrNilHandle.          (* no branch of the dispatch taken: see [openAll] *)

(** The text of an error.  [Quote] is [strconv.Quote], which the verb %q
    applies to a name; [ErrNilHandle] is no error of the source and has no
    text. *)
Definition errorText (Quote : string → string) (e : error) : string :=
  match e with
  | ErrNoTopology => "invalid MySQL config: DSN, Cluster and HACluster are empty"
  | ErrDSNExclusive =>
      "invalid MySQL config: DSN is mutually exclusive with Cluster and HACluster"
  | ErrClusterExclusive =>
      "invalid MySQL config: Cluster is mutually exclusive with HACluster"
  | ErrDSNWithSchema =>
      "invalid MySQL config: DSN is mutually exclusive with Schema since the schema is already defined in the DSN"
  | ErrSchemaMissing =>
      "invalid MySQL config: when DSN is empty the Schema must be defined"
  | ErrNoConnections => "invalid MySQL config: no connections defined"
  | ErrDuplicatedName name =>
      "invalid MySQL config: duplicated connection name " +:+ Quote name
  | ErrReplicaWrite name =>
      "invalid MySQL config: cannot write to a replica: connection " +:+ Quote name
  | ErrDriver msg => msg
  | ErrNilHandle => ""
  end.

(** The handle of [database/sql] ([sql.DB]): the driver name and the
    connection string it was opened from, the pool setters called on it,
    oldest first, and the four pool limits the setters write.  The limits
    are the fields of [sql.DB]: [maxIdleCount] (zero stands for the default
    of two idle connections, a negative number for none), [maxOpen] (zero
    or less: unlimited), [maxLifetime] and [maxIdleTime] (zero: connections
    are not closed for their age or idle time). *)
Inductive PoolCall :=
  | CallSetConnMaxLifetime (d : Z)
  | CallSetMaxIdleConns (n : Z)
  | CallSetMaxOpenConns (n : Z)
  | CallSetConnMaxIdleTime (d : Z).

Record DB := mkDB {
  db_driver : string;
  db_dsn : string;
  db_calls : list PoolCall;
  maxIdleCount : Z;
  maxOpen : Z;
  maxLifetime : Z;
  maxIdleTime : Z
}.

(** The handle [sql.Open] returns: no setter called, every limit zero. *)
Definition newDB (driver dsn : string) : DB := mkDB driver dsn [] 0 0 0 0.

Global Instance DB_inhabited : Inhabited DB := populate (newDB "" "").
Global Instance PoolCall_eq_dec : EqDecision PoolCall.
Proof. solve_decision. Defined.
Global Instance error_eq_dec : EqDecision error.
Proof. solve_decision. Defined.

(** Assignments to one field of the handle. *)
Definition logCall (c : PoolCall) (db : DB) : DB :=
  mkDB (db_driver db) (db_dsn db) ((db_calls db ++ [c])%list)
    (maxIdleCount db) (maxOpen db) (maxLifetime db) (maxIdleTime db).
Definition withMaxIdleCount (n : Z) (db : DB) : DB :=
  mkDB (db_driver db) (db_dsn db) (db_calls db)
    n (maxOpen db) (maxLifetime db) (maxIdleTime db).
Definition withMaxOpen (n : Z) (db : DB) : DB :=
  mkDB (db_driver db) (db_dsn db) (db_calls db)
    (maxIdleCount db) n (maxLifetime db) (maxIdleTime db).
Definition withMaxLifetime (d : Z) (db : DB) : DB :=
  mkDB (db_driver db) (db_dsn db) (db_calls db)
    (maxIdleCount db) (maxOpen db) d (maxIdleTime db).
Definition withMaxIdleTime (d : Z) (db : DB) : DB :=
  mkDB (db_driver db) (db_dsn db) (db_calls db)
    (maxIdleCount db) (maxOpen db) (maxLifetime db) d.

(** [database/sql]: the idle limit in force. *)
Definition defaultMaxIdleConns : Z := 2.
Definition maxIdleConnsLocked (db : DB) : Z :=
  let n := maxIdleCount db in
  if n =? 0 then defaultMaxIdleConns
  else if n <? 0 then 0
  else n.

(** The four pool setters of [database/sql].  Each is logged on the handle
    and writes its limit: a negative duration is stored as zero, an idle
    count that is not positive as -1, a negative open count as zero.  The
    idle limit never stays above a positive open limit: [SetMaxIdleConns]
    cuts it down to [maxOpen], and [SetMaxOpenConns] calls
    [SetMaxIdleConns] with its argument when the idle limit in force exceeds
    the new open limit.  (Closing the connections in excess of a lowered
    limit is left out: a handle has opened none when [Open] configures
    it.) *)
Definition SetConnMaxLifetime (d : Z) (db : DB) : DB :=
  let db := logCall (CallSetConnMaxLifetime d) db in
  let d := if d <? 0 then 0 else d in
  withMaxLifetime d db.
Definition SetMaxIdleConns (n : Z) (db : DB) : DB :=
  let db := logCall (CallSetMaxIdleConns n) db in
  let db := if 0 <? n then withMaxIdleCount n db else withMaxIdleCount (-1) db in
  if (0 <? maxOpen db) && (maxOpen db <? maxIdleConnsLocked db)
  then withMaxIdleCount (maxOpen db) db
  else db.
Definition SetMaxOpenConns (n : Z) (db : DB) : DB :=
  let db := logCall (CallSetMaxOpenConns n) db in
  let db := withMaxOpen n db in
  let db := if n <? 0 then withMaxOpen 0 db else db in
  let syncMaxIdle := (0 <? maxOpen db) && (maxOpen db <? maxIdleConnsLocked db) in
  if syncMaxIdle then SetMaxIdleConns n db else db.
Definition SetConnMaxIdleTime (d : Z) (db : DB) : DB :=
  let db := logCall (CallSetConnMaxIdleTime d) db in
  let d := if d <? 0 then 0 else d in
  withMaxIdleTime d db.

(** ** The effect of [Open]: calls of [sql.Open]

    [Open] returns a value or an error and, on the way, calls [sql.Open].
    A computation takes the connection strings handed to [sql.Open] so far
    and returns them extended, also when it ends in an error. *)
Inductive result (A : Type) :=
  | Ok (a : A)
  | Err (e : error).
Arguments Ok {A} a.
Arguments Err {A} e.

Definition IO (A : Type) : Type := list string → list string * result A.

Definition fail {A} (e : error) : IO A := λ log, (log, Err e).

Global Instance IO_ret : MRet IO := λ A (a : A) log, (log, Ok a).
Global Instance IO_bind : MBind IO := λ A B (k : A → IO B) (m : IO A) log,
  match m log with
  | (log', Ok a) => k a log'
  | (log', Err e) => (log', Err e)
  end.

(** ** strings.ToUpper on bytes *)

Definition isLowerByte (c : ascii) : bool :=
  (("a" <=? c) && (c <=? "z"))%char.
Definition isASCIIByte (c : ascii) : bool := (N_of_ascii c <? 128)%N.
Definition upperByte (c : ascii) : ascii :=
  if isLowerByte c then ascii_of_N (N_of_ascii c - 32) else c.

Fixpoint mapBytes (f : ascii → ascii) (s : string) : string :=
  match s with
  | EmptyString => EmptyString
  | String c s' => String (f c) (mapBytes f s')
  end.
Fixpoint allBytes (p : ascii → bool) (s : string) : bool :=
  match s with
  | EmptyString => true
  | String c s' => p c && allBytes p s'
  end.
Fixpoint anyByte (p : ascii → bool) (s : string) : bool :=
  match s with
  | EmptyString => false
  | String c s' => p c || anyByte p s'
  end.

Section World.
(** What [Open] takes from outside the package. *)

(** [strings.ToUpper] on a string with a byte above 0x7f maps the Unicode
    tables over its runes; the tables are not part of this package. *)
Variable unicodeToUpper : string → string.
(** The process environment read by [os.Getenv]. *)
Variable env : gmap string string.
(** [sql.Drivers()], the registered driver names. *)
Variable Drivers : list string.
(** [sql.Open driver dsn]: [Some msg] when it returns the error [msg],
    [None] when it returns a handle. *)
Variable sqlOpenErr : string → string → option string.

Definition ToUpper (s : string) : string :=
  if allBytes isASCIIByte s then
    if negb (anyByte isLowerByte s) then s else mapBytes upperByte s
  else unicodeToUpper s.

(** [os.Getenv]: the value, or the empty string when the variable is unset. *)
Definition Getenv (key : string) : string := default "" (env !! key).

Definition getDriverName : string :=
  if existsb (String.eqb "nrmysql") Drivers then "nrmysql" else "mysql".

Definition openDSN (dsn : string) : IO DB :=
  λ log, ((log ++ [dsn])%list,
          match sqlOpenErr getDriverName dsn with
          | Some msg => Err (ErrDriver msg)
          | None => Ok (newDB getDriverName dsn)
          end).

Definition openMySQL (cluster schema : string) (config : Connection) : IO DB :=
  let clusterInUpperCase := ToUpper cluster in
  let schemaInUpperCase := ToUpper schema in
  let host :=
    if IsMaster config then
      Getenv ("DB_MYSQL_" +:+ clusterInUpperCase +:+ "_" +:+ schemaInUpperCase
                +:+ "_" +:+ schemaInUpperCase +:+ "_ENDPOINT")
    else
      Getenv ("DB_MYSQL_" +:+ clusterInUpperCase +:+ "_" +:+ schemaInUpperCase
                +:+ "_" +:+ schemaInUpperCase +:+ "_LOCAL_REPLICA_ENDPOINT") in
  let '(username, password) :=
    if IsReadOnly config then
      (schema +:+ "_RPROD",
       Getenv ("DB_MYSQL_" +:+ clusterInUpperCase +:+ "_" +:+ schemaInUpperCase
                 +:+ "_" +:+ schemaInUpperCase +:+ "_RPROD"))
    else
      (schema +:+ "_WPROD",
       Getenv ("DB_MYSQL_" +:+ clusterInUpperCase +:+ "_" +:+ schemaInUpperCase
                 +:+ "_" +:+ schemaInUpperCase +:+ "_WPROD")) in
  let dsn := username +:+ ":" +:+ password +:+ "@tcp(" +:+ host +:+ ")/" +:+ schema in
  let dsn := if decide (Parameters config ≠ "")
             then dsn +:+ "?" +:+ Parameters config else dsn in
  openDSN dsn.

Definition openMySQLHA (cluster schema : string) (config : Connection) : IO DB :=
  let clusterInUpperCase := ToUpper cluster in
  let schemaInUpperCase := ToUpper schema in
  let host :=
    if IsMaster config then
      Getenv ("DB_HA_MYSQL_" +:+ clusterInUpperCase +:+ "_" +:+ schemaInUpperCase
                +:+ "_" +:+ schemaInUpperCase +:+ "_WR_ENDPOINT")
    else
      Getenv ("DB_HA_MYSQL_" +:+ clusterInUpperCase +:+ "_" +:+ schemaInUpperCase
                +:+ "_" +:+ schemaInUpperCase +:+ "_RO_ENDPOINT") in
  let '(username, password) :=
    if IsReadOnly config then
      (schema +:+ "_RPROD",
       Getenv ("DB_HA_MYSQL_" +:+ clusterInUpperCase +:+ "_" +:+ schemaInUpperCase
                 +:+ "_" +:+ schemaInUpperCase +:+ "_RPROD"))
    else
      (schema +:+ "_WPROD",
       Getenv ("DB_HA_MYSQL_" +:+ clusterInUpperCase +:+ "_" +:+ schemaInUpperCase
                 +:+ "_" +:+ schemaInUpperCase +:+ "_WPROD")) in
  let dsn := username +:+ ":" +:+ password +:+ "@tcp(" +:+ host +:+ ")/" +:+ schema in
  let dsn := if decide (Parameters config ≠ "")
             then dsn +:+ "?" +:+ Parameters config else dsn in
  openDSN dsn.

(** [validateDuplicateNames], with the set of names seen so far. *)
Fixpoint validateDuplicateNamesFrom (connectionNames : gset string)
    (connections : list Connection) : option error :=
  match connections with
  | [] => None
  | connection :: rest =>
      if decide (Name connection ∈ connectionNames)
      then Some (ErrDuplicatedName (Name connection))
      else validateDuplicateNamesFrom ({[Name connection]} ∪ connectionNames) rest
  end.
Definition validateDuplicateNames (connections : list Connection) : option error :=
  validateDuplicateNamesFrom ∅ connections.

(** The four conditional setter calls of the loop body of [Open]. *)
Definition applyPool (pool : ConnectionPool) (db : DB) : DB :=
  let db := match ConnMaxLifetime pool with
            | Some d => SetConnMaxLifetime d db | None => db end in
  let db := match MaxIdleConnections pool with
            | Some n => SetMaxIdleConns n db | None => db end in
  let db := match MaxOpenConnections pool with
            | Some n => SetMaxOpenConns n db | None => db end in
  let db := match ConnMaxIdleTime pool with
            | Some d => SetConnMaxIdleTime d db | None => db end in
  db.

(** The dispatch on the topology inside the loop.  When no branch is
    taken the source leaves [db] and [err] nil; [Open] has by then
    rejected such a configuration (see [Open_never_nil]). *)
Definition openConnection (config : Config) (connectionConfig : Connection) : IO DB :=
  if decide (DSN config ≠ "") then openDSN (DSN config)
  else if decide (Cluster config ≠ "") then
    openMySQL (Cluster config) (Schema config) connectionConfig
  else if decide (HACluster config ≠ "") then
    openMySQLHA (HACluster config) (Schema config) connectionConfig
  else fail ErrNilHandle.

(** The loop of [Open] over [config.Connections], from the map built so far. *)
Fixpoint openAll (config : Config) (connections : list Connection)
    (dbs : gmap string DB) : IO (gmap string DB) :=
  match connections with
  | [] => mret dbs
  | connectionConfig :: rest =>
      if bool_decide (DSN config = "") && (negb (IsMaster connectionConfig)
                                           && negb (IsReadOnly connectionConfig))
      then fail (ErrReplicaWrite (Name connectionConfig))
      else
        db ← openConnection config connectionConfig;
        openAll config rest
          (<[Name connectionConfig := applyPool (connection_pool connectionConfig) db]> dbs)
  end.

Definition Open (config : Config) : IO (gmap string DB) :=
  if decide (DSN config = "" ∧ Cluster config = "" ∧ HACluster config = "")
  then fail ErrNoTopology
  else if decide (DSN config ≠ "" ∧ (Cluster config ≠ "" ∨ HACluster config ≠ ""))
  then fail ErrDSNExclusive
  else if decide (Cluster config ≠ "" ∧ HACluster config ≠ "")
  then fail ErrClusterExclusive
  else if decide (DSN config ≠ "" ∧ Schema config ≠ "")
  then fail ErrDSNWithSchema
  else if decide (DSN config = "" ∧ Schema config = "")
  then fail ErrSchemaMissing
  else if decide (length (Connections config) = 0%nat)
  then fail ErrNoConnections
  else match validateDuplicateNames (Connections config) with
       | Some err => fail err
       | None => openAll config (Connections config) ∅
       end.

End World.

(** ** The registry (type [connections]) and its operations *)

(** [sort.Strings]: the names in ascending byte-wise order.  Equal strings
    are the same value, so every sorting algorithm returns this list. *)
Definition sortStrings (names : list string) : list string :=
  merge_sort String.le names.

Section Registry.
(** [( *sql.DB).Close]: [None] when it returns nil, else the text of the
    error it returns. *)
Variable dbClose : DB → option string.

Definition Get (dbs : gmap string DB) (name : string) : DB + string :=
  match dbs !! name with
  | Some connection => inl connection
  | None => inr ("unknown connection name " +:+ name)
  end.

(** [maps.Values] and [maps.Keys] return the entries in an unspecified
    order; this is one of them. *)
Definition List (dbs : gmap string DB) : list DB := (map_to_list dbs).*2.
Definition Keys (dbs : gmap string DB) : list string := (map_to_list dbs).*1.

(** The loop of [Close] over the sorted names: [closed] collects the names
    whose handle had [Close] called, [errs] the rendered failures. *)
Fixpoint closeEach (dbs : gmap string DB) (names closed errs : list string)
    : list string * list string :=
  match names with
  | [] => (closed, errs)
  | name :: rest =>
      match dbClose (dbs !!! name) with
      | Some err =>
          closeEach dbs rest (closed ++ [name])%list
            (errs ++ [name +:+ ": " +:+ err])%list
      | None => closeEach dbs rest (closed ++ [name])%list errs
      end
  end.

(** [Close], from the slice [maps.Keys] returned.  The result is the
    names closed, in order, and the returned error ([None] is nil). *)
Definition CloseFrom (dbs : gmap string DB) (names : list string)
    : list string * option string :=
  let names := sortStrings names in
  let '(closed, errs) := closeEach dbs names [] [] in
  (closed,
   if decide (0 < length errs)%nat
   then Some ("failed to close connections: " +:+ String.concat ", " errs)
   else None).

Definition Close (dbs : gmap string DB) : list string * option string :=
  CloseFrom dbs (Keys dbs).
End Registry.

(** ** The package's tests, replayed on the model *)
Module Tests.
(** The mock driver of the tests is registered as "mysql"; its
    [OpenConnector] never fails, and the connector's [Close] fails when
    the connection string contains "close_with_error". *)
Definition mockDrivers : list string := ["mysql"].
Definition mockOpenErr (driver dsn : string) : option string := None.

Fixpoint hasPrefix (p s : string) : bool :=
  match p, s with
  | EmptyString, _ => true
  | String a p', String b s' => Ascii.eqb a b && hasPrefix p' s'
  | String _ _, EmptyString => false
  end.
Fixpoint contains (s sub : string) : bool :=
  hasPrefix sub s ||
  match s with
  | EmptyString => false
  | String _ s' => contains s' sub
  end.
Definition mockClose (db : DB) : option string :=
  if contains (db_dsn db) "close_with_error"
  then Some "driver: bad connection" else None.

Definition conn (name : string) (master readOnly : bool) (params : string) : Connection :=
  mkConnection name master readOnly params noPool.

Definition run (env : gmap string string) (config : Config) :=
  Open id env mockDrivers mockOpenErr config [].

Definition params := "timeout=100ms&readTimeout=100ms&writeTimeout=100ms&parseTime=true".

(** [strconv.Quote] on a name of printable ASCII bytes other than the
    double quote and the backslash: the name between double quotes. *)
Definition quoteName (name : string) : string :=
  String "034" name +:+ String "034" "".

(** The error text of a run, [None] when it returns a registry. *)
Definition errorOf (r : list string * result (gmap string DB)) : option string :=
  match r.2 with Ok _ => None | Err e => Some (errorText quoteName e) end.

(** The connection string of the handle a run registers under [name]. *)
Definition dsnOf (r : list string * result (gmap string DB)) (name : string)
    : option string :=
  match r.2 with Ok reg => db_dsn <$> reg !! name | Err _ => None end.
End Tests.


(** ** The connection string, as the specification words it *)
Section Resolution.
Variable unicodeToUpper : string → string.
Variable env : gmap string string.

Local Abbreviation ToUpper := (ToUpper unicodeToUpper).
Local Abbreviation Getenv := (Getenv env).

(** The role suffix of the user name and of the password variable. *)
Definition roleSuffix (spec : Connection) : string :=
  if IsReadOnly spec then "_RPROD" else "_WPROD".

(** [username:password@tcp(host)/schema[?extraParameters]]. *)
Definition composeDSN (username password host schema extraParameters : string) : string :=
  username +:+ ":" +:+ password +:+ "@tcp(" +:+ host +:+ ")/" +:+ schema
    +:+ (if decide (extraParameters = "") then "" else "?" +:+ extraParameters).

(** The variable [{stem}_{CLUSTER}_{SCHEMA}_{SCHEMA}{suffix}]. *)
Definition variableName (stem cluster schema suffix : string) : string :=
  stem +:+ "_" +:+ ToUpper cluster +:+ "_" +:+ ToUpper schema
    +:+ "_" +:+ ToUpper schema +:+ suffix.

Definition singleClusterDSN (cluster schema : string) (spec : Connection) : string :=
  composeDSN
    (schema +:+ roleSuffix spec)
    (Getenv (variableName "DB_MYSQL" cluster schema (roleSuffix spec)))
    (Getenv (variableName "DB_MYSQL" cluster schema
               (if IsMaster spec then "_ENDPOINT" else "_LOCAL_REPLICA_ENDPOINT")))
    schema (Parameters spec).

Definition haClusterDSN (cluster schema : string) (spec : Connection) : string :=
  composeDSN
    (schema +:+ roleSuffix spec)
    (Getenv (variableName "DB_HA_MYSQL" cluster schema (roleSuffix spec)))
    (Getenv (variableName "DB_HA_MYSQL" cluster schema
               (if IsMaster spec then "_WR_ENDPOINT" else "_RO_ENDPOINT")))
    schema (Parameters spec).

(** The connection string of a spec under a configuration: the DSN in
    direct mode, else the string of the cluster naming convention. *)
Definition connectionString (config : Config) (spec : Connection) : string :=
  if decide (DSN config ≠ "") then DSN config
  else if decide (Cluster config ≠ "")
       then singleClusterDSN (Cluster config) (Schema config) spec
       else haClusterDSN (HACluster config) (Schema config) spec.
End Resolution.

(** ** The invariants of the data model, as the specification words them *)

Definition isSet (s : string) : bool := negb (bool_decide (s = "")).
Definition clusterMode (config : Config) : bool :=
  isSet (Cluster config) || isSet (HACluster config).

(** 1. Exactly one of direct DSN, singleCluster name, haCluster name is set. *)
Definition inv1 (config : Config) : bool :=
  bool_decide (length (filter (λ s, isSet s = true)
                 [DSN config; Cluster config; HACluster config]) = 1%nat).
(** 2. Schema is set if and only if the mode is a cluster mode. *)
Definition inv2 (config : Config) : bool :=
  bool_decide (isSet (Schema config) = clusterMode config).
(** 3. The list of connection specs is non-empty. *)
Definition inv3 (config : Config) : bool :=
  negb (bool_decide (Connections config = [])).
(** 4. All names are unique. *)
Definition inv4 (config : Config) : bool :=
  bool_decide (NoDup (Name <$> Connections config)).
(** 5. In cluster modes every spec is isMaster or isReadOnly. *)
Definition specHasRole (spec : Connection) : bool := IsMaster spec || IsReadOnly spec.
Definition inv5 (config : Config) : bool :=
  negb (clusterMode config) || forallb specHasRole (Connections config).

Definition invariants (config : Config) : list bool :=
  [inv1 config; inv2 config; inv3 config; inv4 config; inv5 config].

(** How many invariants a configuration violates, and the first of them in
    the order of the list (numbered from 1). *)
Definition violations (config : Config) : nat :=
  length (filter (λ b, b = false) (invariants config)).
Definition firstViolated (config : Config) : option nat :=
  S <$> (fst <$> list_find (λ b, b = false) (invariants config)).

(** The invariant an error of [Open] reports; a driver error reports none. *)
Definition invariantOf (e : error) : option nat :=
  match e with
  | ErrNoTopology | ErrDSNExclusive | ErrClusterExclusive => Some 1%nat
  | ErrDSNWithSchema | ErrSchemaMissing => Some 2%nat
  | ErrNoConnections => Some 3%nat
  | ErrDuplicatedName _ => Some 4%nat
  | ErrReplicaWrite _ => Some 5%nat
  | ErrDriver _ | ErrNilHandle => None
  end.
(** ConfigError: the validation failures. *)
Definition isConfigError (e : error) : bool :=
  bool_decide (is_Some (invariantOf e)).

(** ** Package [time]: [Duration.String] and [ParseDuration]

    [Duration] marshals through these two functions of Go's standard
    library, which are not part of the package: the definitions follow the
    library's source ([Duration.format], [fmtFrac], [fmtInt],
    [ParseDuration], [leadingInt], [leadingFraction], [unitMap]).  A
    [Duration] is an int64 count of nanoseconds; the functions work on its
    magnitude as a uint64. *)
Module time.

Definition Nanosecond : Z := 1.
Definition Microsecond : Z := 1000 * Nanosecond.
Definition Millisecond : Z := 1000 * Microsecond.
Definition Second : Z := 1000 * Millisecond.
Definition Minute : Z := 60 * Second.
Definition Hour : Z := 60 * Minute.

(** Conversions to uint64 and to int64 wrap around. *)
Definition toUint64 (z : Z) : Z := z mod 2^64.
Definition toInt64 (z : Z) : Z := (z + 2^63) mod 2^64 - 2^63.

Definition isDigit (c : ascii) : bool := (("0" <=? c) && (c <=? "9"))%char.
(** [byte(digit) + '0'] and [uint64(c) - '0']. *)
Definition digitByte (digit : Z) : ascii := ascii_of_N (Z.to_N (digit + 48)).
Definition digitValue (c : ascii) : Z := Z.of_N (N_of_ascii c) - 48.

(** *** Formatting.  The source fills a 32-byte buffer from its end; [buf]
    is the part written so far. *)

(** The loop of [fmtInt]; a uint64 has at most [S (log2 v)] digits. *)
Fixpoint fmtIntLoop (fuel : nat) (v : Z) (buf : string) : string :=
  match fuel with
  | O => buf
  | S fuel' =>
      if 0 <? v then fmtIntLoop fuel' (v / 10) (String (digitByte (v mod 10)) buf)
      else buf
  end.
Definition fmtInt (buf : string) (v : Z) : string :=
  if v =? 0 then String "0" buf
  else fmtIntLoop (S (Z.to_nat (Z.log2 v))) v buf.

Fixpoint fmtFracLoop (prec : nat) (v : Z) (print : bool) (buf : string)
    : string * Z * bool :=
  match prec with
  | O => (buf, v, print)
  | S prec' =>
      let digit := v mod 10 in
      let print := print || negb (digit =? 0) in
      let buf := if print then String (digitByte digit) buf else buf in
      fmtFracLoop prec' (v / 10) print buf
  end.
Definition fmtFrac (buf : string) (v : Z) (prec : nat) : string * Z :=
  let '(buf, v, print) := fmtFracLoop prec v false buf in
  (if print then String "." buf else buf, v).

(** The micro sign U+00B5 and the Greek letter mu U+03BC, in UTF-8. *)
Definition microSign : string := String "194" (String "181" "").
Definition greekMu : string := String "206" (String "188" "").

(** The branch of [Duration.format] on the magnitude [u], which fills the
    buffer with the units and the digits. *)
Definition formatMagnitude (u : Z) : string :=
  if u <? Second then
    let '(buf, prec) :=
      if u <? Microsecond then ("ns", 0%nat)
      else if u <? Millisecond then (microSign +:+ "s", 3%nat)
      else ("ms", 6%nat) in
    let '(buf, u) := fmtFrac buf u prec in
    fmtInt buf u
  else
    let '(buf, u) := fmtFrac "s" u 9 in
    let buf := fmtInt buf (u mod 60) in
    let u := u / 60 in
    if 0 <? u then
      let buf := fmtInt (String "m" buf) (u mod 60) in
      let u := u / 60 in
      if 0 <? u then fmtInt (String "h" buf) u else buf
    else buf.

(** [Duration.String] (through [Duration.format]); the zero duration
    returns early. *)
Definition Duration_String (d : Z) : string :=
  let u := toUint64 d in
  let neg := d <? 0 in
  let u := if neg then toUint64 (- u) else u in
  if (u <? Second) && (u =? 0) then "0s"
  else
    let buf := formatMagnitude u in
    if neg then String "-" buf else buf.

(** *** Parsing *)

Inductive parseError :=
  | InvalidDuration (orig : string)
  | MissingUnit (orig : string)
  | UnknownUnit (u orig : string).

(** [leadingInt], from the value [x] read so far; [None] is [errLeadingInt]. *)
Fixpoint leadingIntFrom (x : Z) (s : string) : option (Z * string) :=
  match s with
  | String c s' =>
      if isDigit c then
        if 2^63 / 10 <? x then None
        else
          let x := x * 10 + digitValue c in
          if 2^63 <? x then None else leadingIntFrom x s'
      else Some (x, s)
  | EmptyString => Some (x, s)
  end.
Definition leadingInt (s : string) : option (Z * string) := leadingIntFrom 0 s.

(** [leadingFraction]; [scale] is a power of ten below 10^20, which a
    float64 holds exactly. *)
Fixpoint leadingFractionFrom (x scale : Z) (overflow : bool) (s : string)
    : Z * Z * string :=
  match s with
  | String c s' =>
      if isDigit c then
        if overflow then leadingFractionFrom x scale overflow s'
        else if (2^63 - 1) / 10 <? x then leadingFractionFrom x scale true s'
        else
          let y := x * 10 + digitValue c in
          if 2^63 <? y then leadingFractionFrom x scale true s'
          else leadingFractionFrom y (scale * 10) false s'
      else (x, scale, s)
  | EmptyString => (x, scale, s)
  end.
Definition leadingFraction (s : string) : Z * Z * string :=
  leadingFractionFrom 0 1 false s.

Definition unitMap (u : string) : option Z :=
  if decide (u = "ns") then Some Nanosecond
  else if decide (u = "us") then Some Microsecond
  else if decide (u = microSign +:+ "s") then Some Microsecond
  else if decide (u = greekMu +:+ "s") then Some Microsecond
  else if decide (u = "ms") then Some Millisecond
  else if decide (u = "s") then Some Second
  else if decide (u = "m") then Some Minute
  else if decide (u = "h") then Some Hour
  else None.

(** The unit: the bytes up to the first '.' or digit, and the rest. *)
Fixpoint splitUnit (s : string) : string * string :=
  match s with
  | String c s' =>
      if Ascii.eqb c "." || isDigit c then (EmptyString, s)
      else let '(u, rest) := splitUnit s' in (String c u, rest)
  | EmptyString => (EmptyString, EmptyString)
  end.

Section Parse.
(** [uint64(float64(f) * (float64(unit) / scale))], the nanoseconds of the
    fraction [f/scale] of a unit: floating-point arithmetic of the language. *)
Variable fractionNanos : Z → Z → Z → Z.

(** The loop [for s != ""] of [ParseDuration], with the sum [d] so far.
    Every round consumes a byte, so [length s] rounds are enough
    (see [parseSegments_fuel]). *)
Fixpoint parseSegments (fuel : nat) (orig s : string) (d : Z) : parseError + Z :=
  match s, fuel with
  | EmptyString, _ => inr d
  | _, O => inr d
  | String c0 _, S fuel' =>
      if negb (Ascii.eqb c0 "." || isDigit c0) then inl (InvalidDuration orig)
      else
        let pl := String.length s in
        match leadingInt s with
        | None => inl (InvalidDuration orig)
        | Some (v, s1) =>
            let pre := negb (pl =? String.length s1)%nat in
            let '(f, scale, s2, post) :=
              match s1 with
              | String c s1' =>
                  if Ascii.eqb c "." then
                    let '(f, scale, rest) := leadingFraction s1' in
                    (f, scale, rest, negb (String.length s1' =? String.length rest)%nat)
                  else (0, 1, s1, false)
              | EmptyString => (0, 1, s1, false)
              end in
            if negb pre && negb post then inl (InvalidDuration orig)
            else
              let '(u, s3) := splitUnit s2 in
              if decide (u = "") then inl (MissingUnit orig)
              else
                match unitMap u with
                | None => inl (UnknownUnit u orig)
                | Some unit =>
                    if 2^63 / unit <? v then inl (InvalidDuration orig)
                    else
                      let v := v * unit in
                      let v := if 0 <? f
                               then toUint64 (v + fractionNanos f unit scale)
                               else v in
                      if (0 <? f) && (2^63 <? v) then inl (InvalidDuration orig)
                      else
                        let d := toUint64 (d + v) in
                        if 2^63 <? d then inl (InvalidDuration orig)
                        else parseSegments fuel' orig s3 d
                end
        end
  end.

Definition ParseDuration (s : string) : parseError + Z :=
  let orig := s in
  let '(neg, s) :=
    match s with
    | String c s' =>
        if Ascii.eqb c "-" || Ascii.eqb c "+" then (Ascii.eqb c "-", s')
        else (false, s)
    | EmptyString => (false, s)
    end in
  if decide (s = "0") then inr 0
  else if decide (s = "") then inl (InvalidDuration orig)
  else
    match parseSegments (String.length s) orig s 0 with
    | inl e => inl e
    | inr d =>
        if neg then inr (toInt64 (- toInt64 d))
        else if 2^63 - 1 <? d then inl (InvalidDuration orig)
        else inr d
    end.
End Parse.

End time.

(** ** Type [Duration]: JSON encoding as a duration string *)
Section DurationJSON.
Variable fractionNanos : Z → Z → Z → Z.
(** [json.Marshal] of a string, and [json.Unmarshal] into a string
    ([None] when it returns an error). *)
Variable jsonMarshalString : string → string.
Variable jsonUnmarshalString : string → option string.

Inductive unmarshalError :=
  | JSONError                          (* the error of json.Unmarshal *)
  | InvalidDurationText (duration : string).   (* "invalid duration: %q" *)

Definition MarshalJSON (d : Z) : string :=
  jsonMarshalString (time.Duration_String d).

Definition UnmarshalJSON (bytes : string) : unmarshalError + Z :=
  match jsonUnmarshalString bytes with
  | None => inl JSONError
  | Some duration =>
      match time.ParseDuration fractionNanos duration with
      | inl _ => inl (InvalidDurationText duration)
      | inr parsedDuration => inr parsedDuration
      end
  end.
End DurationJSON.

(** ** Package [logger]: the helpers of logger_tools.go and the methods of
    [Logger] *)
Module logger.

(** [strings.LastIndex s sep] for a separator [sep] of one byte [c]: the
    index of the last [c] in [s], or -1 when there is none. *)
Fixpoint LastIndexByte (s : string) (c : ascii) : Z :=
  match s with
  | EmptyString => -1
  | String a s' =>
      let i := LastIndexByte s' c in
      if 0 <=? i then i + 1 else if Ascii.eqb a c then 0 else -1
  end.

(** The slice [s[n:]]; the source takes it only with [n] up to the length. *)
Fixpoint sliceFrom (n : nat) (s : string) : string :=
  match n, s with
  | O, _ => s
  | S n', String _ s' => sliceFrom n' s'
  | S _, EmptyString => EmptyString
  end.

(** The verb %d on an int: the decimal digits, after a minus sign for a
    negative number. *)
Definition formatInt (n : Z) : string :=
  if n <? 0 then String "-" (time.fmtInt "" (- n)) else time.fmtInt "" n.

Definition FileInfo (file : string) (line : Z) (ok : bool) : string :=
  let '(file, line) :=
    if negb ok then ("<???>", 1)
    else
      let slash := LastIndexByte file "/" in
      (if 0 <=? slash then sliceFrom (Z.to_nat (slash + 1)) file else file, line) in
  file +:+ ":" +:+ formatInt line.

Definition FuncInfo (funcname : string) : string :=
  let fn := sliceFrom (Z.to_nat (LastIndexByte funcname "/" + 1)) funcname in
  fn +:+ "()".

(** A string without the byte '/'. *)
Definition noSlash (s : string) : bool :=
  allBytes (λ c, negb (Ascii.eqb c "/")) s.

(** The colours and the level names. *)
Definition escape (code : string) : string := String "027" code.
Definition green : string := escape "[97;42m".
Definition yellow : string := escape "[90;43m".
Definition red : string := escape "[97;41m".
Definition blue : string := escape "[97;44m".
Definition magenta : string := escape "[97;45m".
Definition cyan : string := escape "[97;46m".
Definition reset : string := escape "[0m".

Definition gError : string := "Error".
Definition fatal : string := "Fatal".
Definition panico : string := "Panic".
Definition info : string := "Info".
Definition warning : string := "warning".
Definition debug : string := "Debug".

(** What a method of the logger does to the outside: it prints one line
    with [fmt.Printf] (the format is the same in every method, the seven
    arguments are kept), calls the exit function it was built with, or
    panics. *)
Inductive Event :=
  | EvPrintf (args : list string)
  | EvExit (code : Z)
  | EvPanic (value : string).

(** The results of [runtime.Caller(1)] and of [runtime.FuncForPC(pc).Name()]. *)
Record Caller := mkCaller {
  caller_file : string;
  caller_line : Z;
  caller_ok : bool;
  caller_func : string
}.

Section Methods.
(** The variadic arguments, and how package fmt renders them: the verb %s on
    the slice, [fmt.Sprint], [fmt.Sprintf], and the text of [fmt.Errorf]. *)
Variable Args : Type.
Variable fmtVerbS : Args → string.
Variable fmtSprint : Args → string.
Variable fmtSprintf : string → Args → string.
Variable fmtErrorf : string → Args → string.
(** [FormatNow(time.Now())]. *)
Variable nowText : string.
Variable env : gmap string string.

Definition printLine (colour level : string) (c : Caller) (message : string) : Event :=
  EvPrintf [nowText; colour; level; reset;
            FileInfo (caller_file c) (caller_line c) (caller_ok c);
            FuncInfo (caller_func c); message].

Definition Fatal (c : Caller) (v : Args) : list Event :=
  [printLine magenta fatal c (fmtVerbS v); EvExit 1].
Definition Fatalf (c : Caller) (format : string) (args : Args) : list Event :=
  [printLine magenta fatal c (fmtErrorf format args); EvExit 1].
Definition Panic (c : Caller) (v : Args) : list Event :=
  let s := fmtSprint v in
  [printLine cyan panico c (fmtVerbS v); EvPanic s].
Definition Panicf (c : Caller) (format : string) (args : Args) : list Event :=
  let s := fmtSprintf format args in
  [printLine cyan panico c (fmtErrorf format args); EvPanic s].
Definition Error (c : Caller) (v : Args) : list Event :=
  [printLine red gError c (fmtVerbS v)].
Definition Errorf (c : Caller) (format : string) (args : Args) : list Event :=
  [printLine red gError c (fmtErrorf format args)].
Definition Info (c : Caller) (v : Args) : list Event :=
  [printLine blue info c (fmtVerbS v)].
Definition Infof (c : Caller) (format : string) (args : Args) : list Event :=
  [printLine blue info c (fmtSprintf format args)].
Definition Warning (c : Caller) (v : Args) : list Event :=
  [printLine yellow warning c (fmtVerbS v)].
Definition Warningf (c : Caller) (format : string) (args : Args) : list Event :=
  [printLine yellow warning c (fmtSprintf format args)].
Definition Debug (c : Caller) (v : Args) : list Event :=
  if decide (Getenv env "MODE_DEBUG" = "true")
  then [printLine green debug c (fmtVerbS v)] else [].
Definition Debugf (c : Caller) (format : string) (args : Args) : list Event :=
  if decide (Getenv env "MODE_DEBUG" = "true")
  then [printLine green debug c (fmtSprintf format args)] else [].

(** The methods of the interface [Logger], and a call of one of them. *)
Inductive Method :=
  | MFatal | MFatalf | MPanic | MPanicf | MError | MErrorf
  | MInfo | MInfof | MWarning | MWarningf | MDebug | MDebugf.

Definition call (m : Method) (c : Caller) (format : string) (args : Args) : list Event :=
  match m with
  | MFatal => Fatal c args
  | MFatalf => Fatalf c format args
  | MPanic => Panic c args
  | MPanicf => Panicf c format args
  | MError => Error c args
  | MErrorf => Errorf c format args
  | MInfo => Info c args
  | MInfof => Infof c format args
  | MWarning => Warning c args
  | MWarningf => Warningf c format args
  | MDebug => Debug c args
  | MDebugf => Debugf c format args
  end.
End Methods.
End logger.

(** ** Package [web]: [EncodeJSON] *)
Module web.

(** What [EncodeJSON] does to the response writer [w]: the calls of [Add]
    and [Set] on the header [w.Header()], and the calls of [w.WriteHeader]
    and [w.Write], in order. *)
Inductive WriterCall :=
  | HeaderAdd (key value : string)
  | HeaderSet (key value : string)
  | WriteHeader (code : Z)
  | Write (data : string).

(** What becomes of the value when it is turned into bytes. *)
Inductive Encoded :=
  | Data (jsonData : string)
  | Failed (err : string).

(** The value [v], as the type switch and the type assertion of the source
    see it: a [[]byte], an [io.Reader] with the result of [io.ReadAll], or
    any other value with the result of [json.Marshal].  The last two may
    implement [Headers]; [headers] is then the result of [Headers()], in the
    order the range over the map visits it. *)
Inductive Value :=
  | Bytes (data : string)
  | Reader (headers : option (list (string * list string))) (readAll : Encoded)
  | Other (headers : option (list (string * list string))) (marshal : Encoded).

Definition StatusNoContent : Z := 204.

Definition headersOf (v : Value) : option (list (string * list string)) :=
  match v with
  | Bytes _ => None
  | Reader headers _ | Other headers _ => headers
  end.

Section Encode.
(** The error of [w.Write data] after the calls made so far, [None] for nil. *)
Variable writeErr : list WriterCall → string → option string.

Definition EncodeJSON (v : Value) (code : Z) : list WriterCall * option string :=
  let calls :=
    match headersOf v with
    | Some headers => flat_map (λ kv, HeaderAdd kv.1 <$> kv.2) headers
    | None => []
    end in
  if code =? StatusNoContent then (calls ++ [WriteHeader code], None)
  else
    let encoded :=
      match v with
      | Bytes data => Data data
      | Reader _ readAll => readAll
      | Other _ marshal => marshal
      end in
    match encoded with
    | Failed err => (calls, Some err)
    | Data jsonData =>
        let calls :=
          calls ++ [HeaderSet "Content-Type" "application/json; charset=utf-8";
                    WriteHeader code] in
        (calls ++ [Write jsonData], writeErr calls jsonData)
    end.
End Encode.

(** [http.Header]: [Add] appends to the values under the canonical form of
    the key, [Set] replaces them; [canonical] is
    [textproto.CanonicalMIMEHeaderKey]. *)
Definition applyHeader (canonical : string → string)
    (header : gmap string (list string)) (c : WriterCall) : gmap string (list string) :=
  match c with
  | HeaderAdd key value =>
      <[canonical key := default [] (header !! canonical key) ++ [value]]> header
  | HeaderSet key value => <[canonical key := [value]]> header
  | WriteHeader _ | Write _ => header
  end.
(** The header after a sequence of calls. *)
Definition headerAfter (canonical : string → string)
    (header : gmap string (list string)) (calls : list WriterCall)
    : gmap string (list string) :=
  foldl (applyHeader canonical) header calls.

(** The values a header list adds under the canonical key [key], in order. *)
Definition addedValues (canonical : string → string) (key : string)
    (headers : list (string * list string)) : list string :=
  flat_map (λ kv, if decide (canonical kv.1 = key) then kv.2 else []) headers.

Definition isWriteHeader (c : WriterCall) : bool :=
  match c with WriteHeader _ => true | _ => false end.
Definition isWrite (c : WriterCall) : bool :=
  match c with Write _ => true | _ => false end.
Definition isHeaderSet (c : WriterCall) : bool :=
  match c with HeaderSet _ _ => true | _ => false end.
End web.

(** A configuration names a topology when one of the three fields is set. *)
Definition hasTopology (config : Config) : Prop :=
  DSN config ≠ "" ∨ Cluster config ≠ "" ∨ HACluster config ≠ "".

(** The handle [Open] registers for a spec: opened on the spec's connection
    string, with the pool setters of [applyPool] called on it. *)
Definition handleOf (unicodeToUpper : string → string) (env : gmap string string)
    (Drivers : list string) (config : Config) (spec : Connection) : DB :=
  applyPool (connection_pool spec)
    (newDB (getDriverName Drivers) (connectionString unicodeToUpper env config spec)).

(** The map after registering the handles of [specs], in order, on [dbs]. *)
Definition registerAll (unicodeToUpper : string → string) (env : gmap string string)
    (Drivers : list string) (config : Config) (specs : list Connection)
    (dbs : gmap string DB) : gmap string DB :=
  foldl (λ m spec, <[Name spec := handleOf unicodeToUpper env Drivers config spec]> m)
    dbs specs.

(** The driver opens the connection string of [spec]. *)
Definition accepted (unicodeToUpper : string → string) (env : gmap string string)
    (Drivers : list string) (sqlOpenErr : string → string → option string)
    (config : Config) (spec : Connection) : Prop :=
  sqlOpenErr (getDriverName Drivers) (connectionString unicodeToUpper env config spec) = None.

(** The first four invariants hold. *)
Definition validated (config : Config) : Prop :=
  inv1 config = true ∧ inv2 config = true ∧ inv3 config = true ∧ inv4 config = true.

(** C8 as the specification words its second half: on the handle [Open]
    registers for a spec, every pool limit whose field is absent has the
    value it has on a freshly opened handle. *)
Definition absentSettingsUntouched (unicodeToUpper : string → string)
    (env : gmap string string) (Drivers : list string)
    (sqlOpenErr : string → string → option string) (config : Config) : Prop :=
  ∀ log' reg spec,
    Open unicodeToUpper env Drivers sqlOpenErr config [] = (log', Ok reg) →
    spec ∈ Connections config →
    ∃ h, reg !! Name spec = Some h ∧
      let pool := connection_pool spec in
      let fresh := newDB (getDriverName Drivers)
                     (connectionString unicodeToUpper env config spec) in
      (ConnMaxLifetime pool = None → maxLifetime h = maxLifetime fresh) ∧
      (MaxIdleConnections pool = None → maxIdleConnsLocked h = maxIdleConnsLocked fresh) ∧
      (MaxOpenConnections pool = None → maxOpen h = maxOpen fresh) ∧
      (ConnMaxIdleTime pool = None → maxIdleTime h = maxIdleTime fresh).

(** *** The configurations and the environment of the package's tests *)
Module Fixtures.
Import Tests.

Definition envSingleMaster : gmap string string :=
  <["DB_MYSQL_DESAENV08_BAR_BAR_ENDPOINT" := "localhost:3306"]>
    (<["DB_MYSQL_DESAENV08_BAR_BAR_WPROD" := "password"]> ∅).
Definition specMaster : Connection := conn "foo" true false params.
Definition configSingleMaster : Config :=
  mkConfig "" "desaenv08" "" "bar" [specMaster].

Definition envHAReadOnly : gmap string string :=
  <["DB_HA_MYSQL_DESAENV08_BAR_BAR_RO_ENDPOINT" := "localhost:3306"]>
    (<["DB_HA_MYSQL_DESAENV08_BAR_BAR_RPROD" := "password"]> ∅).
Definition specReadOnly : Connection := conn "foo" false true params.
Definition configHAReadOnly : Config :=
  mkConfig "" "" "desaenv08" "bar" [specReadOnly].

Definition specIgnored : Connection := conn "foo" false false params.
Definition configDirect : Config :=
  mkConfig "root:password@tcp(localhost:3306)/foo" "" "" "" [specIgnored].

(** A master spec followed by a spec that is neither master nor read-only. *)
Definition configReplicaSecond : Config :=
  mkConfig "" "desaenv08" "" "bar"
    [conn "a" true false ""; conn "b" false false ""].

(** The configuration of [TestConfigAsJSON_FuryMySQL_Readme], which sets
    only variables of schema "bar" and opens schema "my_schema". *)
Definition envReadme : gmap string string :=
  <["DB_MYSQL_DESAENV08_BAR_BAR_ENDPOINT" := "localhost:3306"]>
    (<["DB_MYSQL_DESAENV08_BAR_BAR_RPROD" := "password"]> ∅).
Definition poolReadme : ConnectionPool :=
  mkConnectionPool (Some (10 * 60 * 10^9)) (Some 100) (Some 100) (Some (60 * 10^9)).
Definition configReadme : Config :=
  mkConfig "" "desaenv08" "" "my_schema"
    [mkConnection "master_rw" true false params poolReadme;
     mkConnection "master_ro" true true params poolReadme;
     mkConnection "replica_ro" false true params poolReadme].

(** A DSN together with a schema, and no connection: two violations. *)
Definition configDSNWithSchema : Config := mkConfig "foo" "" "" "schema" [].

(** A spec whose only pool setting is a limit of one open connection. *)
Definition specOpenOnly : Connection :=
  mkConnection "1" true true params (mkConnectionPool None None (Some 1) None).
Definition configOpenOnly : Config :=
  mkConfig "root:password@tcp(localhost:3306)/foo" "" "" "" [specOpenOnly].

(** A spec with an idle count above its open count. *)
Definition specIdleAboveOpen : Connection :=
  mkConnection "1" true true params
    (mkConnectionPool (Some (10 * 60 * 10^9)) (Some 100) (Some 10) None).
Definition configIdleAboveOpen : Config :=
  mkConfig "root:password@tcp(localhost:3306)/foo" "" "" "" [specIdleAboveOpen].

(** The configuration of [TestConnections_CloseReturnError]. *)
Definition configCloseWithError : Config :=
  mkConfig "root:password@tcp(localhost:3306)/close_with_error" "" "" ""
    [conn "foo" false false ""; conn "bar" false false ""; conn "baz" false false ""].

(** The map a run returns, or the empty map when it returns an error. *)
Definition registryOf (run : list string * result (gmap string DB)) : gmap string DB :=
  match run.2 with Ok reg => reg | Err _ => ∅ end.
End Fixtures.

(** The failures of closing the handles of [names], in that order, each
    rendered as ["name: underlying-error"]. *)
Definition closeFailures (dbClose : DB → option string) (dbs : gmap string DB)
    (names : list string) : list string :=
  omap (λ name, (λ err, name +:+ ": " +:+ err) <$> dbClose (dbs !!! name)) names.

(** *** Duration strings *)

(** The claim: formatting what the parser returned gives back the string. *)
Definition formatParseRoundTrip (fractionNanos : Z → Z → Z → Z) : Prop :=
  ∀ s d, time.ParseDuration fractionNanos s = inr d → time.Duration_String d = s.

(** The durations [Duration.String] prints without a decimal point: a whole
    number of the unit it prints them in (ns below a microsecond, then
    microseconds, milliseconds, and seconds from one second on). *)
Definition wholeUnits (d : Z) : bool :=
  let u := Z.abs d in
  if u <? time.Microsecond then true
  else if u <? time.Millisecond then u mod time.Microsecond =? 0
  else if u <? time.Second then u mod time.Millisecond =? 0
  else u mod time.Second =? 0.

(** *** The floating-point expression of a fraction

    [ParseDuration] computes the nanoseconds of a fraction [f/scale] of a
    unit as [uint64(float64(f) * (float64(unit) / scale))].  What the
    round trip needs of it: on a unit [10^j] of at most nine digits and a
    fraction [f / 10^k] with [k ≤ j], it is the exact [f * 10^(j-k)]. *)
Definition exactOnDecimals (fractionNanos : Z → Z → Z → Z) : Prop :=
  ∀ f j k, 0 ≤ k ≤ j → j ≤ 9 → 0 < f < 10^k →
    fractionNanos f (10^j) (10^k) = f * 10^(j - k).

(** IEEE 754 binary64 on positive numbers: a value is a fraction
    [(num, den)], and every operation rounds the exact result to 53
    significant bits, to the nearest and to even on a tie.  The exponent
    range is left out: the operands of the fraction expression lie between
    10^-19 and 2^63, far from its ends. *)
Module float64.
(** The floor of the binary logarithm of [n / d]. *)
Definition floorLog2 (n d : Z) : Z :=
  let l := Z.log2 n - Z.log2 d in
  if (if 0 <=? l then d * 2^l <=? n else d <=? n * 2^(-l)) then l else l - 1.
(** The integer nearest to [n / d], the even one of two. *)
Definition roundNearestEven (n d : Z) : Z :=
  let q := n / d in
  let r := n mod d in
  if 2 * r <? d then q
  else if d <? 2 * r then q + 1
  else if Z.even q then q else q + 1.
(** [n / d] rounded to 53 bits; an integer result has denominator 1. *)
Definition round (n d : Z) : Z * Z :=
  if n =? 0 then (0, 1)
  else
    let e := floorLog2 n d - 52 in
    if 0 <=? e then (roundNearestEven n (d * 2^e) * 2^e, 1)
    else
      let m := roundNearestEven (n * 2^(-e)) d in
      if m mod 2^(-e) =? 0 then (m / 2^(-e), 1) else (m, 2^(-e)).
Definition ofInt (z : Z) : Z * Z := round z 1.
Definition mul (x y : Z * Z) : Z * Z := round (x.1 * y.1) (x.2 * y.2).
Definition div (x y : Z * Z) : Z * Z := round (x.1 * y.2) (x.2 * y.1).
(** The conversion to uint64 truncates. *)
Definition toUint64 (x : Z * Z) : Z := x.1 / x.2.
End float64.

(** The fraction expression of [ParseDuration]; [scale] is a power of ten
    below 10^20, a float64 already. *)
Definition float64Fraction (f unit scale : Z) : Z :=
  float64.toUint64
    (float64.mul (float64.ofInt f) (float64.div (float64.ofInt unit) (float64.ofInt scale))).

(** The same expression on the binary64 floats of the proof assistant, to
    compare [float64] with. *)
Definition primOfZ (z : Z) : PrimFloat.float :=
  FloatOps.SF2Prim (SpecFloat.binary_normalize FloatOps.prec FloatOps.emax z 0 false).
Definition primToZ (x : PrimFloat.float) : Z :=
  match FloatOps.Prim2SF x with
  | SpecFloat.S754_finite false m e =>
      if 0 <=? e then Z.pos m * 2^e else Z.pos m / 2^(-e)
  | _ => 0
  end.
Definition primFraction (f unit scale : Z) : Z :=
  primToZ (PrimFloat.mul (primOfZ f) (PrimFloat.div (primOfZ unit) (primOfZ scale))).

(** Fractions of every unit, exact ones and ones that are rounded. *)
Definition fractionSamples : list (Z * Z * Z) :=
  [(5, 10^9, 10); (854775807, 10^9, 10^9); (999, 10^3, 10^3); (5, 10^6, 10);
   (3, 3600 * 10^9, 10); (1, 60 * 10^9, 10^3); (25, 60 * 10^9, 100);
   (3333333333333333333, 3600 * 10^9, 10^19);
   (9223372036854775808, 3600 * 10^9, 10^19);
   (123456789012345678, 10^6, 10^18); (999999999999999999, 3600 * 10^9, 10^18);
   (7, 10^3, 10^19); (1, 1, 10); (5, 1, 10); (9, 1, 10); (15, 1, 100);
   (4503599627370497, 1000, 10^16); (9007199254740993, 60 * 10^9, 10^16);
   (1, 3600 * 10^9, 10^19); (142857142857142857, 3600 * 10^9, 10^18)].

(** The [k] lowest decimal digits of [q], highest first, in front of [buf]. *)
Fixpoint digitsBefore (k : nat) (q : Z) (buf : string) : string :=
  match k with
  | O => buf
  | S k' => digitsBefore k' (q / 10) (String (time.digitByte (q mod 10)) buf)
  end.

(** A byte that ends a unit: '.' or a digit. *)
Definition endsUnit (c : ascii) : bool := Ascii.eqb c "." || time.isDigit c.
(** A string at which a number may start: empty, or led by a digit. *)
Definition atNumber (s : string) : Prop :=
  match s with
  | EmptyString => True
  | String c _ => time.isDigit c = true
  end.

(** The number a string of decimal digits writes, after the digits of
    value [x]. *)
Fixpoint decimalFrom (x : Z) (s : string) : Z :=
  match s with
  | EmptyString => x
  | String c s' => decimalFrom (x * 10 + time.digitValue c) s'
  end.
Definition decimal (s : string) : Z := decimalFrom 0 s.

(** A duration string of one segment: a sign or none, digits, a unit. *)
Definition signed (neg : bool) (digits u : string) : string :=
  if neg then String "-" (digits +:+ u) else digits +:+ u.

(** *** Claims that are compared with the source *)

(** A configuration that violates an invariant is rejected with a
    ConfigError before [sql.Open] is called at all. *)
Definition rejectedBeforeOpening (unicodeToUpper : string → string)
    (env : gmap string string) (Drivers : list string)
    (sqlOpenErr : string → string → option string) (config : Config) : Prop :=
  (0 < violations config)%nat →
  ∃ e, Open unicodeToUpper env Drivers sqlOpenErr config [] = ([], Err e) ∧
       isConfigError e = true.

(** The environment variables the naming convention makes [Open] read for
    a spec of a cluster-mode configuration: endpoint and password. *)
Definition requiredVariables (unicodeToUpper : string → string)
    (config : Config) (spec : Connection) : list string :=
  if decide (Cluster config ≠ "") then
    [variableName unicodeToUpper "DB_MYSQL" (Cluster config) (Schema config)
       (if IsMaster spec then "_ENDPOINT" else "_LOCAL_REPLICA_ENDPOINT");
     variableName unicodeToUpper "DB_MYSQL" (Cluster config) (Schema config)
       (roleSuffix spec)]
  else
    [variableName unicodeToUpper "DB_HA_MYSQL" (HACluster config) (Schema config)
       (if IsMaster spec then "_WR_ENDPOINT" else "_RO_ENDPOINT");
     variableName unicodeToUpper "DB_HA_MYSQL" (HACluster config) (Schema config)
       (roleSuffix spec)].

(** A cluster-mode configuration with a required variable unset makes
    [Open] fail. *)
Definition failsOnMissingVariable (unicodeToUpper : string → string)
    (env : gmap string string) (Drivers : list string)
    (sqlOpenErr : string → string → option string) (config : Config) : Prop :=
  DSN config = "" →
  (∃ spec key, spec ∈ Connections config ∧
     key ∈ requiredVariables unicodeToUpper config spec ∧ env !! key = None) →
  ∃ e, (Open unicodeToUpper env Drivers sqlOpenErr config []).2 = Err e.

(** *** Further configurations and drivers for the instances *)
Module MoreFixtures.
Import Tests.

(** A driver that rejects the connection strings that contain "refused". *)
Definition refusingOpenErr (driver dsn : string) : option string :=
  if contains dsn "refused" then Some "sql: refused" else None.

(** Three master specs; the parameters of the second make the driver above
    reject its connection string. *)
Definition configSecondRefused : Config :=
  mkConfig "" "desaenv08" "" "bar"
    [conn "a" true false ""; conn "b" true false "refused"; conn "c" true false ""].

Definition configThreeDirect : Config :=
  mkConfig "root:password@tcp(localhost:3306)/foo" "" "" ""
    [conn "foo" false false ""; conn "bar" false false ""; conn "baz" false false ""].
End MoreFixtures.

(** * Properties *)

(** ** Strings *)

Lemma string_app_assoc (a b c : string) : (a +:+ b) +:+ c = a +:+ b +:+ c.
Proof. induction a as [|x a IH]; [done|]. exact (f_equal (String x) IH). Qed.

Lemma string_app_empty_r (a : string) : a +:+ "" = a.
Proof. induction a as [|x a IH]; [done|]. exact (f_equal (String x) IH). Qed.

Lemma string_app_length (a b : string) :
  String.length (a +:+ b) = (String.length a + String.length b)%nat.
Proof. induction a as [|x a IH]; [done|]. exact (f_equal S IH). Qed.

(** ** Resolution: the source composes the string the specification words *)
Section ResolutionFacts.
Variable unicodeToUpper : string → string.
Variable env : gmap string string.
Variable Drivers : list string.
Variable sqlOpenErr : string → string → option string.

Local Abbreviation openDSN' := (openDSN Drivers sqlOpenErr).
Local Abbreviation openMySQL' := (openMySQL unicodeToUpper env Drivers sqlOpenErr).
Local Abbreviation openMySQLHA' := (openMySQLHA unicodeToUpper env Drivers sqlOpenErr).
Local Abbreviation openConnection' := (openConnection unicodeToUpper env Drivers sqlOpenErr).
Local Abbreviation singleClusterDSN' := (singleClusterDSN unicodeToUpper env).
Local Abbreviation haClusterDSN' := (haClusterDSN unicodeToUpper env).
Local Abbreviation connectionString' := (connectionString unicodeToUpper env).

Lemma openMySQL_singleClusterDSN cluster schema spec :
  openMySQL' cluster schema spec = openDSN' (singleClusterDSN' cluster schema spec).
Proof.
  unfold openMySQL, singleClusterDSN, composeDSN, variableName, roleSuffix.
  destruct (IsMaster spec), (IsReadOnly spec); simpl;
    repeat case_decide; try congruence; simpl;
    rewrite ?string_app_assoc, ?string_app_empty_r; reflexivity.
Qed.

Lemma openMySQLHA_haClusterDSN cluster schema spec :
  openMySQLHA' cluster schema spec = openDSN' (haClusterDSN' cluster schema spec).
Proof.
  unfold openMySQLHA, haClusterDSN, composeDSN, variableName, roleSuffix.
  destruct (IsMaster spec), (IsReadOnly spec); simpl;
    repeat case_decide; try congruence; simpl;
    rewrite ?string_app_assoc, ?string_app_empty_r; reflexivity.
Qed.

Lemma openConnection_connectionString config spec :
  hasTopology config →
  openConnection' config spec = openDSN' (connectionString' config spec).
Proof.
  intros Htop. unfold openConnection, connectionString.
  repeat case_decide; try done.
  - apply openMySQL_singleClusterDSN.
  - apply openMySQLHA_haClusterDSN.
  - exfalso. destruct Htop as [?|[?|?]]; done.
Qed.
End ResolutionFacts.

(** ** Validation *)

Lemma validateDuplicateNamesFrom_None seen connections :
  validateDuplicateNamesFrom seen connections = None ↔
  NoDup (Name <$> connections) ∧ ∀ c, c ∈ connections → Name c ∉ seen.
Proof.
  revert seen. induction connections as [|c rest IH]; intros seen; simpl.
  - split; [intros _|done]. split; [constructor|]. intros c Hc. by apply elem_of_nil in Hc.
  - case_decide as Hin.
    + split; [done|]. intros [_ Hseen]. exfalso. apply (Hseen c); [left|done].
    + rewrite IH, NoDup_cons. split.
      * intros [Hnd Hrest]. split; [split; [|done]|].
        -- intros [c' [Heq Hc']]%list_elem_of_fmap. apply (Hrest c' Hc'). set_solver.
        -- intros c' [->|Hc']%elem_of_cons; [done|]. specialize (Hrest c' Hc'). set_solver.
      * intros [[Hc Hnd] Hseen]. split; [done|]. intros c' Hc'.
        assert (Name c' ≠ Name c).
        { intros Heq. apply Hc. rewrite <- Heq. apply list_elem_of_fmap. eauto. }
        assert (Name c' ∉ seen) by (apply Hseen; by right). set_solver.
Qed.

Lemma validateDuplicateNames_None connections :
  validateDuplicateNames connections = None ↔ NoDup (Name <$> connections).
Proof.
  unfold validateDuplicateNames. rewrite validateDuplicateNamesFrom_None.
  split; [by intros [? _]|]. intros ?. split; [done|]. set_solver.
Qed.

(** The reported duplicate is the name of the first spec whose name an
    earlier spec already carries. *)
Lemma validateDuplicateNamesFrom_Some seen connections e :
  validateDuplicateNamesFrom seen connections = Some e →
  ∃ before c after,
    connections = before ++ c :: after ∧ e = ErrDuplicatedName (Name c) ∧
    validateDuplicateNamesFrom seen before = None ∧
    (Name c ∈ seen ∨ Name c ∈ Name <$> before).
Proof.
  revert seen. induction connections as [|c rest IH]; intros seen; simpl; [done|].
  case_decide as Hin.
  - intros [= <-]. exists [], c, rest. simpl. auto.
  - intros (before & c' & after & -> & -> & Hbefore & Hc')%IH.
    exists (c :: before), c', after. simpl. rewrite decide_False by done.
    repeat split; [done|]. rewrite elem_of_cons. set_solver.
Qed.

Lemma validateDuplicateNames_Some connections e :
  validateDuplicateNames connections = Some e →
  ∃ before c after,
    connections = before ++ c :: after ∧ e = ErrDuplicatedName (Name c) ∧
    NoDup (Name <$> before) ∧ Name c ∈ Name <$> before.
Proof.
  intros (before & c & after & ? & ? & Hb & Hc)%validateDuplicateNamesFrom_Some.
  exists before, c, after. apply validateDuplicateNamesFrom_None in Hb as [? _].
  repeat split; [done..|]. set_solver.
Qed.

Lemma isSet_true s : isSet s = true ↔ s ≠ "".
Proof. unfold isSet. rewrite negb_true_iff, bool_decide_eq_false. done. Qed.
Lemma isSet_false s : isSet s = false ↔ s = "".
Proof. unfold isSet. rewrite negb_false_iff, bool_decide_eq_true. done. Qed.

Lemma inv1_cases config :
  inv1 config = true ↔
  (DSN config ≠ "" ∧ Cluster config = "" ∧ HACluster config = "") ∨
  (DSN config = "" ∧ Cluster config ≠ "" ∧ HACluster config = "") ∨
  (DSN config = "" ∧ Cluster config = "" ∧ HACluster config ≠ "").
Proof.
  unfold inv1. rewrite bool_decide_eq_true.
  rewrite <- !isSet_true, <- !isSet_false.
  rewrite !filter_cons, filter_nil.
  destruct (isSet (DSN config)), (isSet (Cluster config)), (isSet (HACluster config));
    repeat case_decide; simpl; naive_solver.
Qed.

Lemma inv1_hasTopology config : inv1 config = true → hasTopology config.
Proof. rewrite inv1_cases. unfold hasTopology. naive_solver. Qed.

Lemma inv3_length config :
  inv3 config = true ↔ length (Connections config) ≠ 0%nat.
Proof.
  unfold inv3. rewrite negb_true_iff, bool_decide_eq_false.
  destruct (Connections config); naive_solver.
Qed.

Lemma inv4_validate config :
  inv4 config = true ↔ validateDuplicateNames (Connections config) = None.
Proof.
  unfold inv4. rewrite bool_decide_eq_true. symmetry. apply validateDuplicateNames_None.
Qed.

(** ** The loop of [Open] *)
Section OpenFacts.
Variable unicodeToUpper : string → string.
Variable env : gmap string string.
Variable Drivers : list string.
Variable sqlOpenErr : string → string → option string.

Local Abbreviation openDSN' := (openDSN Drivers sqlOpenErr).
Local Abbreviation openConnection' := (openConnection unicodeToUpper env Drivers sqlOpenErr).
Local Abbreviation openAll' := (openAll unicodeToUpper env Drivers sqlOpenErr).
Local Abbreviation Open' := (Open unicodeToUpper env Drivers sqlOpenErr).
Local Abbreviation connectionString' := (connectionString unicodeToUpper env).
Local Abbreviation handleOf' := (handleOf unicodeToUpper env Drivers).
Local Abbreviation registerAll' := (registerAll unicodeToUpper env Drivers).
Local Abbreviation accepted' := (accepted unicodeToUpper env Drivers sqlOpenErr).

(** One round of the loop on a spec that passes the role check. *)
Lemma openAll_cons config spec rest dbs log :
  hasTopology config →
  (DSN config = "" → specHasRole spec = true) →
  openAll' config (spec :: rest) dbs log =
    match sqlOpenErr (getDriverName Drivers) (connectionString' config spec) with
    | Some msg => (log ++ [connectionString' config spec], Err (ErrDriver msg))
    | None => openAll' config rest (<[Name spec := handleOf' config spec]> dbs)
                (log ++ [connectionString' config spec])
    end.
Proof.
  intros Htop Hrole. simpl.
  assert (bool_decide (DSN config = "") && (negb (IsMaster spec) && negb (IsReadOnly spec))
          = false) as ->.
  { case_bool_decide as Hdsn; [|done]. specialize (Hrole Hdsn). unfold specHasRole in Hrole.
    simpl. destruct (IsMaster spec), (IsReadOnly spec); done. }
  unfold mbind, IO_bind. rewrite openConnection_connectionString by done.
  unfold openDSN. destruct (sqlOpenErr _ _); done.
Qed.

(** One round of the loop on a cluster-mode spec without a role. *)
Lemma openAll_cons_norole config spec rest dbs log :
  DSN config = "" → specHasRole spec = false →
  openAll' config (spec :: rest) dbs log = (log, Err (ErrReplicaWrite (Name spec))).
Proof.
  intros Hdsn Hrole. simpl. rewrite bool_decide_eq_true_2 by done.
  unfold specHasRole in Hrole. apply orb_false_iff in Hrole as [-> ->]. done.
Qed.

(** When the loop returns a map, every spec was opened, in order, each on
    its connection string, and registered with its pool settings. *)
Lemma openAll_Ok config specs dbs log log' reg :
  hasTopology config →
  openAll' config specs dbs log = (log', Ok reg) →
  log' = log ++ (connectionString' config <$> specs) ∧
  reg = registerAll' config specs dbs ∧
  Forall (accepted' config) specs ∧
  (DSN config = "" → Forall (λ spec, specHasRole spec = true) specs).
Proof.
  intros Htop. revert dbs log.
  induction specs as [|spec rest IH]; intros dbs log Hrun.
  - simpl in Hrun. injection Hrun as <- <-. rewrite app_nil_r. repeat split; constructor.
  - destruct (decide (DSN config = "" ∧ specHasRole spec = false)) as [[Hd Hr]|Hok].
    { by rewrite openAll_cons_norole in Hrun. }
    assert (DSN config = "" → specHasRole spec = true) as Hrole.
    { intros Hd. destruct (specHasRole spec) eqn:?; [done|]. destruct Hok; done. }
    rewrite openAll_cons in Hrun by done.
    destruct (sqlOpenErr _ _) eqn:Hdrv; [done|].
    apply IH in Hrun as (-> & -> & Hacc & Hroles).
    rewrite fmap_cons, <- app_assoc. split; [done|]. split; [done|]. split.
    + constructor; done.
    + intros Hd. constructor; auto.
Qed.

(** Conversely the loop returns the map when every spec passes the role
    check and the driver opens every connection string. *)
Lemma openAll_total config specs dbs log :
  hasTopology config →
  (DSN config = "" → Forall (λ spec, specHasRole spec = true) specs) →
  Forall (accepted' config) specs →
  openAll' config specs dbs log =
    (log ++ (connectionString' config <$> specs), Ok (registerAll' config specs dbs)).
Proof.
  intros Htop. revert dbs log.
  induction specs as [|spec rest IH]; intros dbs log Hroles Hacc.
  - simpl. by rewrite app_nil_r.
  - apply Forall_cons in Hacc as [Hspec Hacc].
    rewrite openAll_cons; [|done|].
    + unfold accepted in Hspec. rewrite Hspec, IH; [|naive_solver eauto using Forall_inv_tail|done].
      by rewrite fmap_cons, <- app_assoc.
    + intros Hd. specialize (Hroles Hd). by apply Forall_cons in Hroles as [? _].
Qed.

(** In a cluster mode the loop stops at the first spec without a role: it
    returns no map, and has opened at most the specs before that one. *)
Lemma openAll_norole config before spec after dbs log :
  hasTopology config →
  DSN config = "" →
  Forall (λ spec, specHasRole spec = true) before →
  specHasRole spec = false →
  ∃ k e,
    openAll' config (before ++ spec :: after) dbs log =
      (log ++ (connectionString' config <$> take k before), Err e) ∧
    (Forall (accepted' config) before →
       k = length before ∧ e = ErrReplicaWrite (Name spec)).
Proof.
  intros Htop Hdsn Hroles Hspec. revert dbs log.
  induction Hroles as [|c before Hc Hroles IH]; intros dbs log.
  - exists 0%nat, (ErrReplicaWrite (Name spec)). simpl app.
    rewrite openAll_cons_norole by done. simpl. by rewrite app_nil_r.
  - rewrite <- app_comm_cons, openAll_cons by done.
    destruct (sqlOpenErr _ _) as [msg|] eqn:Hdrv.
    + exists 1%nat, (ErrDriver msg). simpl. rewrite ?take_0. split; [done|].
      intros [Hacc _]%Forall_cons. unfold accepted in Hacc. congruence.
    + destruct (IH (<[Name c := handleOf' config c]> dbs)
                   (log ++ [connectionString' config c])) as (k & e & Hrun & Hall).
      exists (S k), e. rewrite Hrun. simpl. rewrite <- app_assoc. split; [done|].
      intros [_ Hacc]%Forall_cons. destruct (Hall Hacc) as [-> ->]. done.
Qed.

(** *** The registered map *)

Lemma registerAll_cons config spec rest dbs :
  registerAll' config (spec :: rest) dbs =
  registerAll' config rest (<[Name spec := handleOf' config spec]> dbs).
Proof. reflexivity. Qed.

Lemma registerAll_lookup_inv config specs dbs name h :
  registerAll' config specs dbs !! name = Some h →
  dbs !! name = Some h ∨
  ∃ spec, spec ∈ specs ∧ name = Name spec ∧ h = handleOf' config spec.
Proof.
  revert dbs. induction specs as [|spec rest IH]; intros dbs; [auto|].
  rewrite registerAll_cons. intros [Hdbs|(spec' & ? & ? & ?)]%IH.
  - destruct (decide (Name spec = name)) as [<-|Hne].
    + rewrite lookup_insert_eq in Hdbs. injection Hdbs as <-.
      right. exists spec. split; [left|done].
    + rewrite lookup_insert_ne in Hdbs by done. auto.
  - right. exists spec'. split; [by right|done].
Qed.

Lemma registerAll_lookup_notin config specs dbs name :
  name ∉ Name <$> specs →
  registerAll' config specs dbs !! name = dbs !! name.
Proof.
  revert dbs. induction specs as [|spec rest IH]; intros dbs Hnotin; [done|].
  rewrite fmap_cons, not_elem_of_cons in Hnotin. destruct Hnotin as [Hne Hnotin].
  rewrite registerAll_cons, IH by done. by rewrite lookup_insert_ne.
Qed.

Lemma registerAll_lookup config specs dbs spec :
  NoDup (Name <$> specs) → spec ∈ specs →
  registerAll' config specs dbs !! Name spec = Some (handleOf' config spec).
Proof.
  revert dbs. induction specs as [|c rest IH]; intros dbs Hnd Hin.
  - by apply elem_of_nil in Hin.
  - rewrite fmap_cons in Hnd. apply NoDup_cons in Hnd as [Hc Hnd].
    rewrite registerAll_cons. apply elem_of_cons in Hin as [->|Hin].
    + rewrite registerAll_lookup_notin by done. apply lookup_insert_eq.
    + by apply IH.
Qed.

Lemma registerAll_dom config specs dbs :
  dom (registerAll' config specs dbs) = list_to_set (Name <$> specs) ∪ dom dbs.
Proof.
  revert dbs. induction specs as [|c rest IH]; intros dbs.
  - set_solver.
  - rewrite registerAll_cons, IH, dom_insert_L. set_solver.
Qed.

(** *** The checks that come before the loop *)

Lemma Open_validated config :
  validated config → Open' config = openAll' config (Connections config) ∅.
Proof.
  intros (H1 & H2 & H3 & H4). unfold Open.
  apply inv1_cases in H1. apply inv3_length in H3. apply inv4_validate in H4.
  unfold inv2, clusterMode in H2. apply bool_decide_eq_true in H2.
  rewrite H4.
  assert (DSN config = "" → Schema config ≠ "") as Hs1.
  { intros Hd. apply isSet_true. rewrite H2. apply orb_true_iff.
    rewrite !isSet_true. naive_solver. }
  assert (DSN config ≠ "" → Schema config = "") as Hs2.
  { intros Hd. apply isSet_false. rewrite H2. apply orb_false_iff.
    rewrite !isSet_false. naive_solver. }
  repeat case_decide; naive_solver.
Qed.

Lemma Open_Ok_validated config log log' reg :
  Open' config log = (log', Ok reg) → validated config.
Proof.
  unfold Open, validated. rewrite inv1_cases, inv3_length, inv4_validate.
  unfold inv2, clusterMode. rewrite bool_decide_eq_true.
  repeat case_decide; try done.
  destruct (validateDuplicateNames _) eqn:Hdup; [done|]. intros _.
  assert (isSet (Schema config) = isSet (Cluster config) || isSet (HACluster config)).
  { destruct (isSet (Schema config)) eqn:Hs, (isSet (Cluster config)) eqn:Hc,
      (isSet (HACluster config)) eqn:Hh; try done;
      rewrite ?isSet_true, ?isSet_false in *; naive_solver. }
  repeat split; try done.
  destruct (decide (DSN config = "")), (decide (Cluster config = "")),
    (decide (HACluster config = "")); naive_solver.
Qed.
End OpenFacts.

(** ** The pool setters *)
Lemma SetConnMaxLifetime_spec d db :
  SetConnMaxLifetime d db
  = mkDB (db_driver db) (db_dsn db) (db_calls db ++ [CallSetConnMaxLifetime d])
      (maxIdleCount db) (maxOpen db) (Z.max 0 d) (maxIdleTime db).
Proof.
  unfold SetConnMaxLifetime, withMaxLifetime, logCall. simpl.
  destruct (Z.ltb_spec d 0); f_equal; lia.
Qed.

Lemma SetConnMaxIdleTime_spec d db :
  SetConnMaxIdleTime d db
  = mkDB (db_driver db) (db_dsn db) (db_calls db ++ [CallSetConnMaxIdleTime d])
      (maxIdleCount db) (maxOpen db) (maxLifetime db) (Z.max 0 d).
Proof.
  unfold SetConnMaxIdleTime, withMaxIdleTime, logCall. simpl.
  destruct (Z.ltb_spec d 0); f_equal; lia.
Qed.

(** The idle limit in force is never negative. *)
Lemma maxIdleConnsLocked_nonneg db : 0 ≤ maxIdleConnsLocked db.
Proof.
  unfold maxIdleConnsLocked, defaultMaxIdleConns.
  destruct (Z.eqb_spec (maxIdleCount db) 0); [lia|].
  destruct (Z.ltb_spec (maxIdleCount db) 0); lia.
Qed.

Lemma maxIdleConnsLocked_count driver dsn calls n o l t :
  0 < n → maxIdleConnsLocked (mkDB driver dsn calls n o l t) = n.
Proof.
  intros Hn. unfold maxIdleConnsLocked. simpl.
  destruct (Z.eqb_spec n 0); [lia|]. destruct (Z.ltb_spec n 0); lia.
Qed.

(** [SetMaxIdleConns n] is logged, touches no other limit, and leaves in
    force the limit [n] (none when [n] is not positive), cut down to a
    positive open limit below it. *)
Lemma SetMaxIdleConns_spec n db :
  let db' := SetMaxIdleConns n db in
  db_driver db' = db_driver db ∧ db_dsn db' = db_dsn db ∧
  db_calls db' = db_calls db ++ [CallSetMaxIdleConns n] ∧
  maxOpen db' = maxOpen db ∧ maxLifetime db' = maxLifetime db ∧
  maxIdleTime db' = maxIdleTime db ∧
  maxIdleConnsLocked db' =
    (if (0 <? maxOpen db) && (maxOpen db <? Z.max 0 n) then maxOpen db else Z.max 0 n).
Proof.
  unfold SetMaxIdleConns, withMaxIdleCount, logCall. cbv zeta.
  destruct (Z.ltb_spec 0 n) as [Hn|Hn];
    cbn [db_driver db_dsn db_calls maxIdleCount maxOpen maxLifetime maxIdleTime].
  - rewrite maxIdleConnsLocked_count by done. replace (Z.max 0 n) with n by lia.
    destruct (Z.ltb_spec 0 (maxOpen db)) as [Ho|Ho], (Z.ltb_spec (maxOpen db) n) as [Hlt|Hlt];
      cbn [andb db_driver db_dsn db_calls maxIdleCount maxOpen maxLifetime maxIdleTime];
      repeat split; by rewrite maxIdleConnsLocked_count.
  - replace (Z.max 0 n) with 0 by lia.
    assert (∀ calls,
      maxIdleConnsLocked (mkDB (db_driver db) (db_dsn db) calls (-1) (maxOpen db)
                            (maxLifetime db) (maxIdleTime db)) = 0) as Hnone by done.
    rewrite Hnone.
    destruct (Z.ltb_spec 0 (maxOpen db)) as [Ho|Ho], (Z.ltb_spec (maxOpen db) 0) as [Hlt|Hlt];
      cbn [andb db_driver db_dsn db_calls maxIdleCount maxOpen maxLifetime maxIdleTime];
      try lia; repeat split; apply Hnone.
Qed.

(** [SetMaxOpenConns n] is logged and stores [n] (zero when [n] is
    negative).  When [n] is positive and below the idle limit in force, it
    calls [SetMaxIdleConns n], which is logged too and lowers the idle
    limit to [n]. *)
Lemma SetMaxOpenConns_spec n db :
  let db' := SetMaxOpenConns n db in
  let syncMaxIdle := (0 <? n) && (n <? maxIdleConnsLocked db) in
  db_driver db' = db_driver db ∧ db_dsn db' = db_dsn db ∧
  db_calls db' = db_calls db ++ CallSetMaxOpenConns n ::
                   (if syncMaxIdle then [CallSetMaxIdleConns n] else []) ∧
  maxOpen db' = Z.max 0 n ∧ maxLifetime db' = maxLifetime db ∧
  maxIdleTime db' = maxIdleTime db ∧
  maxIdleConnsLocked db' = (if syncMaxIdle then n else maxIdleConnsLocked db).
Proof.
  unfold SetMaxOpenConns. cbv zeta.
  destruct (Z.ltb_spec n 0) as [Hn|Hn].
  - replace (Z.max 0 n) with 0 by lia.
    destruct (Z.ltb_spec 0 n) as [?|_]; [lia|]. by cbn.
  - replace (Z.max 0 n) with n by lia.
    change (maxOpen (withMaxOpen n (logCall (CallSetMaxOpenConns n) db))) with n.
    change (maxIdleConnsLocked (withMaxOpen n (logCall (CallSetMaxOpenConns n) db)))
      with (maxIdleConnsLocked db).
    destruct ((0 <? n) && (n <? maxIdleConnsLocked db)) eqn:Hsync; [|by cbn].
    apply andb_true_iff in Hsync as [H0 Hlt]. apply Z.ltb_lt in H0, Hlt.
    pose proof (SetMaxIdleConns_spec n (withMaxOpen n (logCall (CallSetMaxOpenConns n) db)))
      as (Hdrv & Hdsn & Hcalls & Hopen & Hlife & Htime & Hidle).
    rewrite Hdrv, Hdsn, Hcalls, Hopen, Hlife, Htime, Hidle.
    cbn [withMaxOpen logCall db_driver db_dsn db_calls maxIdleCount maxOpen
         maxLifetime maxIdleTime].
    rewrite <- app_assoc. repeat split.
    destruct (Z.ltb_spec 0 n), (Z.ltb_spec n (Z.max 0 n)); cbn [andb]; lia.
Qed.

(** The setters, observation by observation. *)
Lemma SetConnMaxLifetime_calls d db :
  db_calls (SetConnMaxLifetime d db) = db_calls db ++ [CallSetConnMaxLifetime d].
Proof. by rewrite SetConnMaxLifetime_spec. Qed.
Lemma SetConnMaxLifetime_maxLifetime d db :
  maxLifetime (SetConnMaxLifetime d db) = Z.max 0 d.
Proof. by rewrite SetConnMaxLifetime_spec. Qed.
Lemma SetConnMaxLifetime_maxIdleTime d db :
  maxIdleTime (SetConnMaxLifetime d db) = maxIdleTime db.
Proof. by rewrite SetConnMaxLifetime_spec. Qed.
Lemma SetConnMaxLifetime_maxOpen d db :
  maxOpen (SetConnMaxLifetime d db) = maxOpen db.
Proof. by rewrite SetConnMaxLifetime_spec. Qed.
Lemma SetConnMaxLifetime_maxIdle d db :
  maxIdleConnsLocked (SetConnMaxLifetime d db) = maxIdleConnsLocked db.
Proof. by rewrite SetConnMaxLifetime_spec. Qed.
Lemma SetConnMaxLifetime_dsn d db : db_dsn (SetConnMaxLifetime d db) = db_dsn db.
Proof. by rewrite SetConnMaxLifetime_spec. Qed.
Lemma SetConnMaxLifetime_driver d db : db_driver (SetConnMaxLifetime d db) = db_driver db.
Proof. by rewrite SetConnMaxLifetime_spec. Qed.

Lemma SetConnMaxIdleTime_calls d db :
  db_calls (SetConnMaxIdleTime d db) = db_calls db ++ [CallSetConnMaxIdleTime d].
Proof. by rewrite SetConnMaxIdleTime_spec. Qed.
Lemma SetConnMaxIdleTime_maxLifetime d db :
  maxLifetime (SetConnMaxIdleTime d db) = maxLifetime db.
Proof. by rewrite SetConnMaxIdleTime_spec. Qed.
Lemma SetConnMaxIdleTime_maxIdleTime d db :
  maxIdleTime (SetConnMaxIdleTime d db) = Z.max 0 d.
Proof. by rewrite SetConnMaxIdleTime_spec. Qed.
Lemma SetConnMaxIdleTime_maxOpen d db :
  maxOpen (SetConnMaxIdleTime d db) = maxOpen db.
Proof. by rewrite SetConnMaxIdleTime_spec. Qed.
Lemma SetConnMaxIdleTime_maxIdle d db :
  maxIdleConnsLocked (SetConnMaxIdleTime d db) = maxIdleConnsLocked db.
Proof. by rewrite SetConnMaxIdleTime_spec. Qed.
Lemma SetConnMaxIdleTime_dsn d db : db_dsn (SetConnMaxIdleTime d db) = db_dsn db.
Proof. by rewrite SetConnMaxIdleTime_spec. Qed.
Lemma SetConnMaxIdleTime_driver d db : db_driver (SetConnMaxIdleTime d db) = db_driver db.
Proof. by rewrite SetConnMaxIdleTime_spec. Qed.

Lemma SetMaxIdleConns_calls n db :
  db_calls (SetMaxIdleConns n db) = db_calls db ++ [CallSetMaxIdleConns n].
Proof. apply SetMaxIdleConns_spec. Qed.
Lemma SetMaxIdleConns_maxLifetime n db :
  maxLifetime (SetMaxIdleConns n db) = maxLifetime db.
Proof. apply SetMaxIdleConns_spec. Qed.
Lemma SetMaxIdleConns_maxIdleTime n db :
  maxIdleTime (SetMaxIdleConns n db) = maxIdleTime db.
Proof. apply SetMaxIdleConns_spec. Qed.
Lemma SetMaxIdleConns_maxOpen n db : maxOpen (SetMaxIdleConns n db) = maxOpen db.
Proof. apply SetMaxIdleConns_spec. Qed.
Lemma SetMaxIdleConns_maxIdle n db :
  maxIdleConnsLocked (SetMaxIdleConns n db) =
    (if (0 <? maxOpen db) && (maxOpen db <? Z.max 0 n) then maxOpen db else Z.max 0 n).
Proof. apply SetMaxIdleConns_spec. Qed.
Lemma SetMaxIdleConns_dsn n db : db_dsn (SetMaxIdleConns n db) = db_dsn db.
Proof. apply SetMaxIdleConns_spec. Qed.
Lemma SetMaxIdleConns_driver n db : db_driver (SetMaxIdleConns n db) = db_driver db.
Proof. apply SetMaxIdleConns_spec. Qed.

Lemma SetMaxOpenConns_calls n db :
  db_calls (SetMaxOpenConns n db) =
    db_calls db ++ CallSetMaxOpenConns n ::
      (if (0 <? n) && (n <? maxIdleConnsLocked db) then [CallSetMaxIdleConns n] else []).
Proof. apply SetMaxOpenConns_spec. Qed.
Lemma SetMaxOpenConns_maxLifetime n db :
  maxLifetime (SetMaxOpenConns n db) = maxLifetime db.
Proof. apply SetMaxOpenConns_spec. Qed.
Lemma SetMaxOpenConns_maxIdleTime n db :
  maxIdleTime (SetMaxOpenConns n db) = maxIdleTime db.
Proof. apply SetMaxOpenConns_spec. Qed.
Lemma SetMaxOpenConns_maxOpen n db : maxOpen (SetMaxOpenConns n db) = Z.max 0 n.
Proof. apply SetMaxOpenConns_spec. Qed.
Lemma SetMaxOpenConns_maxIdle n db :
  maxIdleConnsLocked (SetMaxOpenConns n db) =
    (if (0 <? n) && (n <? maxIdleConnsLocked db) then n else maxIdleConnsLocked db).
Proof. apply SetMaxOpenConns_spec. Qed.
Lemma SetMaxOpenConns_dsn n db : db_dsn (SetMaxOpenConns n db) = db_dsn db.
Proof. apply SetMaxOpenConns_spec. Qed.
Lemma SetMaxOpenConns_driver n db : db_driver (SetMaxOpenConns n db) = db_driver db.
Proof. apply SetMaxOpenConns_spec. Qed.

Create Rewrite HintDb pool.
#[export] Hint Rewrite
  SetConnMaxLifetime_calls SetConnMaxLifetime_maxLifetime SetConnMaxLifetime_maxIdleTime
  SetConnMaxLifetime_maxOpen SetConnMaxLifetime_maxIdle SetConnMaxLifetime_dsn
  SetConnMaxLifetime_driver
  SetConnMaxIdleTime_calls SetConnMaxIdleTime_maxLifetime SetConnMaxIdleTime_maxIdleTime
  SetConnMaxIdleTime_maxOpen SetConnMaxIdleTime_maxIdle SetConnMaxIdleTime_dsn
  SetConnMaxIdleTime_driver
  SetMaxIdleConns_calls SetMaxIdleConns_maxLifetime SetMaxIdleConns_maxIdleTime
  SetMaxIdleConns_maxOpen SetMaxIdleConns_maxIdle SetMaxIdleConns_dsn SetMaxIdleConns_driver
  SetMaxOpenConns_calls SetMaxOpenConns_maxLifetime SetMaxOpenConns_maxIdleTime
  SetMaxOpenConns_maxOpen SetMaxOpenConns_maxIdle SetMaxOpenConns_dsn SetMaxOpenConns_driver
  : pool.

Lemma applyPool_dsn pool db : db_dsn (applyPool pool db) = db_dsn db.
Proof.
  unfold applyPool. destruct pool as [[a|] [b|] [c|] [d|]]; cbv zeta;
    cbn [ConnMaxLifetime MaxIdleConnections MaxOpenConnections ConnMaxIdleTime];
    autorewrite with pool; reflexivity.
Qed.

Lemma applyPool_driver pool db : db_driver (applyPool pool db) = db_driver db.
Proof.
  unfold applyPool. destruct pool as [[a|] [b|] [c|] [d|]]; cbv zeta;
    cbn [ConnMaxLifetime MaxIdleConnections MaxOpenConnections ConnMaxIdleTime];
    autorewrite with pool; reflexivity.
Qed.

(** ** What [Open] returns *)
Section OpenResults.
Variable unicodeToUpper : string → string.
Variable env : gmap string string.
Variable Drivers : list string.
Variable sqlOpenErr : string → string → option string.

Local Abbreviation openMySQL' := (openMySQL unicodeToUpper env Drivers sqlOpenErr).
Local Abbreviation openMySQLHA' := (openMySQLHA unicodeToUpper env Drivers sqlOpenErr).
Local Abbreviation openDSN' := (openDSN Drivers sqlOpenErr).
Local Abbreviation connectionString' := (connectionString unicodeToUpper env).
Local Abbreviation singleClusterDSN' := (singleClusterDSN unicodeToUpper env).
Local Abbreviation haClusterDSN' := (haClusterDSN unicodeToUpper env).
Local Abbreviation handleOf' := (handleOf unicodeToUpper env Drivers).
Local Abbreviation registerAll' := (registerAll unicodeToUpper env Drivers).
Local Abbreviation accepted' := (accepted unicodeToUpper env Drivers sqlOpenErr).

Lemma Open_Ok config log log' reg :
  Open unicodeToUpper env Drivers sqlOpenErr config log = (log', Ok reg) →
  validated config ∧
  log' = log ++ (connectionString' config <$> Connections config) ∧
  reg = registerAll' config (Connections config) ∅ ∧
  Forall (accepted' config) (Connections config) ∧
  (DSN config = "" → Forall (λ spec, specHasRole spec = true) (Connections config)).
Proof.
  intros Hrun. pose proof (Open_Ok_validated _ _ _ _ _ _ _ _ Hrun) as Hval.
  split; [done|]. rewrite Open_validated in Hrun by done.
  eapply openAll_Ok; [|done]. apply inv1_hasTopology, Hval.
Qed.

Lemma Open_total config log :
  validated config →
  (DSN config = "" → Forall (λ spec, specHasRole spec = true) (Connections config)) →
  Forall (accepted' config) (Connections config) →
  Open unicodeToUpper env Drivers sqlOpenErr config log =
    (log ++ (connectionString' config <$> Connections config),
     Ok (registerAll' config (Connections config) ∅)).
Proof.
  intros Hval Hroles Hacc. rewrite Open_validated by done.
  apply openAll_total; [|done..]. apply inv1_hasTopology, Hval.
Qed.

Lemma Open_Ok_lookup config log log' reg spec :
  Open unicodeToUpper env Drivers sqlOpenErr config log = (log', Ok reg) → spec ∈ Connections config →
  reg !! Name spec = Some (handleOf' config spec).
Proof.
  intros (Hval & _ & -> & _)%Open_Ok Hin.
  apply registerAll_lookup; [|done].
  destruct Hval as (_ & _ & _ & H4). by apply bool_decide_eq_true in H4.
Qed.

Lemma Open_Ok_lookup_inv config log log' reg name h :
  Open unicodeToUpper env Drivers sqlOpenErr config log = (log', Ok reg) → reg !! name = Some h →
  ∃ spec, spec ∈ Connections config ∧ name = Name spec ∧ h = handleOf' config spec.
Proof.
  intros (_ & _ & -> & _)%Open_Ok [Hempty|?]%registerAll_lookup_inv; [|done].
  by rewrite lookup_empty in Hempty.
Qed.

Lemma handleOf_dsn config spec :
  db_dsn (handleOf' config spec) = connectionString' config spec.
Proof. unfold handleOf. by rewrite applyPool_dsn. Qed.

Lemma connectionString_single config spec :
  DSN config = "" → Cluster config ≠ "" →
  connectionString' config spec = singleClusterDSN' (Cluster config) (Schema config) spec.
Proof. intros Hd Hc. unfold connectionString. by rewrite decide_False, decide_True by auto. Qed.

Lemma connectionString_ha config spec :
  DSN config = "" → Cluster config = "" →
  connectionString' config spec = haClusterDSN' (HACluster config) (Schema config) spec.
Proof. intros Hd Hc. unfold connectionString. by rewrite !decide_False by auto. Qed.

Lemma connectionString_direct config spec :
  DSN config ≠ "" → connectionString' config spec = DSN config.
Proof. intros Hd. unfold connectionString. by rewrite decide_True. Qed.

(** C1. In singleCluster mode [openMySQL] hands to [sql.Open] the string
    [username:password@tcp(host)/schema], with [?parameters] appended exactly
    when the parameters are non-empty; the host is read from
    [DB_MYSQL_{CLUSTER}_{SCHEMA}_{SCHEMA}_ENDPOINT] for a master and from
    [..._LOCAL_REPLICA_ENDPOINT] otherwise, the user name is [{schema}_RPROD]
    for a read-only spec and [{schema}_WPROD] otherwise, and the password is
    read from the variable with the same suffix.  When [Open] returns a
    registry, the handle under each spec's name carries that string.  For
    cluster "desaenv08", schema "bar" and a master spec, with the endpoint
    variable set to "localhost:3306" and the WPROD variable to "password",
    the string is [bar_WPROD:password@tcp(localhost:3306)/bar?<parameters>]. *)
Theorem single_cluster_connection_string config spec log log' reg :
  DSN config = "" → Cluster config ≠ "" →
  Open unicodeToUpper env Drivers sqlOpenErr config log = (log', Ok reg) →
  spec ∈ Connections config →
  let cluster := ToUpper unicodeToUpper (Cluster config) in
  let schema := ToUpper unicodeToUpper (Schema config) in
  let stem := "DB_MYSQL_" +:+ cluster +:+ "_" +:+ schema +:+ "_" +:+ schema in
  let host := Getenv env (stem +:+ (if IsMaster spec then "_ENDPOINT"
                                    else "_LOCAL_REPLICA_ENDPOINT")) in
  let username := Schema config +:+ (if IsReadOnly spec then "_RPROD" else "_WPROD") in
  let password := Getenv env (stem +:+ (if IsReadOnly spec then "_RPROD" else "_WPROD")) in
  let base := username +:+ ":" +:+ password +:+ "@tcp(" +:+ host +:+ ")/" +:+ Schema config in
  let dsn := if decide (Parameters spec = "") then base
             else base +:+ "?" +:+ Parameters spec in
  openMySQL' (Cluster config) (Schema config) spec = openDSN' dsn ∧
  log' = log ++ (singleClusterDSN' (Cluster config) (Schema config) <$> Connections config) ∧
  singleClusterDSN' (Cluster config) (Schema config) spec = dsn ∧
  (∃ h, reg !! Name spec = Some h ∧ db_dsn h = dsn) ∧
  (Cluster config = "desaenv08" → Schema config = "bar" →
   IsMaster spec = true → IsReadOnly spec = false → Parameters spec ≠ "" →
   env !! "DB_MYSQL_DESAENV08_BAR_BAR_ENDPOINT" = Some "localhost:3306" →
   env !! "DB_MYSQL_DESAENV08_BAR_BAR_WPROD" = Some "password" →
   dsn = "bar_WPROD:password@tcp(localhost:3306)/bar?" +:+ Parameters spec).
Proof.
  intros Hd Hc Hrun Hin cluster schema stem host username password base dsn.
  assert (singleClusterDSN' (Cluster config) (Schema config) spec = dsn) as Hdsn.
  { unfold singleClusterDSN, composeDSN, variableName, roleSuffix.
    subst dsn base password username host stem schema cluster.
    destruct (IsMaster spec), (IsReadOnly spec); case_decide;
      rewrite ?string_app_assoc, ?string_app_empty_r; reflexivity. }
  split; [by rewrite openMySQL_singleClusterDSN, Hdsn|].
  split.
  { apply Open_Ok in Hrun as (_ & -> & _). f_equal. apply list_fmap_ext.
    intros _ c _. by apply connectionString_single. }
  split; [done|]. split.
  { exists (handleOf' config spec). split; [by eapply Open_Ok_lookup|].
    by rewrite handleOf_dsn, connectionString_single. }
  intros Hcl Hsc Hm Hro Hp He Hw.
  subst dsn base password username host stem schema cluster.
  rewrite Hcl, Hsc, Hm, Hro, decide_False by done.
  change (ToUpper unicodeToUpper "desaenv08") with "DESAENV08".
  change (ToUpper unicodeToUpper "bar") with "BAR".
  unfold Getenv.
  change ("DB_MYSQL_" +:+ "DESAENV08" +:+ "_" +:+ "BAR" +:+ "_" +:+ "BAR")
    with "DB_MYSQL_DESAENV08_BAR_BAR".
  change ("DB_MYSQL_DESAENV08_BAR_BAR" +:+ "_ENDPOINT")
    with "DB_MYSQL_DESAENV08_BAR_BAR_ENDPOINT".
  change ("DB_MYSQL_DESAENV08_BAR_BAR" +:+ "_WPROD")
    with "DB_MYSQL_DESAENV08_BAR_BAR_WPROD".
  rewrite He, Hw. reflexivity.
Qed.

(** C5. In haCluster mode [openMySQLHA] reads the host from
    [DB_HA_MYSQL_{CLUSTER}_{SCHEMA}_{SCHEMA}_WR_ENDPOINT] for a master and
    from [..._RO_ENDPOINT] otherwise; for a read-only spec the user name is
    [{schema}_RPROD] and the password is read from the [..._RPROD] variable
    (WPROD for the others); the string is composed as in single-cluster
    mode, and is the one every handle of the returned registry carries. *)
Theorem ha_cluster_connection_string config spec log log' reg :
  DSN config = "" → Cluster config = "" →
  Open unicodeToUpper env Drivers sqlOpenErr config log = (log', Ok reg) →
  spec ∈ Connections config →
  let cluster := ToUpper unicodeToUpper (HACluster config) in
  let schema := ToUpper unicodeToUpper (Schema config) in
  let stem := "DB_HA_MYSQL_" +:+ cluster +:+ "_" +:+ schema +:+ "_" +:+ schema in
  let host := Getenv env (stem +:+ (if IsMaster spec then "_WR_ENDPOINT"
                                    else "_RO_ENDPOINT")) in
  let username := Schema config +:+ (if IsReadOnly spec then "_RPROD" else "_WPROD") in
  let password := Getenv env (stem +:+ (if IsReadOnly spec then "_RPROD" else "_WPROD")) in
  let base := username +:+ ":" +:+ password +:+ "@tcp(" +:+ host +:+ ")/" +:+ Schema config in
  let dsn := if decide (Parameters spec = "") then base
             else base +:+ "?" +:+ Parameters spec in
  HACluster config ≠ "" ∧
  openMySQLHA' (HACluster config) (Schema config) spec = openDSN' dsn ∧
  log' = log ++ (haClusterDSN' (HACluster config) (Schema config) <$> Connections config) ∧
  haClusterDSN' (HACluster config) (Schema config) spec = dsn ∧
  (∃ h, reg !! Name spec = Some h ∧ db_dsn h = dsn) ∧
  (IsReadOnly spec = true →
   username = Schema config +:+ "_RPROD" ∧ password = Getenv env (stem +:+ "_RPROD")) ∧
  (IsMaster spec = false → host = Getenv env (stem +:+ "_RO_ENDPOINT")).
Proof.
  intros Hd Hc Hrun Hin cluster schema stem host username password base dsn.
  assert (haClusterDSN' (HACluster config) (Schema config) spec = dsn) as Hdsn.
  { unfold haClusterDSN, composeDSN, variableName, roleSuffix.
    subst dsn base password username host stem schema cluster.
    destruct (IsMaster spec), (IsReadOnly spec); case_decide;
      rewrite ?string_app_assoc, ?string_app_empty_r; reflexivity. }
  split.
  { apply Open_Ok in Hrun as (Hval & _). destruct Hval as (H1 & _).
    apply inv1_cases in H1. naive_solver. }
  split; [by rewrite openMySQLHA_haClusterDSN, Hdsn|].
  split.
  { apply Open_Ok in Hrun as (_ & -> & _). f_equal. apply list_fmap_ext.
    intros _ c _. by apply connectionString_ha. }
  split; [done|]. split.
  { exists (handleOf' config spec). split; [by eapply Open_Ok_lookup|].
    by rewrite handleOf_dsn, connectionString_ha. }
  subst username password host. split.
  - intros ->. done.
  - intros ->. done.
Qed.

(** C6. In direct mode every handle of the returned registry carries the
    configured DSN, unchanged, whatever the [Parameters] of the specs; the
    strings handed to [sql.Open] are the DSN, once per spec. *)
Theorem direct_dsn_verbatim config log log' reg :
  DSN config ≠ "" →
  Open unicodeToUpper env Drivers sqlOpenErr config log = (log', Ok reg) →
  log' = log ++ replicate (length (Connections config)) (DSN config) ∧
  (∀ spec, spec ∈ Connections config →
     ∃ h, reg !! Name spec = Some h ∧ db_dsn h = DSN config) ∧
  (∀ name h, reg !! name = Some h → db_dsn h = DSN config).
Proof.
  intros Hd Hrun. split; [|split].
  - apply Open_Ok in Hrun as (_ & -> & _). f_equal.
    induction (Connections config) as [|c l IHl]; [done|].
    rewrite fmap_cons, IHl, connectionString_direct by done. reflexivity.
  - intros spec Hin. exists (handleOf' config spec).
    split; [by eapply Open_Ok_lookup|]. by rewrite handleOf_dsn, connectionString_direct.
  - intros name h Hh.
    destruct (Open_Ok_lookup_inv _ _ _ _ _ _ Hrun Hh) as (spec & _ & _ & ->).
    by rewrite handleOf_dsn, connectionString_direct.
Qed.

(** C8, as the source and [database/sql] do it.  On the handle registered
    for a spec, [Open] has called each of the four pool setters exactly when
    the spec's field is present (non-nil), once, with the field's value and
    in the order of the source.  The only other call the handle receives is the [SetMaxIdleConns] that
    [SetMaxOpenConns] makes when the open count is positive and below the
    idle limit then in force.  A present setting is stored with the
    setter's normalisation (a negative value as none).  An absent maximum
    lifetime, open count or idle time keeps the value of a fresh handle; an
    absent idle count keeps the default of two idle connections unless the
    open count is present and is one, and then the idle limit is one: it is
    never zero. *)
Theorem pool_settings_applied config log log' reg spec :
  Open unicodeToUpper env Drivers sqlOpenErr config log = (log', Ok reg) →
  spec ∈ Connections config →
  ∃ h, reg !! Name spec = Some h ∧
    let pool := connection_pool spec in
    let fresh := newDB (getDriverName Drivers)
                   (connectionString unicodeToUpper env config spec) in
    let idle := match MaxIdleConnections pool with
                | Some n => Z.max 0 n
                | None => maxIdleConnsLocked fresh
                end in
    (∀ d, CallSetConnMaxLifetime d ∈ db_calls h ↔ ConnMaxLifetime pool = Some d) ∧
    (∀ n, CallSetMaxOpenConns n ∈ db_calls h ↔ MaxOpenConnections pool = Some n) ∧
    (∀ d, CallSetConnMaxIdleTime d ∈ db_calls h ↔ ConnMaxIdleTime pool = Some d) ∧
    (∀ n, CallSetMaxIdleConns n ∈ db_calls h ↔
          MaxIdleConnections pool = Some n ∨
          (MaxOpenConnections pool = Some n ∧ 0 < n < idle)) ∧
    db_calls h =
      from_option (λ d, [CallSetConnMaxLifetime d]) [] (ConnMaxLifetime pool) ++
      from_option (λ n, [CallSetMaxIdleConns n]) [] (MaxIdleConnections pool) ++
      from_option (λ n, CallSetMaxOpenConns n ::
                          (if (0 <? n) && (n <? idle) then [CallSetMaxIdleConns n] else []))
        [] (MaxOpenConnections pool) ++
      from_option (λ d, [CallSetConnMaxIdleTime d]) [] (ConnMaxIdleTime pool) ∧
    (pool = noPool → h = fresh) ∧
    maxLifetime h = match ConnMaxLifetime pool with
                    | Some d => Z.max 0 d
                    | None => maxLifetime fresh
                    end ∧
    maxOpen h = match MaxOpenConnections pool with
                | Some n => Z.max 0 n
                | None => maxOpen fresh
                end ∧
    maxIdleTime h = match ConnMaxIdleTime pool with
                    | Some d => Z.max 0 d
                    | None => maxIdleTime fresh
                    end ∧
    maxIdleConnsLocked h = match MaxOpenConnections pool with
                           | Some n => if (0 <? n) && (n <? idle) then n else idle
                           | None => idle
                           end ∧
    (MaxIdleConnections pool = None →
       maxIdleConnsLocked h =
         (if decide (MaxOpenConnections pool = Some 1) then 1 else defaultMaxIdleConns) ∧
       0 < maxIdleConnsLocked h).
Proof.
  intros Hrun Hin. exists (handleOf' config spec).
  split; [by eapply Open_Ok_lookup|]. unfold handleOf.
  set (fresh := newDB _ _).
  assert (db_calls fresh = []) as Hcalls by done.
  assert (maxIdleConnsLocked fresh = 2) as Hidle by done.
  assert (maxOpen fresh = 0) as Hopen by done.
  assert (maxLifetime fresh = 0) as Hlife by done.
  assert (maxIdleTime fresh = 0) as Htime by done.
  assert (∀ n, (0 <? 0) && (0 <? Z.max 0 n) = false) as Hcut by done.
  unfold applyPool.
  destruct (connection_pool spec) as [[a|] [b|] [c|] [d|]];
    cbv zeta;
    cbn [ConnMaxLifetime MaxIdleConnections MaxOpenConnections ConnMaxIdleTime];
    autorewrite with pool; rewrite ?Hcalls, ?Hidle, ?Hopen, ?Hlife, ?Htime, ?Hcut; simpl;
    (repeat match goal with
       | |- context [?x <? ?y] => destruct (Z.ltb_spec x y)
       end);
    cbn [andb app];
    (do 4 (split; [intros x; rewrite ?elem_of_cons, ?elem_of_nil; naive_solver lia|]));
    (repeat split; try done; try lia;
     try (case_decide as Hc; simplify_eq; unfold defaultMaxIdleConns;
          first [done | lia | exfalso; apply Hc; f_equal; lia])).
Qed.

(** C10. In direct mode the check that rejects a spec which is neither
    master nor read-only is not applied: [Open] never returns that error,
    and a configuration that passes the first four checks is opened whatever
    the two flags of its specs. *)
Theorem direct_mode_skips_role_check config log :
  DSN config ≠ "" →
  (∀ name, (Open unicodeToUpper env Drivers sqlOpenErr config log).2 ≠ Err (ErrReplicaWrite name)) ∧
  (validated config → Forall (accepted' config) (Connections config) →
   ∃ reg, (Open unicodeToUpper env Drivers sqlOpenErr config log).2 = Ok reg ∧
     ∀ spec, spec ∈ Connections config → is_Some (reg !! Name spec)).
Proof.
  intros Hd. split.
  - assert (hasTopology config) as Htop by (left; done).
    assert (∀ name specs dbs log0,
      (openAll unicodeToUpper env Drivers sqlOpenErr config specs dbs log0).2
        ≠ Err (ErrReplicaWrite name)) as Hloop.
    { intros name specs. induction specs as [|c l IHl]; intros dbs log0; [done|].
      rewrite openAll_cons by done. destruct (sqlOpenErr _ _); [done|]. apply IHl. }
    intros name. unfold Open.
    destruct (validateDuplicateNames _) as [e|] eqn:Hdup.
    { apply validateDuplicateNames_Some in Hdup as (? & ? & ? & _ & -> & _).
      repeat case_decide; done. }
    repeat case_decide; try done; apply Hloop.
  - intros Hval Hacc. rewrite Open_total by done. eexists. split; [done|].
    intros spec Hin. rewrite registerAll_lookup; [done| |done].
    destruct Hval as (_ & _ & _ & H4). by apply bool_decide_eq_true in H4.
Qed.

(** *** The four checks before the loop, one by one *)

Lemma Open_inv1_violated config log :
  inv1 config = false →
  ∃ e, Open unicodeToUpper env Drivers sqlOpenErr config log = (log, Err e) ∧ invariantOf e = Some 1%nat.
Proof.
  intros H1. apply not_true_iff_false in H1. rewrite inv1_cases in H1.
  unfold Open.
  destruct (decide (DSN config = "")), (decide (Cluster config = "")),
    (decide (HACluster config = ""));
    repeat case_decide; try (exfalso; tauto);
    (eexists; split; [reflexivity|reflexivity]).
Qed.

Lemma Open_inv2_violated config log :
  inv1 config = true → inv2 config = false →
  ∃ e, Open unicodeToUpper env Drivers sqlOpenErr config log = (log, Err e) ∧ invariantOf e = Some 2%nat.
Proof.
  intros H1 H2. apply inv1_cases in H1.
  unfold inv2, clusterMode in H2. apply bool_decide_eq_false in H2.
  unfold Open.
  destruct (isSet (Schema config)) eqn:Hs, (isSet (Cluster config)) eqn:Hc,
    (isSet (HACluster config)) eqn:Hh; try done;
    rewrite ?isSet_true, ?isSet_false in *;
    repeat case_decide; try (exfalso; tauto);
    (eexists; split; [reflexivity|reflexivity]).
Qed.

Lemma Open_inv3_violated config log :
  inv1 config = true → inv2 config = true → inv3 config = false →
  Open unicodeToUpper env Drivers sqlOpenErr config log = (log, Err ErrNoConnections).
Proof.
  intros H1 H2 H3. apply inv1_cases in H1.
  unfold inv2, clusterMode in H2. apply bool_decide_eq_true in H2.
  apply not_true_iff_false in H3. rewrite inv3_length in H3.
  unfold Open.
  destruct (isSet (Schema config)) eqn:Hs, (isSet (Cluster config)) eqn:Hc,
    (isSet (HACluster config)) eqn:Hh; try done;
    rewrite ?isSet_true, ?isSet_false in *;
    repeat case_decide; try (exfalso; tauto); reflexivity.
Qed.

Lemma Open_inv4_violated config log :
  inv1 config = true → inv2 config = true → inv3 config = true → inv4 config = false →
  ∃ before c after,
    Connections config = before ++ c :: after ∧
    NoDup (Name <$> before) ∧ Name c ∈ Name <$> before ∧
    Open unicodeToUpper env Drivers sqlOpenErr config log = (log, Err (ErrDuplicatedName (Name c))).
Proof.
  intros H1 H2 H3 H4. apply inv1_cases in H1.
  unfold inv2, clusterMode in H2. apply bool_decide_eq_true in H2.
  apply inv3_length in H3.
  apply not_true_iff_false in H4. rewrite inv4_validate in H4.
  destruct (validateDuplicateNames (Connections config)) as [e|] eqn:Hdup; [|done].
  destruct (validateDuplicateNames_Some _ _ Hdup) as (before & c & after & Hl & -> & Hnd & Hc).
  exists before, c, after. repeat split; [done..|].
  unfold Open. rewrite Hdup.
  destruct (isSet (Schema config)) eqn:Hs, (isSet (Cluster config)) eqn:Hcl,
    (isSet (HACluster config)) eqn:Hh; try done;
    rewrite ?isSet_true, ?isSet_false in *;
    repeat case_decide; try (exfalso; tauto); reflexivity.
Qed.

(** C3. A configuration that violates more than one of the five invariants
    is rejected by the checks at the head of [Open], before any call of
    [sql.Open], with the error of the first violated invariant in the order
    1 to 5; for duplicated names the error carries the name of the first spec
    whose name an earlier spec already has. *)
Theorem validation_reports_first_violation config log :
  (2 ≤ violations config)%nat →
  ∃ i e,
    firstViolated config = Some i ∧
    Open unicodeToUpper env Drivers sqlOpenErr config log = (log, Err e) ∧
    invariantOf e = Some i ∧ isConfigError e = true ∧
    (i = 4%nat →
       ∃ before c after,
         Connections config = before ++ c :: after ∧
         NoDup (Name <$> before) ∧ Name c ∈ Name <$> before ∧
         e = ErrDuplicatedName (Name c)).
Proof.
  intros Hmany. unfold violations, firstViolated, invariants in *.
  destruct (inv1 config) eqn:H1.
  2:{ destruct (Open_inv1_violated config log H1) as (e & Hrun & He).
      exists 1%nat, e. unfold isConfigError. rewrite He. by repeat split. }
  destruct (inv2 config) eqn:H2.
  2:{ destruct (Open_inv2_violated config log H1 H2) as (e & Hrun & He).
      exists 2%nat, e. unfold isConfigError. rewrite He. by repeat split. }
  destruct (inv3 config) eqn:H3.
  2:{ exists 3%nat, ErrNoConnections. rewrite Open_inv3_violated by done.
      by repeat split. }
  destruct (inv4 config) eqn:H4.
  2:{ destruct (Open_inv4_violated config log H1 H2 H3 H4)
        as (before & c & after & Hl & Hnd & Hc & Hrun).
      exists 4%nat, (ErrDuplicatedName (Name c)). repeat split; [done..|].
      intros _. exists before, c, after. done. }
  exfalso. destruct (inv5 config); vm_compute in Hmany; lia.
Qed.

(** *** No registry for a configuration that violates an invariant *)

Lemma forallb_false_split {A} (f : A → bool) (l : list A) :
  forallb f l = false →
  ∃ before x after,
    l = before ++ x :: after ∧ f x = false ∧ Forall (λ y, f y = true) before.
Proof.
  induction l as [|a l IH]; simpl; [done|].
  destruct (f a) eqn:Ha; simpl.
  - intros (before & x & after & -> & Hx & Hb)%IH.
    exists (a :: before), x, after. repeat split; [done|]. by constructor.
  - intros _. exists [], a, l. repeat split; [done|]. constructor.
Qed.

Lemma forallb_Forall_true {A} (f : A → bool) (l : list A) :
  forallb f l = true ↔ Forall (λ y, f y = true) l.
Proof.
  induction l as [|a l IH]; simpl; [by split; [constructor|]|].
  rewrite andb_true_iff, Forall_cons, IH. done.
Qed.

Lemma Open_Ok_no_violation config log log' reg :
  Open unicodeToUpper env Drivers sqlOpenErr config log = (log', Ok reg) → violations config = 0%nat.
Proof.
  intros (Hval & _ & _ & _ & Hroles)%Open_Ok.
  destruct Hval as (H1 & H2 & H3 & H4).
  assert (inv5 config = true) as H5.
  { unfold inv5, clusterMode. pose proof H1 as Hc. apply inv1_cases in Hc.
    destruct (decide (DSN config = "")) as [Hd|Hd].
    - apply orb_true_iff. right. apply forallb_Forall_true, Hroles, Hd.
    - destruct Hc as [(_ & -> & ->)|[(? & _)|(? & _)]]; done. }
  unfold violations, invariants. by rewrite H1, H2, H3, H4, H5.
Qed.

(** C4, as the source does it.  A configuration that violates an invariant
    never yields a registry.  When one of the invariants 1 to 4 is violated,
    [Open] returns the ConfigError of the first of them without calling
    [sql.Open]; duplicated names are named by that error when the invariants
    1 to 3 hold.  When only invariant 5 is violated, the specs before the
    first spec without a role are opened first, that spec and the later ones
    are not, and the error is that spec's ConfigError when the driver opened
    all the earlier ones. *)
Theorem invalid_configuration_yields_no_registry config log :
  (0 < violations config)%nat →
  (∀ reg, (Open unicodeToUpper env Drivers sqlOpenErr config log).2 ≠ Ok reg) ∧
  (inv1 config && inv2 config && inv3 config && inv4 config = false →
   ∃ e, Open unicodeToUpper env Drivers sqlOpenErr config log = (log, Err e) ∧ isConfigError e = true ∧
        invariantOf e = firstViolated config) ∧
  (inv1 config = true → inv2 config = true → inv3 config = true →
   inv4 config = false →
   ∃ before c after,
     Connections config = before ++ c :: after ∧
     NoDup (Name <$> before) ∧ Name c ∈ Name <$> before ∧
     Open unicodeToUpper env Drivers sqlOpenErr config log = (log, Err (ErrDuplicatedName (Name c)))) ∧
  (validated config →
   ∃ before spec after k e,
     Connections config = before ++ spec :: after ∧
     specHasRole spec = false ∧
     Forall (λ c, specHasRole c = true) before ∧
     Open unicodeToUpper env Drivers sqlOpenErr config log = (log ++ (connectionString' config <$> take k before), Err e) ∧
     (Forall (accepted' config) before →
        k = length before ∧ e = ErrReplicaWrite (Name spec))).
Proof.
  intros Hviol. split; [|split; [|split]].
  - intros reg Hrun. destruct (Open unicodeToUpper env Drivers sqlOpenErr config log) as [log' r] eqn:Hopen.
    simpl in Hrun. subst r. apply Open_Ok_no_violation in Hopen. lia.
  - intros Hsome. unfold firstViolated, invariants.
    destruct (inv1 config) eqn:H1.
    2:{ destruct (Open_inv1_violated config log H1) as (e & Hrun & He).
        exists e. unfold isConfigError. rewrite He. by repeat split. }
    destruct (inv2 config) eqn:H2.
    2:{ destruct (Open_inv2_violated config log H1 H2) as (e & Hrun & He).
        exists e. unfold isConfigError. rewrite He. by repeat split. }
    destruct (inv3 config) eqn:H3.
    2:{ exists ErrNoConnections. rewrite Open_inv3_violated by done. by repeat split. }
    destruct (inv4 config) eqn:H4; [done|].
    destruct (Open_inv4_violated config log H1 H2 H3 H4)
      as (before & c & after & Hl & Hnd & Hc & Hrun).
    exists (ErrDuplicatedName (Name c)). by repeat split.
  - intros H1 H2 H3 H4. by apply Open_inv4_violated.
  - intros Hval. pose proof Hval as (H1 & H2 & H3 & H4).
    assert (inv5 config = false) as H5.
    { unfold violations, invariants in Hviol. rewrite H1, H2, H3, H4 in Hviol.
      destruct (inv5 config); [vm_compute in Hviol; lia|done]. }
    unfold inv5 in H5. apply orb_false_iff in H5 as [Hmode Hroles].
    apply negb_false_iff in Hmode.
    assert (DSN config = "") as Hd.
    { apply inv1_cases in H1. unfold clusterMode in Hmode.
      destruct H1 as [(_ & Hc & Hh)|[(? & _)|(? & _)]]; [|done..].
      rewrite Hc, Hh in Hmode. done. }
    apply forallb_false_split in Hroles as (before & spec & after & Hl & Hspec & Hb).
    destruct (openAll_norole unicodeToUpper env Drivers sqlOpenErr config before spec after
                ∅ log (inv1_hasTopology _ H1) Hd Hb Hspec) as (k & e & Hrun & Hall).
    exists before, spec, after, k, e. rewrite Open_validated, Hl by done. done.
Qed.

(** C7, as the source does it.  An unset variable is read as the empty
    string: in a cluster mode the connection string is composed with an
    empty host or password and handed to the driver, and [Open] returns a
    registry whenever the specs have a role and the driver opens the
    composed strings. *)
Theorem missing_variable_read_as_empty config log :
  validated config → DSN config = "" →
  Forall (λ spec, specHasRole spec = true) (Connections config) →
  (∀ key, env !! key = None → Getenv env key = "") ∧
  (Forall (accepted' config) (Connections config) →
   ∃ reg,
     Open unicodeToUpper env Drivers sqlOpenErr config log = (log ++ (connectionString' config <$> Connections config), Ok reg) ∧
     ∀ spec, spec ∈ Connections config →
       ∃ h, reg !! Name spec = Some h ∧ db_dsn h = connectionString' config spec ∧
         ((∀ key, key ∈ requiredVariables unicodeToUpper config spec → env !! key = None) →
          db_dsn h = composeDSN (Schema config +:+ roleSuffix spec) "" ""
                       (Schema config) (Parameters spec))).
Proof.
  intros Hval Hd Hroles. split.
  { intros key Hkey. unfold Getenv. by rewrite Hkey. }
  intros Hacc. eexists. split; [by apply Open_total|].
  intros spec Hin. exists (handleOf' config spec). split.
  { apply registerAll_lookup; [|done].
    destruct Hval as (_ & _ & _ & H4). by apply bool_decide_eq_true in H4. }
  rewrite handleOf_dsn. split; [done|]. intros Hunset.
  unfold connectionString, requiredVariables in *.
  rewrite decide_False by auto.
  case_decide; unfold singleClusterDSN, haClusterDSN, Getenv;
    rewrite !Hunset by (rewrite !elem_of_cons; auto); reflexivity.
Qed.
End OpenResults.

(** ** The theorems at the configurations of the tests *)
Section Instances.
Import Tests Fixtures.

Lemma single_cluster_connection_string_witness :
  ∃ h, registryOf (run envSingleMaster configSingleMaster) !! "foo" = Some h ∧
       db_dsn h = "bar_WPROD:password@tcp(localhost:3306)/bar?" +:+ params.
Proof.
  destruct (single_cluster_connection_string id envSingleMaster mockDrivers mockOpenErr
              configSingleMaster specMaster []
              (run envSingleMaster configSingleMaster).1
              (registryOf (run envSingleMaster configSingleMaster)))
    as (_ & _ & _ & (h & Hh & Hdsn) & Hinstance).
  - reflexivity.
  - discriminate.
  - vm_compute. reflexivity.
  - apply list_elem_of_here.
  - exists h. split; [exact Hh|]. rewrite Hdsn. apply Hinstance; try reflexivity.
    discriminate.
Defined.

Lemma ha_cluster_connection_string_witness :
  ∃ h, registryOf (run envHAReadOnly configHAReadOnly) !! "foo" = Some h ∧
       db_dsn h = "bar_RPROD:password@tcp(localhost:3306)/bar?" +:+ params.
Proof.
  destruct (ha_cluster_connection_string id envHAReadOnly mockDrivers mockOpenErr
              configHAReadOnly specReadOnly []
              (run envHAReadOnly configHAReadOnly).1
              (registryOf (run envHAReadOnly configHAReadOnly)))
    as (_ & _ & _ & _ & (h & Hh & Hdsn) & _).
  - reflexivity.
  - reflexivity.
  - vm_compute. reflexivity.
  - apply list_elem_of_here.
  - exists h. split; [exact Hh|]. rewrite Hdsn. vm_compute. reflexivity.
Defined.

Lemma direct_dsn_verbatim_witness :
  ∃ h, registryOf (run ∅ configDirect) !! "foo" = Some h ∧
       db_dsn h = "root:password@tcp(localhost:3306)/foo".
Proof.
  destruct (direct_dsn_verbatim id ∅ mockDrivers mockOpenErr configDirect []
              (run ∅ configDirect).1 (registryOf (run ∅ configDirect)))
    as (_ & Hspecs & _).
  - discriminate.
  - vm_compute. reflexivity.
  - apply (Hspecs specIgnored). apply list_elem_of_here.
Defined.

(** C8 fails on the source: with a limit of one open connection and no idle
    count, [SetMaxOpenConns] lowers the idle limit of the handle from the
    default of two to one. *)
Lemma absentSettingsUntouched_fails :
  ¬ absentSettingsUntouched id ∅ mockDrivers mockOpenErr configOpenOnly.
Proof.
  intros Hclaim.
  destruct (Hclaim (run ∅ configOpenOnly).1 (registryOf (run ∅ configOpenOnly)) specOpenOnly)
    as (h & Hh & _ & Hidle & _).
  - vm_compute. reflexivity.
  - apply list_elem_of_here.
  - vm_compute in Hh. injection Hh as <-.
    specialize (Hidle eq_refl). vm_compute in Hidle. discriminate Hidle.
Qed.

Lemma pool_settings_applied_witness :
  ∃ h, registryOf (run ∅ configIdleAboveOpen) !! "1" = Some h ∧
       db_calls h = [CallSetConnMaxLifetime (10 * 60 * 10^9); CallSetMaxIdleConns 100;
                     CallSetMaxOpenConns 10; CallSetMaxIdleConns 10] ∧
       maxIdleConnsLocked h = 10 ∧ maxOpen h = 10 ∧
       (∀ d, CallSetConnMaxIdleTime d ∉ db_calls h) ∧ maxIdleTime h = 0.
Proof.
  destruct (pool_settings_applied id ∅ mockDrivers mockOpenErr configIdleAboveOpen []
              (run ∅ configIdleAboveOpen).1 (registryOf (run ∅ configIdleAboveOpen))
              specIdleAboveOpen)
    as (h & Hh & _ & _ & Htime & _ & Hcalls & _ & _ & Hopen & Hidletime & Hidle & _).
  - vm_compute. reflexivity.
  - apply list_elem_of_here.
  - exists h. repeat split.
    + exact Hh.
    + exact Hcalls.
    + exact Hidle.
    + exact Hopen.
    + intros d Hd. apply Htime in Hd. discriminate Hd.
    + exact Hidletime.
Defined.

Lemma direct_mode_skips_role_check_witness :
  ∃ reg, (run ∅ configDirect).2 = Ok reg ∧ is_Some (reg !! "foo").
Proof.
  destruct (direct_mode_skips_role_check id ∅ mockDrivers mockOpenErr configDirect [])
    as (_ & Hopened).
  - discriminate.
  - destruct Hopened as (reg & Hrun & Hspecs).
    + repeat split; vm_compute; reflexivity.
    + repeat constructor.
    + exists reg. split; [exact Hrun|]. apply (Hspecs specIgnored), list_elem_of_here.
Defined.

Lemma validation_reports_first_violation_witness :
  ∃ i e, firstViolated configDSNWithSchema = Some i ∧
    run ∅ configDSNWithSchema = ([], Err e) ∧ invariantOf e = Some i ∧ e = ErrDSNWithSchema.
Proof.
  destruct (validation_reports_first_violation id ∅ mockDrivers mockOpenErr
              configDSNWithSchema []) as (i & e & Hfirst & Hrun & Hinv & _).
  - vm_compute. lia.
  - exists i, e. repeat split; [exact Hfirst|exact Hrun|exact Hinv|].
    unfold run in Hrun. vm_compute in Hrun. congruence.
Defined.

(** C4 fails on the source: the second spec has no role, and [sql.Open] has
    been called for the first spec when [Open] returns. *)
Lemma rejectedBeforeOpening_fails :
  ¬ rejectedBeforeOpening id ∅ mockDrivers mockOpenErr configReplicaSecond.
Proof.
  intros Hclaim. destruct Hclaim as (e & Hrun & _).
  - vm_compute. lia.
  - vm_compute in Hrun. discriminate Hrun.
Qed.

Lemma invalid_configuration_yields_no_registry_witness :
  run ∅ configReplicaSecond = (["bar_WPROD:@tcp()/bar"], Err (ErrReplicaWrite "b")) ∧
  ∀ reg, (run ∅ configReplicaSecond).2 ≠ Ok reg.
Proof.
  split; [vm_compute; reflexivity|].
  apply (invalid_configuration_yields_no_registry id ∅ mockDrivers mockOpenErr
           configReplicaSecond []).
  vm_compute. lia.
Defined.

(** C7 fails on the source: no variable of schema "my_schema" is set, and
    [Open] returns a registry, as the test requires. *)
Lemma failsOnMissingVariable_fails :
  ¬ failsOnMissingVariable id envReadme mockDrivers mockOpenErr configReadme.
Proof.
  intros Hclaim. destruct Hclaim as (e & Hrun).
  - reflexivity.
  - eexists _, _. split; [apply list_elem_of_here|]. split; [apply list_elem_of_here|].
    vm_compute. reflexivity.
  - vm_compute in Hrun. discriminate Hrun.
Qed.

Lemma missing_variable_read_as_empty_witness :
  ∃ h, registryOf (run envReadme configReadme) !! "replica_ro" = Some h ∧
       db_dsn h = "my_schema_RPROD:@tcp()/my_schema?" +:+ params.
Proof.
  destruct (missing_variable_read_as_empty id envReadme mockDrivers mockOpenErr
              configReadme []) as (_ & Hopen).
  - repeat split; vm_compute; reflexivity.
  - reflexivity.
  - repeat constructor.
  - destruct Hopen as (reg & Hrun & Hspecs).
    + repeat constructor.
    + destruct (Hspecs (mkConnection "replica_ro" false true params poolReadme))
        as (h & Hh & _ & Hempty).
      * apply list_elem_of_further, list_elem_of_further, list_elem_of_here.
      * exists h. unfold run, registryOf. rewrite Hrun. split; [exact Hh|].
        rewrite Hempty; [reflexivity|].
        intros key Hkey. vm_compute in Hkey.
        apply elem_of_cons in Hkey as [->|Hkey]; [vm_compute; reflexivity|].
        apply elem_of_cons in Hkey as [->|Hkey]; [vm_compute; reflexivity|].
        by apply elem_of_nil in Hkey.
Defined.
End Instances.

(** ** [Close] *)
Section CloseFacts.
Variable dbClose : DB → option string.

Lemma closeEach_spec dbs names closed errs :
  closeEach dbClose dbs names closed errs =
    (closed ++ names, errs ++ closeFailures dbClose dbs names).
Proof.
  revert closed errs. induction names as [|name rest IH]; intros closed errs.
  - simpl. by rewrite !app_nil_r.
  - simpl. unfold closeFailures in *. simpl.
    destruct (dbClose (dbs !!! name)) as [err|]; simpl;
      rewrite IH, <- !app_assoc; reflexivity.
Qed.

Lemma sortStrings_Sorted names : Sorted String.le (sortStrings names).
Proof. apply (Sorted_merge_sort String.le). Qed.

Lemma sortStrings_Permutation names : sortStrings names ≡ₚ names.
Proof. apply (merge_sort_Permutation String.le). Qed.

(** The sorted list does not depend on the order [maps.Keys] returned. *)
Lemma sortStrings_unique names names' :
  names ≡ₚ names' → sortStrings names = sortStrings names'.
Proof.
  intros Hperm. apply (Sorted_unique String.le); try apply sortStrings_Sorted.
  by rewrite !sortStrings_Permutation.
Qed.

Lemma sortStrings_sorted_id names :
  Sorted String.le names → sortStrings names = names.
Proof.
  intros Hs. apply (Sorted_unique String.le);
    [apply sortStrings_Sorted|done|apply sortStrings_Permutation].
Qed.

Lemma elem_of_Keys (dbs : gmap string DB) name :
  name ∈ Keys dbs ↔ is_Some (dbs !! name).
Proof.
  unfold Keys. rewrite list_elem_of_fmap. split.
  - intros ([k db] & -> & Hin). apply elem_of_map_to_list in Hin. by exists db.
  - intros [db Hdb]. exists (name, db). split; [done|]. by apply elem_of_map_to_list.
Qed.

Lemma closeFailures_nil dbs names :
  closeFailures dbClose dbs names = [] ↔
  ∀ name, name ∈ names → dbClose (dbs !!! name) = None.
Proof.
  unfold closeFailures. induction names as [|name rest IH]; simpl.
  - split; [|done]. intros _ name Hin. by apply elem_of_nil in Hin.
  - destruct (dbClose (dbs !!! name)) as [err|] eqn:Hclose; simpl.
    + split; [done|]. intros Hall. specialize (Hall name (list_elem_of_here _ _)). congruence.
    + rewrite IH. split.
      * intros Hall n [->|Hn]%elem_of_cons; auto.
      * intros Hall n Hn. apply Hall. by right.
Qed.

(** C2. [Close] calls [Close] on every handle of the registry, once, in
    ascending byte-wise order of the names, whatever order [maps.Keys]
    returned them in and whether or not earlier closes failed.  It returns
    nil exactly when every close succeeded; otherwise the error text is
    "failed to close connections: " followed by the failures, each rendered
    as "name: underlying-error", in the same order, joined by ", ".  For
    handles named foo, bar and baz whose closes all fail, the handles are
    closed in the order bar, baz, foo, and the text lists the three
    failures in that order. *)
Theorem close_sorted_aggregate (dbs : gmap string DB) (names : list string) :
  names ≡ₚ Keys dbs →
  ∃ closed err,
    CloseFrom dbClose dbs names = (closed, err) ∧
    Close dbClose dbs = (closed, err) ∧
    Sorted String.le closed ∧ NoDup closed ∧
    (∀ name, name ∈ closed ↔ is_Some (dbs !! name)) ∧
    (err = None ↔ ∀ name db, dbs !! name = Some db → dbClose db = None) ∧
    (closeFailures dbClose dbs closed ≠ [] →
     err = Some ("failed to close connections: "
                   +:+ String.concat ", " (closeFailures dbClose dbs closed))) ∧
    (∀ hfoo hbar hbaz efoo ebar ebaz,
       dom dbs = {["foo"; "bar"; "baz"]} →
       dbs !! "foo" = Some hfoo → dbs !! "bar" = Some hbar → dbs !! "baz" = Some hbaz →
       dbClose hfoo = Some efoo → dbClose hbar = Some ebar → dbClose hbaz = Some ebaz →
       closed = ["bar"; "baz"; "foo"] ∧
       err = Some ("failed to close connections: "
                     +:+ ("bar: " +:+ ebar) +:+ ", "
                     +:+ ("baz: " +:+ ebaz) +:+ ", " +:+ ("foo: " +:+ efoo))).
Proof.
  intros Hperm.
  exists (sortStrings (Keys dbs)),
    (if decide (0 < length (closeFailures dbClose dbs (sortStrings (Keys dbs))))%nat
     then Some ("failed to close connections: "
                  +:+ String.concat ", " (closeFailures dbClose dbs (sortStrings (Keys dbs))))
     else None).
  assert (∀ name, name ∈ sortStrings (Keys dbs) ↔ is_Some (dbs !! name)) as Hmem.
  { intros name. by rewrite sortStrings_Permutation, elem_of_Keys. }
  split; [|split; [|split; [|split; [|split; [|split; [|split]]]]]].
  - unfold CloseFrom. rewrite (sortStrings_unique _ _ Hperm), closeEach_spec. reflexivity.
  - unfold Close, CloseFrom. rewrite closeEach_spec. reflexivity.
  - apply sortStrings_Sorted.
  - rewrite sortStrings_Permutation. apply NoDup_fst_map_to_list.
  - done.
  - case_decide as Hlen.
    + split; [done|]. intros Hall. exfalso.
      assert (closeFailures dbClose dbs (sortStrings (Keys dbs)) = []) as Hnil.
      { apply closeFailures_nil. intros name [db Hdb]%Hmem.
        rewrite (lookup_total_correct _ _ _ Hdb). eauto. }
      rewrite Hnil in Hlen. simpl in Hlen. lia.
    + split; [|done]. intros _ name db Hdb.
      assert (closeFailures dbClose dbs (sortStrings (Keys dbs)) = []) as Hnil.
      { destruct (closeFailures _ _ _); [done|]. simpl in Hlen. lia. }
      rewrite closeFailures_nil in Hnil.
      rewrite <- (lookup_total_correct _ _ _ Hdb). apply Hnil, Hmem. eauto.
  - intros Hne. rewrite decide_True; [done|].
    destruct (closeFailures _ _ _); [done|]. simpl. lia.
  - intros hfoo hbar hbaz efoo ebar ebaz Hdom Hfoo Hbar Hbaz Hefoo Hebar Hebaz.
    assert (sortStrings (Keys dbs) = ["bar"; "baz"; "foo"]) as ->.
    { rewrite <- (sortStrings_sorted_id ["bar"; "baz"; "foo"]) by (repeat constructor).
      apply sortStrings_unique. apply NoDup_Permutation.
      - apply NoDup_fst_map_to_list.
      - by compute_done.
      - intros name. rewrite elem_of_Keys, <- elem_of_dom, Hdom. set_solver. }
    split; [done|]. unfold closeFailures. simpl.
    rewrite (lookup_total_correct _ _ _ Hfoo), (lookup_total_correct _ _ _ Hbar),
      (lookup_total_correct _ _ _ Hbaz), Hefoo, Hebar, Hebaz. reflexivity.
Qed.
End CloseFacts.

Section CloseInstance.
Import Tests Fixtures.

Lemma close_sorted_aggregate_witness :
  Close mockClose (registryOf (run ∅ configCloseWithError)) =
    (["bar"; "baz"; "foo"],
     Some ("failed to close connections: "
             +:+ "bar: driver: bad connection, baz: driver: bad connection, "
             +:+ "foo: driver: bad connection")).
Proof.
  destruct (close_sorted_aggregate mockClose (registryOf (run ∅ configCloseWithError))
              (Keys (registryOf (run ∅ configCloseWithError))))
    as (closed & err & _ & Hclose & _ & _ & _ & _ & _ & Hinstance).
  - reflexivity.
  - rewrite Hclose.
    destruct (Hinstance
      (newDB "mysql" "root:password@tcp(localhost:3306)/close_with_error")
      (newDB "mysql" "root:password@tcp(localhost:3306)/close_with_error")
      (newDB "mysql" "root:password@tcp(localhost:3306)/close_with_error")
      "driver: bad connection" "driver: bad connection" "driver: bad connection")
      as [-> ->]; vm_compute; reflexivity.
Defined.
End CloseInstance.

(** ** Duration strings *)
Section DurationFacts.
Import time.

(** *** Digits *)

Lemma digit_cases (m : Z) :
  0 ≤ m < 10 →
  m = 0 ∨ m = 1 ∨ m = 2 ∨ m = 3 ∨ m = 4 ∨ m = 5 ∨ m = 6 ∨ m = 7 ∨ m = 8 ∨ m = 9.
Proof. lia. Qed.

Lemma digitByte_isDigit (m : Z) : 0 ≤ m < 10 → isDigit (digitByte m) = true.
Proof.
  intros Hm. destruct (digit_cases m Hm) as [->|[->|[->|[->|[->|[->|[->|[->|[->| ->]]]]]]]]];
    reflexivity.
Qed.

Lemma digitValue_digitByte (m : Z) : 0 ≤ m < 10 → digitValue (digitByte m) = m.
Proof.
  intros Hm. destruct (digit_cases m Hm) as [->|[->|[->|[->|[->|[->|[->|[->|[->| ->]]]]]]]]];
    reflexivity.
Qed.

(** *** [fmtInt] writes what [leadingInt] reads *)

Lemma leadingIntFrom_digit (x m : Z) (s : string) :
  0 ≤ m < 10 → 0 ≤ x → x * 10 + m ≤ 2^63 →
  leadingIntFrom x (String (digitByte m) s) = leadingIntFrom (x * 10 + m) s.
Proof.
  intros Hm Hx Hle. simpl leadingIntFrom.
  rewrite digitByte_isDigit, digitValue_digitByte by done.
  assert ((2^63 / 10 <? x) = false) as ->.
  { apply Z.ltb_ge. apply Z.div_le_lower_bound; lia. }
  assert ((2^63 <? x * 10 + m) = false) as -> by (apply Z.ltb_ge; lia).
  reflexivity.
Qed.

Lemma leadingIntFrom_fmtIntLoop (fuel : nat) (v : Z) (buf : string) :
  0 ≤ v ≤ 2^63 → v < 2 ^ Z.of_nat fuel →
  leadingIntFrom 0 (fmtIntLoop fuel v buf) = leadingIntFrom v buf.
Proof.
  revert v buf. induction fuel as [|fuel IH]; intros v buf Hv Hfuel.
  - simpl in *. assert (v = 0) as -> by lia. reflexivity.
  - simpl fmtIntLoop. destruct (Z.ltb_spec 0 v) as [Hpos|Hzero].
    + rewrite IH.
      * rewrite leadingIntFrom_digit.
        -- f_equal. pose proof (Z.div_mod v 10). lia.
        -- apply Z.mod_pos_bound. lia.
        -- apply Z.div_pos; lia.
        -- pose proof (Z.div_mod v 10). lia.
      * split; [apply Z.div_pos; lia|]. pose proof (Z.div_le_upper_bound v 10 v). lia.
      * rewrite Nat2Z.inj_succ, Z.pow_succ_r in Hfuel by lia.
        apply Z.div_lt_upper_bound; lia.
    + assert (v = 0) as -> by lia. reflexivity.
Qed.

Lemma leadingIntFrom_atNumber_stop (x : Z) (s : string) :
  match s with EmptyString => True | String c _ => isDigit c = false end →
  leadingIntFrom x s = Some (x, s).
Proof. destruct s as [|c s]; simpl; [done|]. by intros ->. Qed.

Lemma fmtInt_fuel (v : Z) : 0 < v → v < 2 ^ Z.of_nat (S (Z.to_nat (Z.log2 v))).
Proof.
  intros Hv. rewrite Nat2Z.inj_succ, Z2Nat.id by apply Z.log2_nonneg.
  apply Z.log2_spec. done.
Qed.

Lemma leadingInt_fmtInt (v : Z) (buf : string) :
  0 ≤ v ≤ 2^63 →
  match buf with EmptyString => True | String c _ => isDigit c = false end →
  leadingInt (fmtInt buf v) = Some (v, buf).
Proof.
  intros Hv Hbuf. unfold leadingInt, fmtInt.
  destruct (Z.eqb_spec v 0) as [->|Hne].
  - change (String "0" buf) with (String (digitByte 0) buf).
    rewrite leadingIntFrom_digit by lia. by apply leadingIntFrom_atNumber_stop.
  - rewrite leadingIntFrom_fmtIntLoop; [|done|apply fmtInt_fuel; lia].
    by apply leadingIntFrom_atNumber_stop.
Qed.

(** [fmtInt] writes at least one byte, and a digit first. *)
Lemma fmtIntLoop_shape (fuel : nat) (v : Z) (c : ascii) (buf : string) :
  isDigit c = true →
  ∃ c' r, fmtIntLoop fuel v (String c buf) = String c' r ∧ isDigit c' = true ∧
          (String.length buf ≤ String.length r)%nat.
Proof.
  revert v c buf. induction fuel as [|fuel IH]; intros v c buf Hc.
  - exists c, buf. done.
  - simpl. destruct (0 <? v) eqn:Hv.
    + destruct (IH (v / 10) (digitByte (v mod 10)) (String c buf))
        as (c' & r & -> & Hc' & Hlen).
      { apply digitByte_isDigit, Z.mod_pos_bound. lia. }
      exists c', r. simpl in Hlen. repeat split; [done|lia].
    + exists c, buf. done.
Qed.

Lemma fmtInt_shape (v : Z) (buf : string) :
  0 ≤ v →
  ∃ c r, fmtInt buf v = String c r ∧ isDigit c = true ∧
         (String.length buf ≤ String.length r)%nat.
Proof.
  intros Hv. unfold fmtInt. destruct (Z.eqb_spec v 0) as [->|Hne].
  - exists "0"%char, buf. done.
  - simpl fmtIntLoop. assert ((0 <? v) = true) as -> by (apply Z.ltb_lt; lia).
    apply fmtIntLoop_shape, digitByte_isDigit, Z.mod_pos_bound. lia.
Qed.

(** *** [fmtFrac] on a whole number of units prints nothing *)

Lemma fmtFracLoop_whole (prec : nat) (v : Z) (buf : string) :
  v mod 10 ^ Z.of_nat prec = 0 →
  fmtFracLoop prec v false buf = (buf, v / 10 ^ Z.of_nat prec, false).
Proof.
  revert v. induction prec as [|prec IH]; intros v Hv.
  - simpl. by rewrite Z.div_1_r.
  - rewrite Nat2Z.inj_succ, Z.pow_succ_r in * by lia. simpl fmtFracLoop.
    assert (v mod 10 = 0) as Hdigit.
    { pose proof (Z.pow_pos_nonneg 10 (Z.of_nat prec)).
      rewrite Z.rem_mul_r in Hv by lia.
      pose proof (Z.mod_pos_bound v 10). pose proof (Z.mod_pos_bound (v / 10) (10 ^ Z.of_nat prec)).
      nia. }
    rewrite Hdigit. simpl. rewrite IH.
    + by rewrite Z.div_div by (try apply Z.pow_pos_nonneg; lia).
    + pose proof (Z.pow_pos_nonneg 10 (Z.of_nat prec)).
      rewrite Z.rem_mul_r in Hv by lia.
      pose proof (Z.mod_pos_bound (v / 10) (10 ^ Z.of_nat prec)). nia.
Qed.

Lemma fmtFrac_whole (prec : nat) (v : Z) (buf : string) :
  v mod 10 ^ Z.of_nat prec = 0 →
  fmtFrac buf v prec = (buf, v / 10 ^ Z.of_nat prec).
Proof. intros Hv. unfold fmtFrac. by rewrite fmtFracLoop_whole. Qed.

(** *** The loop of [ParseDuration] consumes its input *)

Lemma leadingIntFrom_length (x : Z) (s : string) (v : Z) (rest : string) :
  leadingIntFrom x s = Some (v, rest) → (String.length rest ≤ String.length s)%nat.
Proof.
  revert x. induction s as [|c s IH]; intros x; simpl.
  - intros [= _ <-]. done.
  - destruct (isDigit c).
    + destruct (2^63 / 10 <? x); [done|].
      destruct (2^63 <? x * 10 + digitValue c); [done|].
      intros Hrest%IH. lia.
    + intros [= _ <-]. done.
Qed.

Lemma leadingFractionFrom_length (x scale : Z) (overflow : bool) (s : string) :
  (String.length (leadingFractionFrom x scale overflow s).2 ≤ String.length s)%nat.
Proof.
  revert x scale overflow. induction s as [|c s IH]; intros x scale overflow; simpl; [done|].
  destruct (isDigit c); [|done].
  destruct overflow; [specialize (IH x scale true); lia|].
  destruct ((2^63 - 1) / 10 <? x); [specialize (IH x scale true); lia|].
  destruct (2^63 <? x * 10 + digitValue c).
  - specialize (IH x scale true). lia.
  - specialize (IH (x * 10 + digitValue c) (scale * 10) false). lia.
Qed.

Lemma splitUnit_length (s : string) :
  String.length s = (String.length (splitUnit s).1 + String.length (splitUnit s).2)%nat.
Proof.
  induction s as [|c s IH]; simpl; [done|].
  destruct (Ascii.eqb c "." || isDigit c); [done|].
  destruct (splitUnit s) as [u rest]. simpl in *. lia.
Qed.

Section ParseFacts.
Variable fractionNanos : Z → Z → Z → Z.

(** A round of the loop either returns or goes on with a shorter string. *)
Lemma parseSegments_step (fuel : nat) (orig s : string) (d : Z) :
  s ≠ "" →
  (∃ r, ∀ fuel', parseSegments fractionNanos (S fuel') orig s d = r) ∨
  (∃ s' d', (String.length s' < String.length s)%nat ∧
     ∀ fuel', parseSegments fractionNanos (S fuel') orig s d
              = parseSegments fractionNanos fuel' orig s' d').
Proof.
  intros Hs. destruct s as [|c0 s0]; [done|]. clear Hs.
  cbn [parseSegments].
  destruct (negb (Ascii.eqb c0 "." || isDigit c0)); [left; eauto|].
  destruct (leadingInt (String c0 s0)) as [[v s1]|] eqn:Hint; [|left; eauto].
  apply leadingIntFrom_length in Hint.
  set (pre := negb (String.length (String c0 s0) =? String.length s1)%nat).
  assert (∃ f scale s2 post,
    match s1 with
    | String c s1' =>
        if Ascii.eqb c "." then
          let '(f, scale, rest) := leadingFraction s1' in
          (f, scale, rest, negb (String.length s1' =? String.length rest)%nat)
        else (0, 1, s1, false)
    | EmptyString => (0, 1, s1, false)
    end = (f, scale, s2, post) ∧ (String.length s2 ≤ String.length s1)%nat
      ∧ (post = false → s2 = s1 ∨ String.length s2 < String.length s1)%nat)
    as (f & scale & s2 & post & -> & Hs2 & Hpost).
  { destruct s1 as [|c s1']; [by exists 0, 1, "", false; auto|].
    destruct (Ascii.eqb c "."); [|by exists 0, 1, (String c s1'), false; auto].
    pose proof (leadingFractionFrom_length 0 1 false s1') as Hlen.
    unfold leadingFraction. destruct (leadingFractionFrom 0 1 false s1') as [[f scale] rest].
    simpl in Hlen. eexists f, scale, rest, _. split; [reflexivity|]. simpl. split; [lia|].
    intros _. right. lia. }
  destruct (negb pre && negb post) eqn:Hprepost; [left; eauto|].
  pose proof (splitUnit_length s2) as Hsplit.
  destruct (splitUnit s2) as [u s3]. simpl in Hsplit.
  case_decide as Hu; [left; eauto|].
  destruct (unitMap u) as [unit|]; [|left; eauto].
  destruct (2^63 / unit <? v); [left; eauto|].
  destruct ((0 <? f) && _); [left; eauto|].
  destruct (2^63 <? _); [left; eauto|].
  right. eexists s3, _. split; [|reflexivity].
  destruct u as [|cu u]; [done|]. simpl in *. lia.
Qed.

(** Enough fuel is as good as more fuel: the loop never stops for lack of it. *)
Lemma parseSegments_fuel (fuel fuel' : nat) (orig s : string) (d : Z) :
  (String.length s ≤ fuel)%nat → (String.length s ≤ fuel')%nat →
  parseSegments fractionNanos fuel orig s d = parseSegments fractionNanos fuel' orig s d.
Proof.
  revert fuel' s d. induction fuel as [|fuel IH]; intros fuel' s d Hfuel Hfuel'.
  - destruct s; [|simpl in Hfuel; lia]. by destruct fuel'.
  - destruct s as [|c0 s0] eqn:Hs; [by destruct fuel'|].
    destruct fuel' as [|fuel']; [simpl in Hfuel'; lia|].
    destruct (parseSegments_step fuel orig (String c0 s0) d) as [(r & Hr)|(s' & d' & Hlen & Hstep)];
      [done| |].
    + by rewrite !Hr.
    + rewrite !Hstep. simpl in *. apply IH; lia.
Qed.

(** *** One segment: a whole number and its unit *)

Lemma splitUnit_app (u rest : string) :
  allBytes (λ c, negb (endsUnit c)) u = true →
  match rest with EmptyString => True | String c _ => endsUnit c = true end →
  splitUnit (u +:+ rest) = (u, rest).
Proof.
  intros Hu Hrest. induction u as [|c u IH].
  - destruct rest as [|c rest]; [done|]. simpl. unfold endsUnit in Hrest. by rewrite Hrest.
  - simpl in Hu. apply andb_true_iff in Hu as [Hc Hu]. apply negb_true_iff in Hc.
    change (String c u +:+ rest) with (String c (u +:+ rest)). simpl.
    unfold endsUnit in Hc. rewrite Hc, IH by done. reflexivity.
Qed.

Lemma fmtInt_atNumber (v : Z) (buf : string) : 0 ≤ v → atNumber (fmtInt buf v).
Proof. intros Hv. destruct (fmtInt_shape v buf Hv) as (c & r & -> & Hc & _). done. Qed.

Lemma atNumber_endsUnit (s : string) :
  atNumber s → match s with EmptyString => True | String c _ => endsUnit c = true end.
Proof. destruct s as [|c s]; [done|]. simpl. unfold endsUnit. intros ->. apply orb_true_r. Qed.

Lemma parse_segment (fuel : nat) (orig buf u rest : string) (v unit d : Z) :
  buf = u +:+ rest → u ≠ "" →
  allBytes (λ c, negb (endsUnit c)) u = true →
  unitMap u = Some unit → atNumber rest →
  0 ≤ v → 0 < unit → 0 ≤ d → d + v * unit ≤ 2^63 →
  parseSegments fractionNanos (S fuel) orig (fmtInt buf v) d =
    parseSegments fractionNanos fuel orig rest (d + v * unit).
Proof.
  intros -> Hne Hu Hunit Hrest Hv Hpos Hd Hsum.
  destruct u as [|cu u']; [done|]. clear Hne.
  pose proof Hu as Hcu. simpl in Hcu. apply andb_true_iff in Hcu as [Hcu _].
  apply negb_true_iff in Hcu. unfold endsUnit in Hcu.
  apply orb_false_iff in Hcu as [Hdot Hdigit].
  assert (v ≤ 2^63) as Hv63 by nia.
  pose proof (leadingInt_fmtInt v (String cu u' +:+ rest) (conj Hv Hv63) Hdigit) as Hint.
  destruct (fmtInt_shape v (String cu u' +:+ rest) Hv) as (c & r & Hshape & Hc & Hlen).
  rewrite Hshape in *. cbn [parseSegments].
  rewrite Hc, orb_true_r. cbn [negb]. rewrite Hint.
  assert ((String.length (String c r) =? String.length (String cu u' +:+ rest))%nat = false)
    as -> by (apply Nat.eqb_neq; simpl in *; lia).
  change (String cu u' +:+ rest) with (String cu (u' +:+ rest)).
  cbv beta iota. rewrite Hdot. cbv beta iota. cbn [negb andb].
  change (String cu (u' +:+ rest)) with (String cu u' +:+ rest).
  rewrite splitUnit_app by (try apply atNumber_endsUnit; done).
  rewrite decide_False by done. rewrite Hunit.
  assert ((2^63 / unit <? v) = false) as ->.
  { apply Z.ltb_ge, Z.div_le_lower_bound; lia. }
  change (0 <? 0) with false. cbn [andb].
  assert (toUint64 (d + v * unit) = d + v * unit) as ->.
  { unfold toUint64. apply Z.mod_small. lia. }
  assert ((2^63 <? d + v * unit) = false) as -> by (apply Z.ltb_ge; lia).
  reflexivity.
Qed.

Lemma parseSegments_empty (fuel : nat) (orig : string) (d : Z) :
  parseSegments fractionNanos fuel orig "" d = inr d.
Proof. by destruct fuel. Qed.

(** *** The magnitude *)

Lemma formatMagnitude_shape (u : Z) :
  0 ≤ u →
  ∃ c r, formatMagnitude u = String c r ∧ isDigit c = true ∧ r ≠ "".
Proof.
  intros Hu.
  assert (∀ v buf, 0 ≤ v → buf ≠ "" →
            ∃ c r, fmtInt buf v = String c r ∧ isDigit c = true ∧ r ≠ "") as Hshape.
  { intros v buf Hv Hbuf. destruct (fmtInt_shape v buf Hv) as (c & r & -> & Hc & Hlen).
    exists c, r. repeat split; [done|]. destruct buf; [done|]. destruct r; [simpl in Hlen; lia|done]. }
  assert (∀ buf v prec, 0 ≤ v → buf ≠ "" →
            (fmtFrac buf v prec).1 ≠ "" ∧ 0 ≤ (fmtFrac buf v prec).2) as Hfrac.
  { intros buf v prec Hv Hbuf. unfold fmtFrac.
    assert (∀ p w pr b, 0 ≤ w → b ≠ "" →
              (fmtFracLoop p w pr b).1.1 ≠ "" ∧ 0 ≤ (fmtFracLoop p w pr b).1.2) as Hloop.
    { induction p as [|p IH]; intros w pr b Hw Hb; simpl; [done|].
      apply IH; [apply Z.div_pos; lia|]. by destruct (pr || _). }
    destruct (Hloop prec v false buf Hv Hbuf) as [H1 H2].
    destruct (fmtFracLoop prec v false buf) as [[b w] pr]. simpl in *.
    split; [by destruct pr|done]. }
  unfold formatMagnitude. destruct (u <? Second).
  - destruct (u <? Microsecond); [|destruct (u <? Millisecond)];
      match goal with |- context [fmtFrac ?b u ?p] =>
        destruct (Hfrac b u p Hu ltac:(done)) as [H1 H2];
        destruct (fmtFrac b u p) as [buf w] end; by apply Hshape.
  - destruct (Hfrac "s" u 9%nat Hu ltac:(done)) as [H1 H2].
    destruct (fmtFrac "s" u 9) as [buf w]. simpl in H1, H2.
    destruct (0 <? w / 60); [destruct (0 <? w / 60 / 60)|].
    + apply Hshape; [|done]. apply Z.div_pos; [apply Z.div_pos|]; lia.
    + apply Hshape; [|done]. apply Z.mod_pos_bound. lia.
    + apply Hshape; [|done]. apply Z.mod_pos_bound. lia.
Qed.

Lemma whole_division (u k : Z) : 0 < k → u mod k = 0 → u = (u / k) * k.
Proof. intros Hk Hmod. pose proof (Z.div_mod u k). lia. Qed.

(** The parser reads back the magnitude the formatter wrote. *)
Lemma parse_formatMagnitude (u : Z) (orig : string) (fuel : nat) :
  0 < u ≤ 2^63 → wholeUnits u = true →
  (String.length (formatMagnitude u) ≤ fuel)%nat →
  parseSegments fractionNanos fuel orig (formatMagnitude u) 0 = inr u.
Proof.
  intros Hu Hwhole Hfuel.
  rewrite (parseSegments_fuel fuel (S (S (S fuel)))) by lia. clear Hfuel.
  unfold wholeUnits in Hwhole. rewrite Z.abs_eq in Hwhole by lia.
  unfold formatMagnitude.
  change Second with 1000000000 in *. change Millisecond with 1000000 in *.
  change Microsecond with 1000 in *.
  destruct (Z.ltb_spec u 1000000000) as [Hsec|Hsec].
  - destruct (Z.ltb_spec u 1000) as [Hmicro|Hmicro];
      [|destruct (Z.ltb_spec u 1000000) as [Hmilli|Hmilli]].
    + rewrite (fmtFrac_whole 0) by apply Z.mod_1_r.
      change (10 ^ Z.of_nat 0) with 1. rewrite Z.div_1_r.
      rewrite (parse_segment _ _ "ns" "ns" "" u 1 0); try done; try lia.
      rewrite parseSegments_empty. f_equal. lia.
    + apply Z.eqb_eq in Hwhole.
      rewrite (fmtFrac_whole 3) by done. change (10 ^ Z.of_nat 3) with 1000.
      pose proof (whole_division u 1000 ltac:(lia) Hwhole) as Hdiv.
      assert (0 ≤ u / 1000) by (apply Z.div_pos; lia).
      rewrite (parse_segment _ _ (microSign +:+ "s") (microSign +:+ "s") "" (u / 1000) 1000 0);
        try done; try lia.
      rewrite parseSegments_empty. f_equal. lia.
    + apply Z.eqb_eq in Hwhole.
      rewrite (fmtFrac_whole 6) by done. change (10 ^ Z.of_nat 6) with 1000000.
      pose proof (whole_division u 1000000 ltac:(lia) Hwhole) as Hdiv.
      assert (0 ≤ u / 1000000) by (apply Z.div_pos; lia).
      rewrite (parse_segment _ _ "ms" "ms" "" (u / 1000000) 1000000 0);
        try done; try lia.
      rewrite parseSegments_empty. f_equal. lia.
  - assert ((u <? 1000) = false) as Hf1 by (apply Z.ltb_ge; lia).
    assert ((u <? 1000000) = false) as Hf2 by (apply Z.ltb_ge; lia).
    rewrite Hf1, Hf2 in Hwhole. apply Z.eqb_eq in Hwhole.
    rewrite (fmtFrac_whole 9) by done. change (10 ^ Z.of_nat 9) with 1000000000.
    pose proof (whole_division u 1000000000 ltac:(lia) Hwhole) as Hdiv.
    set (U := u / 1000000000) in *.
    assert (0 ≤ U) by (apply Z.div_pos; lia).
    pose proof (Z.div_mod U 60 ltac:(lia)) as HU.
    pose proof (Z.mod_pos_bound U 60 ltac:(lia)) as HUm.
    set (M := U / 60) in *.
    assert (0 ≤ M) by (apply Z.div_pos; lia).
    pose proof (Z.div_mod M 60 ltac:(lia)) as HM.
    pose proof (Z.mod_pos_bound M 60 ltac:(lia)) as HMm.
    set (Hrs := M / 60) in *.
    assert (0 ≤ Hrs) by (apply Z.div_pos; lia).
    cbv zeta.
    destruct (Z.ltb_spec 0 M) as [HMpos|HMzero];
      [destruct (Z.ltb_spec 0 Hrs) as [HHpos|HHzero]|].
    + rewrite (parse_segment _ _ _ "h" (fmtInt (String "m" (fmtInt "s" (U mod 60))) (M mod 60))
                 Hrs 3600000000000 0); try done; try lia; [|apply fmtInt_atNumber; lia].
      rewrite (parse_segment _ _ _ "m" (fmtInt "s" (U mod 60)) (M mod 60) 60000000000);
        try done; try lia; [|apply fmtInt_atNumber; lia].
      rewrite (parse_segment _ _ "s" "s" "" (U mod 60) 1000000000); try done; try lia.
      rewrite parseSegments_empty. f_equal. lia.
    + rewrite (parse_segment _ _ _ "m" (fmtInt "s" (U mod 60)) (M mod 60) 60000000000 0);
        try done; try lia; [|apply fmtInt_atNumber; lia].
      rewrite (parse_segment _ _ "s" "s" "" (U mod 60) 1000000000); try done; try lia.
      rewrite parseSegments_empty. f_equal. lia.
    + rewrite (parse_segment _ _ "s" "s" "" (U mod 60) 1000000000 0); try done; try lia.
      rewrite parseSegments_empty. f_equal. lia.
Qed.

(** *** Sign and magnitude *)

Lemma isDigit_not_sign (c : ascii) :
  isDigit c = true → Ascii.eqb c "-" || Ascii.eqb c "+" = false.
Proof. destruct c as [[] [] [] [] [] [] [] []]; done. Qed.

Lemma toUint64_small (z : Z) : 0 ≤ z < 2^64 → toUint64 z = z.
Proof. intros Hz. unfold toUint64. by apply Z.mod_small. Qed.

Lemma toUint64_negative (z : Z) : -2^64 ≤ z < 0 → toUint64 z = z + 2^64.
Proof.
  intros Hz. unfold toUint64. symmetry.
  apply (Z.mod_unique_pos z (2^64) (-1) (z + 2^64)); lia.
Qed.

Lemma toInt64_small (z : Z) : -2^63 ≤ z < 2^63 → toInt64 z = z.
Proof. intros Hz. unfold toInt64. rewrite Z.mod_small; lia. Qed.

Lemma toInt64_negate (d : Z) : -2^63 ≤ d < 0 → toInt64 (- toInt64 (- d)) = d.
Proof.
  intros Hd. destruct (decide (d = -2^63)) as [->|Hne]; [reflexivity|].
  rewrite (toInt64_small (- d)) by lia. rewrite Z.opp_involutive.
  apply toInt64_small. lia.
Qed.

Lemma Duration_String_positive (d : Z) :
  0 < d < 2^63 → Duration_String d = formatMagnitude d.
Proof.
  intros Hd. unfold Duration_String.
  assert ((d <? 0) = false) as -> by (apply Z.ltb_ge; lia).
  rewrite toUint64_small by lia.
  assert ((d =? 0) = false) as -> by (apply Z.eqb_neq; lia).
  by rewrite andb_false_r.
Qed.

Lemma Duration_String_negative (d : Z) :
  -2^63 ≤ d < 0 → Duration_String d = String "-" (formatMagnitude (- d)).
Proof.
  intros Hd. unfold Duration_String.
  assert ((d <? 0) = true) as -> by (apply Z.ltb_lt; lia).
  rewrite (toUint64_negative d) by lia.
  assert (toUint64 (- (d + 2^64)) = - d) as ->.
  { unfold toUint64. symmetry. apply (Z.mod_unique_pos _ (2^64) (-1) (- d)); lia. }
  assert ((- d =? 0) = false) as -> by (apply Z.eqb_neq; lia).
  by rewrite andb_false_r.
Qed.

Lemma ParseDuration_magnitude (u : Z) (neg : bool) :
  0 < u ≤ 2^63 → wholeUnits u = true →
  ParseDuration fractionNanos
    (if neg then String "-" (formatMagnitude u) else formatMagnitude u)
  = if neg then inr (toInt64 (- toInt64 u))
    else if 2^63 - 1 <? u
         then inl (InvalidDuration (formatMagnitude u)) else inr u.
Proof.
  intros Hu Hwhole.
  destruct (formatMagnitude_shape u ltac:(lia)) as (c & r & Hshape & Hc & Hr).
  assert (∀ orig, parseSegments fractionNanos (String.length (String c r)) orig (String c r) 0
                  = inr u) as Hparse.
  { intros orig. rewrite <- Hshape. by apply parse_formatMagnitude. }
  assert (String c r ≠ "0") as Hzero by (intros [= _ ->]; done).
  unfold ParseDuration. rewrite Hshape. destruct neg.
  - change (Ascii.eqb "-" "-" || Ascii.eqb "-" "+") with true. cbv beta iota.
    rewrite decide_False by done. rewrite decide_False by done.
    rewrite Hparse. reflexivity.
  - rewrite isDigit_not_sign by done. cbv beta iota.
    rewrite decide_False by done. rewrite decide_False by done.
    rewrite Hparse. reflexivity.
Qed.

(** Parsing reads back the rendering of a whole-unit duration. *)
Lemma ParseDuration_Duration_String (d : Z) :
  -2^63 ≤ d < 2^63 → wholeUnits d = true →
  ParseDuration fractionNanos (Duration_String d) = inr d.
Proof.
  intros Hd Hwhole. destruct (Z.lt_trichotomy d 0) as [Hneg|[->|Hpos]].
  - rewrite Duration_String_negative by lia.
    rewrite (ParseDuration_magnitude (- d) true); [|lia|].
    + by rewrite toInt64_negate by lia.
    + unfold wholeUnits in *. by rewrite Z.abs_opp.
  - reflexivity.
  - rewrite Duration_String_positive by lia.
    rewrite (ParseDuration_magnitude d false) by (done || lia).
    assert ((2^63 - 1 <? d) = false) as -> by (apply Z.ltb_ge; lia). reflexivity.
Qed.

End ParseFacts.
End DurationFacts.

(** ** Fractions: [fmtFrac] writes what [leadingFraction] reads *)
Section FractionFacts.
Import time.
Variable fractionNanos : Z → Z → Z → Z.
Hypothesis fractionNanos_exact : exactOnDecimals fractionNanos.

Lemma digitsBefore_length (k : nat) (q : Z) (buf : string) :
  String.length (digitsBefore k q buf) = (k + String.length buf)%nat.
Proof.
  revert q buf. induction k as [|k IH]; intros q buf; simpl; [done|].
  rewrite IH. simpl. lia.
Qed.

(** Once a digit is printed, the loop of [fmtFrac] prints all the others. *)
Lemma fmtFracLoop_print (prec : nat) (v : Z) (buf : string) :
  fmtFracLoop prec v true buf = (digitsBefore prec v buf, v / 10 ^ Z.of_nat prec, true).
Proof.
  revert v buf. induction prec as [|prec IH]; intros v buf.
  - simpl. by rewrite Z.div_1_r.
  - rewrite Nat2Z.inj_succ, Z.pow_succ_r by lia. simpl. rewrite IH.
    by rewrite Z.div_div by (try apply Z.pow_pos_nonneg; lia).
Qed.

(** On a number with a fraction, the loop skips the [t] trailing zeros and
    prints the digits above them. *)
Lemma fmtFracLoop_fraction (prec : nat) (v : Z) (buf : string) :
  0 ≤ v → v mod 10 ^ Z.of_nat prec ≠ 0 →
  ∃ t : nat, (t < prec)%nat ∧ v mod 10 ^ Z.of_nat t = 0 ∧
    fmtFracLoop prec v false buf
    = (digitsBefore (prec - t) (v / 10 ^ Z.of_nat t) buf, v / 10 ^ Z.of_nat prec, true).
Proof.
  revert v. induction prec as [|prec IH]; intros v Hv Hmod.
  - simpl in Hmod. by rewrite Z.mod_1_r in Hmod.
  - rewrite Nat2Z.inj_succ, Z.pow_succ_r in * by lia.
    pose proof (Z.pow_pos_nonneg 10 (Z.of_nat prec) ltac:(lia) ltac:(lia)) as Hpow.
    simpl fmtFracLoop. destruct (Z.eqb_spec (v mod 10) 0) as [Hzero|Hdigit].
    + cbn [negb orb].
      destruct (IH (v / 10)) as (t & Ht & Htz & ->).
      { apply Z.div_pos; lia. }
      { intros Hwhole. apply Hmod. rewrite Z.rem_mul_r by lia. lia. }
      pose proof (Z.pow_pos_nonneg 10 (Z.of_nat t) ltac:(lia) ltac:(lia)) as Hpowt.
      exists (S t). split; [lia|].
      rewrite Nat2Z.inj_succ, Z.pow_succ_r by lia. split.
      * rewrite Z.rem_mul_r by lia. lia.
      * rewrite !Z.div_div by lia. replace (S prec - S t)%nat with (prec - t)%nat by lia.
        reflexivity.
    + cbn [negb orb]. exists 0%nat. split; [lia|]. split; [apply Z.mod_1_r|].
      rewrite fmtFracLoop_print. change (10 ^ Z.of_nat 0) with 1. rewrite Z.div_1_r.
      rewrite Z.div_div by lia. replace (S prec - 0)%nat with (S prec) by lia. reflexivity.
Qed.

Lemma leadingFractionFrom_stop (x scale : Z) (s : string) :
  match s with EmptyString => True | String c _ => isDigit c = false end →
  leadingFractionFrom x scale false s = (x, scale, s).
Proof. destruct s as [|c s]; simpl; [done|]. by intros ->. Qed.

Lemma leadingFractionFrom_digit (x scale m : Z) (s : string) :
  0 ≤ m < 10 → 0 ≤ x → x * 10 + m ≤ 2^63 - 1 →
  leadingFractionFrom x scale false (String (digitByte m) s)
  = leadingFractionFrom (x * 10 + m) (scale * 10) false s.
Proof.
  intros Hm Hx Hle. simpl leadingFractionFrom.
  rewrite digitByte_isDigit, digitValue_digitByte by done.
  assert (((2^63 - 1) / 10 <? x) = false) as ->.
  { apply Z.ltb_ge. apply Z.div_le_lower_bound; lia. }
  assert ((2^63 <? x * 10 + m) = false) as -> by (apply Z.ltb_ge; lia).
  reflexivity.
Qed.

(** [leadingFraction] reads [k] digits as a number and a scale of [10^k]. *)
Lemma leadingFractionFrom_digitsBefore (k : nat) (q x scale : Z) (buf : string) :
  0 ≤ q → 0 ≤ x → (x + 1) * 10 ^ Z.of_nat k ≤ 2^63 →
  leadingFractionFrom x scale false (digitsBefore k q buf)
  = leadingFractionFrom (x * 10 ^ Z.of_nat k + q mod 10 ^ Z.of_nat k)
      (scale * 10 ^ Z.of_nat k) false buf.
Proof.
  revert q buf. induction k as [|k IH]; intros q buf Hq Hx Hbound.
  - simpl digitsBefore. change (10 ^ Z.of_nat 0) with 1.
    rewrite Z.mod_1_r, !Z.mul_1_r, Z.add_0_r. reflexivity.
  - rewrite Nat2Z.inj_succ, Z.pow_succ_r in * by lia.
    pose proof (Z.pow_pos_nonneg 10 (Z.of_nat k) ltac:(lia) ltac:(lia)) as Hpow.
    simpl digitsBefore. rewrite IH; [|apply Z.div_pos; lia|done|nia].
    pose proof (Z.mod_pos_bound (q / 10) (10 ^ Z.of_nat k) Hpow) as Hhigh.
    pose proof (Z.mod_pos_bound q 10 ltac:(lia)) as Hlow.
    rewrite leadingFractionFrom_digit; [|done|nia|nia].
    f_equal; [|lia]. rewrite (Z.rem_mul_r q 10) by lia. lia.
Qed.

(** [fmtFrac] on a number with a fraction: a point and digits that
    [leadingFraction] reads back as [f / 10^k], the fraction of the unit. *)
Lemma fmtFrac_fraction (prec : nat) (v : Z) (buf : string) :
  0 ≤ v → (prec ≤ 9)%nat → v mod 10 ^ Z.of_nat prec ≠ 0 →
  match buf with EmptyString => True | String c _ => isDigit c = false end →
  ∃ frac f k,
    fmtFrac buf v prec = (String "." frac, v / 10 ^ Z.of_nat prec) ∧
    leadingFraction frac = (f, 10 ^ k, buf) ∧
    (String.length buf < String.length frac)%nat ∧
    0 ≤ k ≤ Z.of_nat prec ∧ 0 < f < 10 ^ k ∧
    f * 10 ^ (Z.of_nat prec - k) = v mod 10 ^ Z.of_nat prec.
Proof.
  intros Hv Hprec Hmod Hbuf.
  destruct (fmtFracLoop_fraction prec v buf Hv Hmod) as (t & Ht & Htz & Hloop).
  pose proof (Z.pow_pos_nonneg 10 (Z.of_nat t) ltac:(lia) ltac:(lia)) as Hpowt.
  pose proof (Z.pow_pos_nonneg 10 (Z.of_nat (prec - t)) ltac:(lia) ltac:(lia)) as Hpowk.
  assert (10 ^ Z.of_nat prec = 10 ^ Z.of_nat t * 10 ^ Z.of_nat (prec - t)) as Hsplit.
  { rewrite <- Z.pow_add_r by lia. f_equal. lia. }
  assert (10 ^ Z.of_nat (prec - t) ≤ 10 ^ 9) as Hk9.
  { apply Z.pow_le_mono_r; lia. }
  exists (digitsBefore (prec - t) (v / 10 ^ Z.of_nat t) buf),
    ((v / 10 ^ Z.of_nat t) mod 10 ^ Z.of_nat (prec - t)), (Z.of_nat (prec - t)).
  assert (v mod 10 ^ Z.of_nat prec
          = (v / 10 ^ Z.of_nat t) mod 10 ^ Z.of_nat (prec - t) * 10 ^ Z.of_nat t) as Hfrac.
  { rewrite Hsplit, Z.rem_mul_r by lia. lia. }
  pose proof (Z.mod_pos_bound (v / 10 ^ Z.of_nat t) (10 ^ Z.of_nat (prec - t)) Hpowk) as Hf.
  split; [unfold fmtFrac; by rewrite Hloop|]. split.
  { unfold leadingFraction. rewrite leadingFractionFrom_digitsBefore.
    - rewrite Z.mul_0_l, Z.add_0_l, Z.mul_1_l. by apply leadingFractionFrom_stop.
    - apply Z.div_pos; lia.
    - lia.
    - change (2^63) with 9223372036854775808. change (10^9) with 1000000000 in Hk9. lia. }
  split; [rewrite digitsBefore_length; lia|].
  split; [lia|]. split.
  { split; [|lia]. destruct (decide ((v / 10 ^ Z.of_nat t) mod 10 ^ Z.of_nat (prec - t) = 0));
      [|lia]. exfalso. apply Hmod. rewrite Hfrac. lia. }
  replace (Z.of_nat prec - Z.of_nat (prec - t)) with (Z.of_nat t) by lia.
  symmetry. exact Hfrac.
Qed.

(** *** One segment: a number with a fraction and its unit *)
Lemma parse_segment_fraction (fuel : nat) (orig frac u rest : string)
    (w d f j k : Z) :
  leadingFraction frac = (f, 10 ^ k, u +:+ rest) →
  (String.length (u +:+ rest) < String.length frac)%nat →
  u ≠ "" → allBytes (λ c, negb (endsUnit c)) u = true →
  unitMap u = Some (10 ^ j) → atNumber rest →
  0 ≤ k ≤ j → j ≤ 9 → 0 < f < 10 ^ k →
  0 ≤ w → 0 ≤ d → d + w * 10 ^ j + f * 10 ^ (j - k) ≤ 2^63 →
  parseSegments fractionNanos (S fuel) orig (fmtInt (String "." frac) w) d =
    parseSegments fractionNanos fuel orig rest (d + w * 10 ^ j + f * 10 ^ (j - k)).
Proof.
  intros Hfrac Hlen Hne Hu Hunit Hrest Hk Hj Hf Hw Hd Hsum.
  pose proof (Z.pow_pos_nonneg 10 j ltac:(lia) ltac:(lia)) as Hpowj.
  pose proof (Z.pow_pos_nonneg 10 (j - k) ltac:(lia) ltac:(lia)) as Hpowjk.
  assert (w ≤ 2^63) as Hw63 by nia.
  pose proof (leadingInt_fmtInt w (String "." frac) (conj Hw Hw63) eq_refl) as Hint.
  destruct (fmtInt_shape w (String "." frac) Hw) as (c & r & Hshape & Hc & Hlenr).
  rewrite Hshape in *. cbn [parseSegments].
  rewrite Hc, orb_true_r. cbn [negb]. rewrite Hint.
  assert ((String.length (String c r) =? String.length (String "." frac))%nat = false)
    as -> by (apply Nat.eqb_neq; simpl in *; lia).
  cbv beta iota. change (Ascii.eqb "." ".") with true. cbv beta iota. rewrite Hfrac.
  assert ((String.length frac =? String.length (u +:+ rest))%nat = false)
    as -> by (apply Nat.eqb_neq; lia).
  cbn [negb andb].
  rewrite splitUnit_app by (try apply atNumber_endsUnit; done).
  rewrite decide_False by done. rewrite Hunit.
  assert ((2^63 / 10 ^ j <? w) = false) as ->.
  { apply Z.ltb_ge, Z.div_le_lower_bound; nia. }
  assert ((0 <? f) = true) as -> by (apply Z.ltb_lt; lia).
  rewrite (fractionNanos_exact f j k) by done.
  rewrite toUint64_small by nia.
  assert ((2^63 <? w * 10 ^ j + f * 10 ^ (j - k)) = false) as -> by (apply Z.ltb_ge; nia).
  cbn [andb].
  replace (d + (w * 10 ^ j + f * 10 ^ (j - k))) with (d + w * 10 ^ j + f * 10 ^ (j - k)) by lia.
  rewrite toUint64_small by nia.
  assert ((2^63 <? d + w * 10 ^ j + f * 10 ^ (j - k)) = false) as -> by (apply Z.ltb_ge; lia).
  reflexivity.
Qed.

(** The last segment of a rendering: [n] units and the fraction of a unit
    that [fmtFrac] split off [v]. *)
Lemma parse_last_segment (fuel : nat) (orig u : string) (prec : nat) (v n d : Z) :
  (prec ≤ 9)%nat → u ≠ "" → allBytes (λ c, negb (endsUnit c)) u = true →
  unitMap u = Some (10 ^ Z.of_nat prec) →
  0 ≤ v → 0 ≤ n → 0 ≤ d →
  d + n * 10 ^ Z.of_nat prec + v mod 10 ^ Z.of_nat prec ≤ 2^63 →
  (fmtFrac u v prec).2 = v / 10 ^ Z.of_nat prec ∧
  parseSegments fractionNanos (S fuel) orig (fmtInt (fmtFrac u v prec).1 n) d
  = inr (d + n * 10 ^ Z.of_nat prec + v mod 10 ^ Z.of_nat prec).
Proof.
  intros Hprec Hne Hu Hunit Hv Hn Hd Hsum.
  pose proof (Z.pow_pos_nonneg 10 (Z.of_nat prec) ltac:(lia) ltac:(lia)) as Hpow.
  destruct (decide (v mod 10 ^ Z.of_nat prec = 0)) as [Hwhole|Hfraction].
  - rewrite fmtFrac_whole by done. split; [done|]. cbn [fst].
    rewrite (parse_segment fractionNanos _ _ u u "" n (10 ^ Z.of_nat prec) d);
      try done; try lia; [|by rewrite string_app_empty_r].
    rewrite parseSegments_empty. f_equal. lia.
  - destruct (fmtFrac_fraction prec v u Hv Hprec Hfraction)
      as (frac & f & k & -> & Hread & Hlen & Hk & Hf & Hvalue).
    { destruct u as [|c u']; [done|]. simpl in Hu. apply andb_true_iff in Hu as [Hc _].
      apply negb_true_iff in Hc. unfold endsUnit in Hc.
      by apply orb_false_iff in Hc as [_ ?]. }
    split; [done|]. cbn [fst].
    rewrite (parse_segment_fraction _ _ frac u "" n d f (Z.of_nat prec) k);
      try done; try lia; rewrite ?string_app_empty_r; try done.
    rewrite parseSegments_empty. f_equal. lia.
Qed.

(** The parser reads back the magnitude the formatter wrote, fraction
    included. *)
Lemma parse_formatMagnitude_fraction (u : Z) (orig : string) (fuel : nat) :
  0 < u ≤ 2^63 →
  (String.length (formatMagnitude u) ≤ fuel)%nat →
  parseSegments fractionNanos fuel orig (formatMagnitude u) 0 = inr u.
Proof.
  intros Hu Hfuel.
  rewrite (parseSegments_fuel fractionNanos fuel (S (S (S fuel)))) by lia. clear Hfuel.
  unfold formatMagnitude.
  change Second with 1000000000 in *. change Millisecond with 1000000 in *.
  change Microsecond with 1000 in *.
  assert (∀ (prec : nat) (unit : string),
            (prec ≤ 9)%nat → unit ≠ "" → allBytes (λ c, negb (endsUnit c)) unit = true →
            unitMap unit = Some (10 ^ Z.of_nat prec) →
            parseSegments fractionNanos (S (S (S fuel))) orig
              (let '(buf, w) := fmtFrac unit u prec in fmtInt buf w) 0 = inr u) as Hone.
  { intros prec unit Hprec Hne Hbytes Hunit.
    pose proof (Z.pow_pos_nonneg 10 (Z.of_nat prec) ltac:(lia) ltac:(lia)) as Hpow.
    pose proof (Z.div_mod u (10 ^ Z.of_nat prec) ltac:(lia)) as Hdiv.
    assert (0 ≤ u / 10 ^ Z.of_nat prec) by (apply Z.div_pos; lia).
    destruct (parse_last_segment (S (S fuel)) orig unit prec u (u / 10 ^ Z.of_nat prec) 0)
      as [Hw Hparse]; try done; try lia.
    destruct (fmtFrac unit u prec) as [buf w]. cbn [fst snd] in Hw, Hparse. subst w.
    rewrite Hparse. f_equal. lia. }
  destruct (Z.ltb_spec u 1000000000) as [Hsec|Hsec].
  - destruct (Z.ltb_spec u 1000) as [Hmicro|Hmicro];
      [|destruct (Z.ltb_spec u 1000000) as [Hmilli|Hmilli]].
    + apply (Hone 0%nat "ns"); (done || lia).
    + apply (Hone 3%nat (microSign +:+ "s")); (done || lia).
    + apply (Hone 6%nat "ms"); (done || lia).
  - assert ((fmtFrac "s" u 9).2 = u / 1000000000) as Hw.
    { apply (parse_last_segment 0 orig "s" 9 u 0 0); try done; try lia.
      change (10 ^ Z.of_nat 9) with 1000000000.
      pose proof (Z.mod_pos_bound u 1000000000 ltac:(lia)). lia. }
    assert (∀ fl d, 0 ≤ d →
              d + u / 1000000000 mod 60 * 1000000000 + u mod 1000000000 ≤ 2^63 →
              parseSegments fractionNanos (S fl) orig
                (fmtInt (fmtFrac "s" u 9).1 (u / 1000000000 mod 60)) d
              = inr (d + u / 1000000000 mod 60 * 1000000000 + u mod 1000000000)) as Hparse.
    { intros fl d Hd Hbound.
      apply (parse_last_segment fl orig "s" 9 u (u / 1000000000 mod 60) d); try done; try lia.
      apply Z.mod_pos_bound. lia. }
    destruct (fmtFrac "s" u 9) as [buf w]. cbn [fst snd] in Hw, Hparse. subst w.
    pose proof (Z.div_mod u 1000000000 ltac:(lia)) as Hu9.
    pose proof (Z.mod_pos_bound u 1000000000 ltac:(lia)) as Hu9m.
    set (U := u / 1000000000) in *.
    assert (0 ≤ U) by (apply Z.div_pos; lia).
    pose proof (Z.div_mod U 60 ltac:(lia)) as HU.
    pose proof (Z.mod_pos_bound U 60 ltac:(lia)) as HUm.
    set (M := U / 60) in *.
    assert (0 ≤ M) by (apply Z.div_pos; lia).
    pose proof (Z.div_mod M 60 ltac:(lia)) as HM.
    pose proof (Z.mod_pos_bound M 60 ltac:(lia)) as HMm.
    set (Hrs := M / 60) in *.
    assert (0 ≤ Hrs) by (apply Z.div_pos; lia).
    cbv zeta.
    destruct (Z.ltb_spec 0 M) as [HMpos|HMzero];
      [destruct (Z.ltb_spec 0 Hrs) as [HHpos|HHzero]|].
    + rewrite (parse_segment fractionNanos _ _ _ "h"
                 (fmtInt (String "m" (fmtInt buf (U mod 60))) (M mod 60))
                 Hrs 3600000000000 0); try done; try lia; [|apply fmtInt_atNumber; lia].
      rewrite (parse_segment fractionNanos _ _ _ "m" (fmtInt buf (U mod 60)) (M mod 60)
                 60000000000);
        try done; try lia; [|apply fmtInt_atNumber; lia].
      rewrite Hparse by lia. f_equal. lia.
    + rewrite (parse_segment fractionNanos _ _ _ "m" (fmtInt buf (U mod 60)) (M mod 60)
                 60000000000 0);
        try done; try lia; [|apply fmtInt_atNumber; lia].
      rewrite Hparse by lia. f_equal. lia.
    + rewrite Hparse by lia. f_equal. lia.
Qed.

Lemma ParseDuration_magnitude_fraction (u : Z) (neg : bool) :
  0 < u ≤ 2^63 →
  ParseDuration fractionNanos
    (if neg then String "-" (formatMagnitude u) else formatMagnitude u)
  = if neg then inr (toInt64 (- toInt64 u))
    else if 2^63 - 1 <? u
         then inl (InvalidDuration (formatMagnitude u)) else inr u.
Proof.
  intros Hu.
  destruct (formatMagnitude_shape u ltac:(lia)) as (c & r & Hshape & Hc & Hr).
  assert (∀ orig, parseSegments fractionNanos (String.length (String c r)) orig (String c r) 0
                  = inr u) as Hparse.
  { intros orig. rewrite <- Hshape. by apply parse_formatMagnitude_fraction. }
  assert (String c r ≠ "0") as Hzero by (intros [= _ ->]; done).
  unfold ParseDuration. rewrite Hshape. destruct neg.
  - change (Ascii.eqb "-" "-" || Ascii.eqb "-" "+") with true. cbv beta iota.
    rewrite decide_False by done. rewrite decide_False by done.
    rewrite Hparse. reflexivity.
  - rewrite isDigit_not_sign by done. cbv beta iota.
    rewrite decide_False by done. rewrite decide_False by done.
    rewrite Hparse. reflexivity.
Qed.

(** Parsing reads back the rendering of every duration. *)
Lemma ParseDuration_Duration_String_fraction (d : Z) :
  -2^63 ≤ d < 2^63 →
  ParseDuration fractionNanos (Duration_String d) = inr d.
Proof.
  intros Hd. destruct (Z.lt_trichotomy d 0) as [Hneg|[->|Hpos]].
  - rewrite Duration_String_negative by lia.
    rewrite (ParseDuration_magnitude_fraction (- d) true) by lia.
    by rewrite toInt64_negate by lia.
  - reflexivity.
  - rewrite Duration_String_positive by lia.
    rewrite (ParseDuration_magnitude_fraction d false) by lia.
    assert ((2^63 - 1 <? d) = false) as -> by (apply Z.ltb_ge; lia). reflexivity.
Qed.
End FractionFacts.

(** *** float64 is exact on the fractions [Duration.String] prints *)

Lemma roundNearestEven_1 (n : Z) : float64.roundNearestEven n 1 = n.
Proof.
  unfold float64.roundNearestEven. rewrite Z.mod_1_r, Z.div_1_r. reflexivity.
Qed.

(** An integer below 2^53 is a float64. *)
Lemma round_integer (z : Z) : 0 < z < 2^53 → float64.round z 1 = (z, 1).
Proof.
  intros Hz. unfold float64.round, float64.floorLog2.
  destruct (Z.eqb_spec z 0) as [?|_]; [lia|].
  change (Z.log2 1) with 0. rewrite Z.sub_0_r.
  pose proof (Z.log2_spec z ltac:(lia)) as [Hlow Hhigh].
  pose proof (Z.log2_nonneg z) as Hlog.
  assert (Z.log2 z < 53) as Hlt.
  { apply Z.log2_lt_pow2; lia. }
  cbv zeta.
  assert ((0 <=? Z.log2 z) = true) as -> by (apply Z.leb_le; lia).
  assert ((1 * 2 ^ Z.log2 z <=? z) = true) as -> by (apply Z.leb_le; lia).
  destruct (Z.leb_spec 0 (Z.log2 z - 52)) as [He|He].
  - assert (Z.log2 z - 52 = 0) as -> by lia.
    change (1 * 2 ^ 0) with 1. rewrite roundNearestEven_1. f_equal. lia.
  - rewrite roundNearestEven_1.
    assert (0 < 2 ^ (- (Z.log2 z - 52))) by (apply Z.pow_pos_nonneg; lia).
    rewrite Z.mod_mul by lia. cbn [Z.eqb]. rewrite Z.div_mul by lia. reflexivity.
Qed.

(** The quotient of two powers of ten up to 10^9 is computed exactly. *)
Lemma div_powers_of_ten (j k : Z) :
  0 ≤ k ≤ j → j ≤ 9 →
  float64.div (10 ^ j, 1) (10 ^ k, 1) = (10 ^ (j - k), 1).
Proof.
  intros Hk Hj.
  assert (∀ n : nat, (n ≤ 9)%nat → ∀ m : nat, (m ≤ n)%nat →
            float64.div (10 ^ Z.of_nat n, 1) (10 ^ Z.of_nat m, 1)
            = (10 ^ (Z.of_nat n - Z.of_nat m), 1)) as Hall.
  { intros n Hn m Hm.
    do 10 (destruct n as [|n];
      [do 10 (destruct m as [|m]; [first [lia | vm_compute; reflexivity]|]); lia|]).
    lia. }
  specialize (Hall (Z.to_nat j) ltac:(lia) (Z.to_nat k) ltac:(lia)).
  by rewrite !Z2Nat.id in Hall by lia.
Qed.

(** binary64 arithmetic computes the fractions [Duration.String] prints
    exactly: the operands, the quotient and the product are integers below
    2^53. *)
Lemma float64Fraction_exact : exactOnDecimals float64Fraction.
Proof.
  intros f j k Hk Hj Hf. unfold float64Fraction, float64.ofInt.
  assert (10 ^ k ≤ 10 ^ 9) as Hk9 by (apply Z.pow_le_mono_r; lia).
  assert (10 ^ j ≤ 10 ^ 9) as Hj9 by (apply Z.pow_le_mono_r; lia).
  assert (0 < 10 ^ k) as Hkpos by (apply Z.pow_pos_nonneg; lia).
  assert (0 < 10 ^ j) as Hjpos by (apply Z.pow_pos_nonneg; lia).
  assert (0 < 10 ^ (j - k)) as Hjkpos by (apply Z.pow_pos_nonneg; lia).
  assert (10 ^ j = 10 ^ (j - k) * 10 ^ k) as Hsplit.
  { rewrite <- Z.pow_add_r by lia. f_equal. lia. }
  change (10 ^ 9) with 1000000000 in *.
  rewrite (round_integer f), (round_integer (10 ^ j)), (round_integer (10 ^ k))
    by (change (2 ^ 53) with 9007199254740992; lia).
  rewrite div_powers_of_ten by done.
  unfold float64.mul. cbn [fst snd]. rewrite Z.mul_1_l.
  rewrite round_integer by (change (2 ^ 53) with 9007199254740992; nia).
  unfold float64.toUint64. cbn [fst snd]. apply Z.div_1_r.
Qed.

(** [float64] computes what the binary64 floats of the proof assistant
    compute, on fractions that are exact and on fractions that round. *)
Example float64_agrees_with_primitive_floats :
  forallb (λ '(f, unit, scale), primFraction f unit scale =? float64Fraction f unit scale)
    fractionSamples = true.
Proof. vm_compute. reflexivity. Qed.

(** C9, as the source does it.  [MarshalJSON] writes the canonical
    rendering of [Duration.String], so a string round-trips through
    [UnmarshalJSON] then [MarshalJSON] exactly when it is canonical.  For
    every duration, with or without a fraction of its unit, unmarshalling
    what [MarshalJSON] wrote gives the duration back, so what it wrote
    round-trips; "100ms" and "1.5s" are such strings, and "10m" is accepted
    and written back as "10m0s".  The floating-point expression of a
    fraction is required to be exact on decimal fractions of at most nine
    digits ([exactOnDecimals]), as binary64 arithmetic is
    ([float64Fraction_exact]), and [json.Unmarshal] to read back the
    string [json.Marshal] wrote. *)
Theorem canonical_duration_round_trip (fractionNanos : Z → Z → Z → Z)
    (jsonMarshalString : string → string) (jsonUnmarshalString : string → option string)
    (d : Z) :
  exactOnDecimals fractionNanos →
  (∀ s, jsonUnmarshalString (jsonMarshalString s) = Some s) →
  -2^63 ≤ d < 2^63 →
  time.ParseDuration fractionNanos (time.Duration_String d) = inr d ∧
  UnmarshalJSON fractionNanos jsonUnmarshalString (MarshalJSON jsonMarshalString d) = inr d ∧
  (∀ bytes, bytes = MarshalJSON jsonMarshalString d →
     ∃ d', UnmarshalJSON fractionNanos jsonUnmarshalString bytes = inr d' ∧
           MarshalJSON jsonMarshalString d' = bytes) ∧
  (UnmarshalJSON fractionNanos jsonUnmarshalString (jsonMarshalString "100ms")
     = inr (100 * time.Millisecond) ∧
   MarshalJSON jsonMarshalString (100 * time.Millisecond) = jsonMarshalString "100ms") ∧
  (UnmarshalJSON fractionNanos jsonUnmarshalString (jsonMarshalString "1.5s")
     = inr (1500 * time.Millisecond) ∧
   MarshalJSON jsonMarshalString (1500 * time.Millisecond) = jsonMarshalString "1.5s") ∧
  (UnmarshalJSON fractionNanos jsonUnmarshalString (jsonMarshalString "10m")
     = inr (10 * time.Minute) ∧
   MarshalJSON jsonMarshalString (10 * time.Minute) = jsonMarshalString "10m0s").
Proof.
  intros Hexact Hjson Hd.
  assert (∀ d0, -2^63 ≤ d0 < 2^63 →
            UnmarshalJSON fractionNanos jsonUnmarshalString
              (jsonMarshalString (time.Duration_String d0)) = inr d0) as Hround.
  { intros d0 Hd0. unfold UnmarshalJSON. rewrite Hjson.
    by rewrite ParseDuration_Duration_String_fraction. }
  split; [by apply ParseDuration_Duration_String_fraction|].
  split; [by apply Hround|]. split.
  { intros bytes ->. exists d. split; [by apply Hround|done]. }
  split; [|split].
  - split; [|reflexivity]. apply (Hround (100 * time.Millisecond)). by vm_compute.
  - split; [|reflexivity]. apply (Hround (1500 * time.Millisecond)). by vm_compute.
  - split; [|reflexivity]. unfold UnmarshalJSON. rewrite Hjson. reflexivity.
Qed.


(** C9 fails on the source, whatever the floating-point fraction computes:
    "10m" is accepted, and formatted as "10m0s". *)
Lemma formatParseRoundTrip_fails : ¬ ∃ fractionNanos, formatParseRoundTrip fractionNanos.
Proof.
  intros [fractionNanos Hclaim].
  specialize (Hclaim "10m" (10 * time.Minute) eq_refl). discriminate Hclaim.
Qed.

Lemma canonical_duration_round_trip_witness :
  UnmarshalJSON float64Fraction Some (MarshalJSON id (1500 * time.Millisecond))
    = inr (1500 * time.Millisecond) ∧
  MarshalJSON id (1500 * time.Millisecond) = "1.5s".
Proof.
  split; [|reflexivity].
  apply (canonical_duration_round_trip float64Fraction id Some (1500 * time.Millisecond)).
  - exact float64Fraction_exact.
  - reflexivity.
  - vm_compute. split; [discriminate|reflexivity].
Defined.

(** ** The dispatch inside the loop always takes a branch *)
Section Dispatch.
Variable unicodeToUpper : string → string.
Variable env : gmap string string.
Variable Drivers : list string.
Variable sqlOpenErr : string → string → option string.

Lemma openAll_never_nil config specs dbs log :
  hasTopology config →
  (openAll unicodeToUpper env Drivers sqlOpenErr config specs dbs log).2 ≠ Err ErrNilHandle.
Proof.
  intros Htop. revert dbs log. induction specs as [|spec rest IH]; intros dbs log; [done|].
  destruct (decide (DSN config = "" ∧ specHasRole spec = false)) as [[Hd Hr]|Hok].
  { by rewrite openAll_cons_norole. }
  rewrite openAll_cons; [|done|].
  - destruct (sqlOpenErr _ _); [done|]. apply IH.
  - intros Hd. destruct (specHasRole spec) eqn:?; [done|]. destruct Hok; done.
Qed.

Lemma Open_never_nil config log :
  (Open unicodeToUpper env Drivers sqlOpenErr config log).2 ≠ Err ErrNilHandle.
Proof.
  unfold Open. case_decide as Hnone; [done|].
  assert (hasTopology config) as Htop.
  { unfold hasTopology.
    destruct (decide (DSN config = "")), (decide (Cluster config = "")),
      (decide (HACluster config = "")); tauto. }
  repeat case_decide; try done.
  destruct (validateDuplicateNames _) as [e|] eqn:Hdup.
  - apply validateDuplicateNames_Some in Hdup as (? & ? & ? & _ & -> & _). done.
  - by apply openAll_never_nil.
Qed.
End Dispatch.

(** ** The JSON encoding of [Duration] *)
Section DurationJSONFacts.
Variable fractionNanos : Z → Z → Z → Z.
Variable jsonMarshalString : string → string.
Variable jsonUnmarshalString : string → option string.
(** [json.Unmarshal] reads back the string [json.Marshal] wrote. *)
Hypothesis json_round_trip : ∀ s, jsonUnmarshalString (jsonMarshalString s) = Some s.

(** Marshalling then unmarshalling a whole-unit duration gives it back. *)
Lemma UnmarshalJSON_MarshalJSON (d : Z) :
  -2^63 ≤ d < 2^63 → wholeUnits d = true →
  UnmarshalJSON fractionNanos jsonUnmarshalString (MarshalJSON jsonMarshalString d) = inr d.
Proof.
  intros Hd Hwhole. unfold UnmarshalJSON, MarshalJSON. rewrite json_round_trip.
  by rewrite ParseDuration_Duration_String.
Qed.

(** [TestDuration_UnmarshalJSON_InvalidDuration]. *)
Lemma UnmarshalJSON_invalid (bytes : string) :
  jsonUnmarshalString bytes = Some "foo" →
  UnmarshalJSON fractionNanos jsonUnmarshalString bytes = inl (InvalidDurationText "foo").
Proof. intros Hbytes. unfold UnmarshalJSON. rewrite Hbytes. reflexivity. Qed.
End DurationJSONFacts.

(** ** The package's tests *)
Section TestReplay.
Import Tests Fixtures.

(** [TestOpen_ConfigPreconditions]. *)
Example test_Open_ConfigPreconditions :
  errorOf <$> (run ∅ <$>
    [mkConfig "" "" "" "" [];
     mkConfig "foo" "bar" "" "" [];
     mkConfig "foo" "" "bar" "" [];
     mkConfig "" "foo" "bar" "" [];
     mkConfig "foo" "" "" "schema" [];
     mkConfig "" "foo" "" "" [];
     mkConfig "foo" "" "" "" [];
     mkConfig "foo" "" "" "" [conn "foo" false false ""; conn "foo" false false ""];
     mkConfig "" "DB_MYSQL_DESAENV08_FOO" "" "bar" [conn "foo" false false ""]])
  = Some <$>
    ["invalid MySQL config: DSN, Cluster and HACluster are empty";
     "invalid MySQL config: DSN is mutually exclusive with Cluster and HACluster";
     "invalid MySQL config: DSN is mutually exclusive with Cluster and HACluster";
     "invalid MySQL config: Cluster is mutually exclusive with HACluster";
     "invalid MySQL config: DSN is mutually exclusive with Schema since the schema is already defined in the DSN";
     "invalid MySQL config: when DSN is empty the Schema must be defined";
     "invalid MySQL config: no connections defined";
     "invalid MySQL config: duplicated connection name " +:+ quoteName "foo";
     "invalid MySQL config: cannot write to a replica: connection " +:+ quoteName "foo"].
Proof. vm_compute. reflexivity. Qed.

(** [TestOpen], the two single-cluster and the two HA cases. *)
Example test_Open_cluster :
  [dsnOf (run envSingleMaster configSingleMaster) "foo";
   dsnOf (run (<["DB_MYSQL_DESAENV08_BAR_BAR_LOCAL_REPLICA_ENDPOINT" := "localhost:3306"]>
                 (<["DB_MYSQL_DESAENV08_BAR_BAR_RPROD" := "password"]> ∅))
            (mkConfig "" "desaenv08" "" "bar" [specReadOnly])) "foo";
   dsnOf (run (<["DB_HA_MYSQL_DESAENV08_BAR_BAR_WR_ENDPOINT" := "localhost:3306"]>
                 (<["DB_HA_MYSQL_DESAENV08_BAR_BAR_WPROD" := "password"]> ∅))
            (mkConfig "" "" "desaenv08" "bar" [specMaster])) "foo";
   dsnOf (run envHAReadOnly configHAReadOnly) "foo"]
  = Some <$>
    ["bar_WPROD:password@tcp(localhost:3306)/bar?" +:+ params;
     "bar_RPROD:password@tcp(localhost:3306)/bar?" +:+ params;
     "bar_WPROD:password@tcp(localhost:3306)/bar?" +:+ params;
     "bar_RPROD:password@tcp(localhost:3306)/bar?" +:+ params].
Proof. vm_compute. reflexivity. Qed.

(** [TestOpen], "use DSN, parameters are ignored". *)
Example test_Open_DSN :
  dsnOf (run ∅ configDirect) "foo" = Some "root:password@tcp(localhost:3306)/foo".
Proof. vm_compute. reflexivity. Qed.

(** [TestConnections_Close]: every close succeeds. *)
Example test_Close_ok :
  Close mockClose
    (registryOf (run ∅ (mkConfig "root:password@tcp(localhost:3306)/foo" "" "" ""
       [conn "foo" false false ""; conn "bar" false false ""; conn "baz" false false ""])))
  = (["bar"; "baz"; "foo"], None).
Proof. vm_compute. reflexivity. Qed.

(** [TestDuration_MarshalJSON] and [TestDuration_UnmarshalJSON], on the
    duration string. *)
Example test_Duration_100ms :
  time.Duration_String (100 * time.Millisecond) = "100ms" ∧
  time.ParseDuration (λ _ _ _, 0) "100ms" = inr (100 * time.Millisecond) ∧
  time.ParseDuration (λ _ _ _, 0) "foo" = inl (time.InvalidDuration "foo").
Proof. repeat split. Qed.
End TestReplay.

(** * Further properties of the package *)

(** ** The registry [Open] returns, through [Get], [List] and [Close] *)
Section RegistryUse.
Variable unicodeToUpper : string → string.
Variable env : gmap string string.
Variable Drivers : list string.
Variable sqlOpenErr : string → string → option string.


Lemma getDriverName_cases :
  getDriverName Drivers = if decide ("nrmysql" ∈ Drivers) then "nrmysql" else "mysql".
Proof.
  unfold getDriverName. case_decide as Hin.
  - assert (existsb (String.eqb "nrmysql") Drivers = true) as ->; [|done].
    apply existsb_exists. exists "nrmysql". split; [by apply list_elem_of_In|].
    apply String.eqb_refl.
  - destruct (existsb _ _) eqn:Hex; [|done]. exfalso. apply Hin.
    apply existsb_exists in Hex as (name & Hname & Heq).
    apply String.eqb_eq in Heq as <-. by apply list_elem_of_In.
Qed.

(** The entries of the registered map are the specs' names and handles. *)
Lemma registerAll_to_list config specs (dbs : gmap string DB) :
  NoDup (Name <$> specs) →
  (∀ spec, spec ∈ specs → dbs !! Name spec = None) →
  map_to_list (registerAll unicodeToUpper env Drivers config specs dbs) ≡ₚ
    ((λ spec, (Name spec, handleOf unicodeToUpper env Drivers config spec)) <$> specs)
    ++ map_to_list dbs.
Proof.
  revert dbs. induction specs as [|c rest IH]; intros dbs Hnd Hfresh; [done|].
  rewrite fmap_cons in Hnd. apply NoDup_cons in Hnd as [Hc Hnd].
  rewrite registerAll_cons, IH; [| done |].
  - rewrite map_to_list_insert by (apply Hfresh; left).
    rewrite fmap_cons. simpl. by rewrite Permutation_middle.
  - intros spec Hspec. rewrite lookup_insert_ne.
    + apply Hfresh. by right.
    + intros Heq. apply Hc. rewrite Heq. apply list_elem_of_fmap. eauto.
Qed.

Lemma Open_Ok_to_list config log log' reg :
  Open unicodeToUpper env Drivers sqlOpenErr config log = (log', Ok reg) →
  map_to_list reg ≡ₚ
    (λ spec, (Name spec, handleOf unicodeToUpper env Drivers config spec))
      <$> Connections config.
Proof.
  intros (Hval & _ & -> & _)%Open_Ok.
  destruct Hval as (_ & _ & _ & H4). apply bool_decide_eq_true in H4.
  rewrite registerAll_to_list, map_to_list_empty, app_nil_r; done.
Qed.

(** X1. On the registry [Open] returned, [Get] finds a handle exactly for
    the names of the configured specs, and the handle is the one opened for
    the spec of that name; for every other name it returns the error
    "unknown connection name " followed by the name. *)
Theorem get_after_open config log log' reg name :
  Open unicodeToUpper env Drivers sqlOpenErr config log = (log', Ok reg) →
  match Get reg name with
  | inl h =>
      ∃ spec, spec ∈ Connections config ∧ Name spec = name ∧
        h = handleOf unicodeToUpper env Drivers config spec
  | inr err =>
      (name ∉ Name <$> Connections config) ∧
      err = ("unknown connection name " +:+ name)
  end.
Proof.
  intros Hrun. unfold Get. destruct (reg !! name) as [h|] eqn:Hlookup.
  - destruct (Open_Ok_lookup_inv _ _ _ _ _ _ _ _ _ _ Hrun Hlookup) as (spec & ? & ? & ?).
    exists spec. done.
  - split; [|done]. intros (spec & -> & Hin)%list_elem_of_fmap.
    rewrite (Open_Ok_lookup _ _ _ _ _ _ _ _ _ Hrun Hin) in Hlookup. done.
Qed.

(** X2. On the registry [Open] returned, [List] holds one handle for every
    configured spec and nothing else: it is a rearrangement of the handles
    opened for the specs, so it is as long as the connection list. *)
Theorem list_after_open config log log' reg :
  Open unicodeToUpper env Drivers sqlOpenErr config log = (log', Ok reg) →
  List reg ≡ₚ handleOf unicodeToUpper env Drivers config <$> Connections config ∧
  length (List reg) = length (Connections config).
Proof.
  intros Hrun.
  assert (List reg ≡ₚ handleOf unicodeToUpper env Drivers config <$> Connections config)
    as Hperm.
  { unfold List. rewrite (Open_Ok_to_list _ _ _ _ Hrun), <- list_fmap_compose.
    apply Permutation_refl. }
  split; [done|]. by rewrite Hperm, length_fmap.
Qed.

(** X4. On the registry [Open] returned, [Close] closes the handles of the
    configured specs, each once, in ascending order of the names of the
    configuration, whatever order [maps.Keys] returns them in; it returns
    nil exactly when the handle of every spec closes without error. *)
Theorem close_after_open dbClose config log log' reg names :
  Open unicodeToUpper env Drivers sqlOpenErr config log = (log', Ok reg) →
  names ≡ₚ Keys reg →
  (CloseFrom dbClose reg names).1 = sortStrings (Name <$> Connections config) ∧
  ((CloseFrom dbClose reg names).2 = None ↔
   ∀ spec, spec ∈ Connections config →
     dbClose (handleOf unicodeToUpper env Drivers config spec) = None).
Proof.
  intros Hrun Hperm.
  assert (Keys reg ≡ₚ Name <$> Connections config) as Hkeys.
  { unfold Keys. rewrite (Open_Ok_to_list _ _ _ _ Hrun), <- list_fmap_compose.
    apply Permutation_refl. }
  assert (sortStrings names = sortStrings (Name <$> Connections config)) as Hsorted.
  { apply sortStrings_unique. by rewrite Hperm. }
  unfold CloseFrom. rewrite closeEach_spec, Hsorted. simpl. split; [done|].
  set (sorted := sortStrings (Name <$> Connections config)).
  assert (closeFailures dbClose reg sorted = [] ↔
          ∀ spec, spec ∈ Connections config →
            dbClose (handleOf unicodeToUpper env Drivers config spec) = None) as Hnil.
  { rewrite closeFailures_nil. split.
    - intros Hall spec Hin.
      rewrite <- (lookup_total_correct reg (Name spec) _
                    (Open_Ok_lookup _ _ _ _ _ _ _ _ _ Hrun Hin)).
      apply Hall. unfold sorted. rewrite sortStrings_Permutation.
      apply list_elem_of_fmap. eauto.
    - intros Hall name Hname. unfold sorted in Hname.
      rewrite sortStrings_Permutation in Hname.
      apply list_elem_of_fmap in Hname as (spec & -> & Hin).
      rewrite (lookup_total_correct reg (Name spec) _
                 (Open_Ok_lookup _ _ _ _ _ _ _ _ _ Hrun Hin)).
      by apply Hall. }
  rewrite <- Hnil. case_decide as Hlen.
  - split; [done|]. intros Hempty. rewrite Hempty in Hlen. simpl in Hlen. lia.
  - split; [|done]. intros _. destruct (closeFailures _ _ _); [done|]. simpl in Hlen. lia.
Qed.

(** X5. Every handle of the registry [Open] returned was opened with the
    same driver: "nrmysql" when that name is among the registered drivers,
    "mysql" otherwise, whatever else is registered. *)
Theorem registry_driver config log log' reg name h :
  Open unicodeToUpper env Drivers sqlOpenErr config log = (log', Ok reg) →
  reg !! name = Some h →
  db_driver h = if decide ("nrmysql" ∈ Drivers) then "nrmysql" else "mysql".
Proof.
  intros Hrun Hh.
  destruct (Open_Ok_lookup_inv _ _ _ _ _ _ _ _ _ _ Hrun Hh) as (spec & _ & _ & ->).
  unfold handleOf. rewrite applyPool_driver. simpl. apply getDriverName_cases.
Qed.

Lemma openAll_app_accepted config before rest dbs log :
  hasTopology config →
  (DSN config = "" → Forall (λ spec, specHasRole spec = true) before) →
  Forall (accepted unicodeToUpper env Drivers sqlOpenErr config) before →
  openAll unicodeToUpper env Drivers sqlOpenErr config (before ++ rest) dbs log =
  openAll unicodeToUpper env Drivers sqlOpenErr config rest
    (registerAll unicodeToUpper env Drivers config before dbs)
    (log ++ (connectionString unicodeToUpper env config <$> before)).
Proof.
  intros Htop. revert dbs log.
  induction before as [|c before IH]; intros dbs log Hroles Hacc.
  - simpl. by rewrite app_nil_r.
  - apply Forall_cons in Hacc as [Hc Hacc].
    rewrite <- app_comm_cons, openAll_cons; [|done|].
    + unfold accepted in Hc. rewrite Hc, IH; [|naive_solver eauto using Forall_inv_tail|done].
      by rewrite registerAll_cons, fmap_cons, <- app_assoc.
    + intros Hd. specialize (Hroles Hd). by apply Forall_cons in Hroles as [? _].
Qed.

(** X3. When the driver rejects a connection string, [Open] stops there:
    it returns the driver's error for the first rejected spec and no
    registry, having called [sql.Open] for the specs up to that one, in
    order, and for none after it. *)
Theorem open_aborts_at_first_driver_error config before spec after msg log :
  validated config →
  Connections config = before ++ spec :: after →
  (DSN config = "" → Forall (λ c, specHasRole c = true) (before ++ [spec])) →
  Forall (accepted unicodeToUpper env Drivers sqlOpenErr config) before →
  sqlOpenErr (getDriverName Drivers) (connectionString unicodeToUpper env config spec)
    = Some msg →
  Open unicodeToUpper env Drivers sqlOpenErr config log =
    (log ++ (connectionString unicodeToUpper env config <$> before ++ [spec]),
     Err (ErrDriver msg)).
Proof.
  intros Hval Hspecs Hroles Hacc Hrefused.
  pose proof (inv1_hasTopology _ (proj1 Hval)) as Htop.
  rewrite Open_validated, Hspecs by done.
  rewrite openAll_app_accepted; [|done| |done].
  - rewrite openAll_cons; [|done|].
    + rewrite Hrefused. by rewrite fmap_app, app_assoc.
    + intros Hd. specialize (Hroles Hd). apply Forall_app in Hroles as [_ Hs].
      by apply Forall_cons in Hs as [? _].
  - intros Hd. specialize (Hroles Hd). by apply Forall_app in Hroles as [? _].
Qed.
End RegistryUse.

(** ** [validateDuplicateNames] *)

(** X6. [validateDuplicateNames] returns nil exactly when the names of the
    connections are pairwise distinct.  Otherwise its error names the first
    connection, in list order, whose name an earlier connection carries:
    the names before it are pairwise distinct. *)
Theorem validateDuplicateNames_first_repeat (connections : list Connection) :
  (validateDuplicateNames connections = None ↔ NoDup (Name <$> connections)) ∧
  (∀ err, validateDuplicateNames connections = Some err →
     ∃ i j ci cj,
       (i < j)%nat ∧ connections !! i = Some ci ∧ connections !! j = Some cj ∧
       Name ci = Name cj ∧ err = ErrDuplicatedName (Name cj) ∧
       NoDup (Name <$> take j connections)).
Proof.
  split; [apply validateDuplicateNames_None|].
  intros err (before & c & after & -> & -> & Hnd & Hc)%validateDuplicateNames_Some.
  apply list_elem_of_fmap in Hc as (ci & Hname & Hci).
  apply list_elem_of_lookup in Hci as (i & Hi).
  exists i, (length before), ci, c.
  pose proof (lookup_lt_Some _ _ _ Hi) as Hlt.
  split; [done|]. split; [by rewrite lookup_app_l|].
  split; [by rewrite list_lookup_middle|]. split; [done|]. split; [done|].
  by rewrite take_app_length.
Qed.

(** ** Letter case of the cluster name *)
Section ClusterCase.
Variable unicodeToUpper : string → string.
Variable env : gmap string string.
Variable Drivers : list string.
Variable sqlOpenErr : string → string → option string.

Lemma upperByte_ascii (c : ascii) :
  isASCIIByte c = true →
  isASCIIByte (upperByte c) = true ∧ isLowerByte (upperByte c) = false.
Proof. destruct c as [[] [] [] [] [] [] [] []]; done. Qed.

Lemma mapBytes_upper_ascii (s : string) :
  allBytes isASCIIByte s = true →
  allBytes isASCIIByte (mapBytes upperByte s) = true ∧
  anyByte isLowerByte (mapBytes upperByte s) = false.
Proof.
  induction s as [|c s IH]; [done|]. cbn [allBytes anyByte mapBytes].
  intros [Hc Hs]%andb_true_iff. destruct (upperByte_ascii c Hc) as [-> ->].
  destruct (IH Hs) as [-> ->]. done.
Qed.

(** On an ASCII string [strings.ToUpper] changes nothing the second time. *)
Lemma ToUpper_idempotent (s : string) :
  allBytes isASCIIByte s = true →
  ToUpper unicodeToUpper (ToUpper unicodeToUpper s) = ToUpper unicodeToUpper s.
Proof.
  intros Hs.
  assert (ToUpper unicodeToUpper s
          = if anyByte isLowerByte s then mapBytes upperByte s else s) as ->.
  { unfold ToUpper. rewrite Hs. by destruct (anyByte isLowerByte s). }
  destruct (anyByte isLowerByte s) eqn:Hlower.
  - destruct (mapBytes_upper_ascii s Hs) as [Hascii Hnone].
    unfold ToUpper. by rewrite Hascii, Hnone.
  - unfold ToUpper. by rewrite Hs, Hlower.
Qed.

(** X7. The connection string of a cluster mode does not depend on the
    letter case of an ASCII cluster name: [openMySQL] and [openMySQLHA]
    behave on a cluster name as on its upper-case form, because only the
    upper-case form enters the names of the variables they read. *)
Theorem cluster_name_case_insensitive (cluster schema : string) (spec : Connection) :
  allBytes isASCIIByte cluster = true →
  openMySQL unicodeToUpper env Drivers sqlOpenErr (ToUpper unicodeToUpper cluster) schema spec
    = openMySQL unicodeToUpper env Drivers sqlOpenErr cluster schema spec ∧
  openMySQLHA unicodeToUpper env Drivers sqlOpenErr (ToUpper unicodeToUpper cluster) schema spec
    = openMySQLHA unicodeToUpper env Drivers sqlOpenErr cluster schema spec.
Proof.
  intros Hascii. unfold openMySQL, openMySQLHA.
  rewrite ToUpper_idempotent by done. done.
Qed.
End ClusterCase.

(** ** The further properties at the configurations of the tests *)
Section MoreInstances.
Import Tests Fixtures MoreFixtures.

Lemma get_after_open_witness :
  (∃ h, Get (registryOf (run envSingleMaster configSingleMaster)) "foo" = inl h) ∧
  Get (registryOf (run envSingleMaster configSingleMaster)) "bar"
    = inr "unknown connection name bar".
Proof.
  pose proof (get_after_open id envSingleMaster mockDrivers mockOpenErr configSingleMaster []
                (run envSingleMaster configSingleMaster).1
                (registryOf (run envSingleMaster configSingleMaster))) as Hget.
  split.
  - specialize (Hget "foo" ltac:(vm_compute; reflexivity)).
    destruct (Get _ "foo") as [h|err] eqn:Hfoo; [by exists h|].
    destruct Hget as [Hnot _]. exfalso. apply Hnot. apply list_elem_of_here.
  - specialize (Hget "bar" ltac:(vm_compute; reflexivity)).
    destruct (Get _ "bar") as [h|err] eqn:Hbar.
    + destruct Hget as (spec & Hin & Hname & _).
      apply list_elem_of_singleton in Hin as ->. discriminate Hname.
    + destruct Hget as [_ ->]. reflexivity.
Defined.

Lemma list_after_open_witness :
  length (List (registryOf (run ∅ configThreeDirect))) = 3%nat.
Proof.
  apply (list_after_open id ∅ mockDrivers mockOpenErr configThreeDirect []
           (run ∅ configThreeDirect).1 (registryOf (run ∅ configThreeDirect))).
  vm_compute. reflexivity.
Defined.

Lemma close_after_open_witness :
  (Close mockClose (registryOf (run ∅ configThreeDirect))).1 = ["bar"; "baz"; "foo"].
Proof.
  destruct (close_after_open id ∅ mockDrivers mockOpenErr mockClose configThreeDirect []
              (run ∅ configThreeDirect).1 (registryOf (run ∅ configThreeDirect))
              (Keys (registryOf (run ∅ configThreeDirect)))) as [Hclosed _].
  - vm_compute. reflexivity.
  - reflexivity.
  - unfold Close. rewrite Hclosed. vm_compute. reflexivity.
Defined.

Lemma registry_driver_witness :
  ∃ h, registryOf (run ∅ configDirect) !! "foo" = Some h ∧ db_driver h = "mysql".
Proof.
  assert (registryOf (run ∅ configDirect) !! "foo"
          = Some (newDB "mysql" "root:password@tcp(localhost:3306)/foo")) as Hfoo
    by (vm_compute; reflexivity).
  eexists. split; [exact Hfoo|].
  rewrite (registry_driver id ∅ mockDrivers mockOpenErr configDirect []
             (run ∅ configDirect).1 (registryOf (run ∅ configDirect)) "foo" _
             ltac:(vm_compute; reflexivity) Hfoo).
  reflexivity.
Defined.

Lemma open_aborts_at_first_driver_error_witness :
  Open id ∅ mockDrivers refusingOpenErr configSecondRefused []
    = (["bar_WPROD:@tcp()/bar"; "bar_WPROD:@tcp()/bar?refused"],
       Err (ErrDriver "sql: refused")).
Proof.
  rewrite (open_aborts_at_first_driver_error id ∅ mockDrivers refusingOpenErr
             configSecondRefused [conn "a" true false ""] (conn "b" true false "refused")
             [conn "c" true false ""] "sql: refused" []).
  - vm_compute. reflexivity.
  - repeat split; vm_compute; reflexivity.
  - reflexivity.
  - intros _. repeat constructor.
  - repeat constructor.
  - vm_compute. reflexivity.
Defined.

Lemma cluster_name_case_insensitive_witness :
  openMySQL id envSingleMaster mockDrivers mockOpenErr "DESAENV08" "bar" specMaster
    = openMySQL id envSingleMaster mockDrivers mockOpenErr "desaenv08" "bar" specMaster.
Proof.
  apply (cluster_name_case_insensitive id envSingleMaster mockDrivers mockOpenErr
           "desaenv08" "bar" specMaster).
  reflexivity.
Defined.
End MoreInstances.

Lemma validateDuplicateNames_first_repeat_witness :
  ∃ i j ci cj,
    (i < j)%nat ∧
    [Tests.conn "foo" false false ""; Tests.conn "bar" false false "";
     Tests.conn "foo" true false ""] !! i = Some ci ∧
    [Tests.conn "foo" false false ""; Tests.conn "bar" false false "";
     Tests.conn "foo" true false ""] !! j = Some cj ∧
    Name ci = Name cj ∧ ErrDuplicatedName "foo" = ErrDuplicatedName (Name cj) ∧
    NoDup (Name <$> take j
      [Tests.conn "foo" false false ""; Tests.conn "bar" false false "";
       Tests.conn "foo" true false ""]).
Proof.
  apply (proj2 (validateDuplicateNames_first_repeat
                  [Tests.conn "foo" false false ""; Tests.conn "bar" false false "";
                   Tests.conn "foo" true false ""])).
  vm_compute. reflexivity.
Defined.

(** ** What [UnmarshalJSON] accepts *)
Section UnmarshalFacts.
Import time.
Variable fractionNanos : Z → Z → Z → Z.
Variable jsonUnmarshalString : string → option string.

Lemma leadingIntFrom_all_digits (x : Z) (s : string) :
  allBytes isDigit s = true →
  leadingIntFrom x s = None ∨ ∃ v, leadingIntFrom x s = Some (v, "").
Proof.
  revert x. induction s as [|c s IH]; intros x; simpl; [eauto|].
  intros [-> Hs]%andb_true_iff.
  destruct (2 ^ 63 / 10 <? x); [auto|].
  destruct (2 ^ 63 <? x * 10 + digitValue c); [auto|]. by apply IH.
Qed.

(** A number without a unit is no duration, except "0". *)
Lemma ParseDuration_bare_number (s : string) :
  s ≠ "" → allBytes isDigit s = true → s ≠ "0" →
  ∃ e, ParseDuration fractionNanos s = inl e.
Proof.
  intros Hne Hdigits Hzero. destruct s as [|c r]; [done|].
  pose proof Hdigits as Hc. simpl in Hc. apply andb_true_iff in Hc as [Hc _].
  unfold ParseDuration. rewrite isDigit_not_sign by done.
  rewrite decide_False by done. rewrite decide_False by done.
  cbn [String.length parseSegments]. rewrite Hc, orb_true_r. cbn [negb].
  unfold leadingInt.
  destruct (leadingIntFrom_all_digits 0 (String c r) Hdigits) as [->|[v ->]]; [eauto|].
  cbn. eauto.
Qed.

(** X8. [UnmarshalJSON] rejects a JSON string that holds only digits, with
    the error "invalid duration" carrying the string: a duration needs a
    unit.  The one exception is "0", which is the zero duration. *)
Theorem UnmarshalJSON_needs_unit (bytes s : string) :
  jsonUnmarshalString bytes = Some s →
  s ≠ "" → allBytes isDigit s = true →
  UnmarshalJSON fractionNanos jsonUnmarshalString bytes =
    if decide (s = "0") then inr 0 else inl (InvalidDurationText s).
Proof.
  intros Hbytes Hne Hdigits. unfold UnmarshalJSON. rewrite Hbytes.
  case_decide as Hzero; [by subst s|].
  destruct (ParseDuration_bare_number s Hne Hdigits Hzero) as [e ->]. reflexivity.
Qed.

(** The sum the loop of [ParseDuration] carries stays within 2^63. *)
Lemma parseSegments_bound (fuel : nat) (orig s : string) (d d' : Z) :
  0 ≤ d ≤ 2^63 →
  parseSegments fractionNanos fuel orig s d = inr d' → 0 ≤ d' ≤ 2^63.
Proof.
  revert s d. induction fuel as [|fuel IH]; intros s d Hd.
  - destruct s; simpl; intros [= <-]; done.
  - destruct s as [|c0 s0]; [simpl; intros [= <-]; done|].
    cbn [parseSegments].
    destruct (negb (Ascii.eqb c0 "." || isDigit c0)); [done|].
    destruct (leadingInt (String c0 s0)) as [[v s1]|]; [|done].
    destruct (match s1 with
              | String c s1' =>
                  if Ascii.eqb c "." then
                    let '(f, scale, rest) := leadingFraction s1' in
                    (f, scale, rest, negb (String.length s1' =? String.length rest)%nat)
                  else (0, 1, s1, false)
              | EmptyString => (0, 1, s1, false)
              end) as [[[f scale] s2] post].
    destruct (negb _ && negb post); [done|].
    destruct (splitUnit s2) as [u s3].
    case_decide; [done|].
    destruct (unitMap u) as [unit|]; [|done].
    destruct (2 ^ 63 / unit <? v); [done|].
    destruct ((0 <? f) && _); [done|].
    destruct (2 ^ 63 <? toUint64 _) eqn:Hcheck; [done|].
    apply IH. apply Z.ltb_ge in Hcheck. split; [|done].
    unfold toUint64. apply Z.mod_pos_bound. lia.
Qed.

Lemma toInt64_range (z : Z) : -2^63 ≤ toInt64 z < 2^63.
Proof. unfold toInt64. pose proof (Z.mod_pos_bound (z + 2^63) (2^64)). lia. Qed.

Lemma ParseDuration_range (s : string) (d : Z) :
  ParseDuration fractionNanos s = inr d → -2^63 ≤ d < 2^63.
Proof.
  unfold ParseDuration.
  destruct (match s with
            | String c s' =>
                if Ascii.eqb c "-" || Ascii.eqb c "+" then (Ascii.eqb c "-", s')
                else (false, s)
            | EmptyString => (false, s)
            end) as [neg s'].
  case_decide; [intros [= <-]; lia|]. case_decide; [done|].
  destruct (parseSegments _ _ _ _ _) as [e|d0] eqn:Hparse; [done|].
  apply parseSegments_bound in Hparse; [|lia].
  destruct neg.
  - intros [= <-]. apply toInt64_range.
  - destruct (Z.ltb_spec (2 ^ 63 - 1) d0); [done|]. intros [= <-]. lia.
Qed.

(** A duration [UnmarshalJSON] returns is an int64. *)
Lemma UnmarshalJSON_range (bytes : string) (d : Z) :
  UnmarshalJSON fractionNanos jsonUnmarshalString bytes = inr d → -2^63 ≤ d < 2^63.
Proof.
  unfold UnmarshalJSON. destruct (jsonUnmarshalString bytes) as [duration|]; [|done].
  destruct (ParseDuration fractionNanos duration) as [e|d0] eqn:Hparse; [done|].
  intros [= <-]. by apply ParseDuration_range in Hparse.
Qed.

(** *** A whole number and a unit *)

Lemma isDigit_digitValue (c : ascii) : isDigit c = true → 0 ≤ digitValue c ≤ 9.
Proof.
  destruct c as [[] [] [] [] [] [] [] []]; try discriminate; intros _; cbv; split; discriminate.
Qed.

Lemma decimalFrom_le (x : Z) (s : string) :
  allBytes isDigit s = true → 0 ≤ x → x ≤ decimalFrom x s.
Proof.
  revert x. induction s as [|c s IH]; intros x Hs Hx; simpl; [lia|].
  simpl in Hs. apply andb_true_iff in Hs as [Hc Hs]. apply isDigit_digitValue in Hc.
  specialize (IH (x * 10 + digitValue c) Hs). lia.
Qed.

(** [leadingInt] reads the digits as their decimal value, and fails exactly
    when the value exceeds 2^63. *)
Lemma leadingIntFrom_digits (x : Z) (digits rest : string) :
  allBytes isDigit digits = true → 0 ≤ x ≤ 2^63 →
  match rest with EmptyString => True | String c _ => isDigit c = false end →
  leadingIntFrom x (digits +:+ rest) =
    if decide (decimalFrom x digits ≤ 2^63) then Some (decimalFrom x digits, rest) else None.
Proof.
  intros Hdigits Hx Hrest. revert x Hx.
  induction digits as [|c digits IH]; intros x Hx.
  - change ("" +:+ rest) with rest. simpl decimalFrom. rewrite decide_True by lia.
    by apply leadingIntFrom_atNumber_stop.
  - simpl in Hdigits. apply andb_true_iff in Hdigits as [Hc Hdigits].
    change (String c digits +:+ rest) with (String c (digits +:+ rest)).
    simpl leadingIntFrom. simpl decimalFrom. rewrite Hc.
    pose proof (isDigit_digitValue c Hc) as Hv.
    pose proof (decimalFrom_le (x * 10 + digitValue c) digits Hdigits ltac:(lia)) as Hle.
    destruct (Z.ltb_spec (2^63 / 10) x) as [Hbig|Hsmall].
    + rewrite decide_False; [done|]. change (2^63 / 10) with 922337203685477580 in Hbig. lia.
    + destruct (Z.ltb_spec (2^63) (x * 10 + digitValue c)) as [Hbig|Hfits].
      * rewrite decide_False; [done|]. lia.
      * apply IH; [done|lia].
Qed.

Lemma unitMap_Some (u : string) (unit : Z) :
  unitMap u = Some unit →
  u ≠ "" ∧ allBytes (λ c, negb (endsUnit c)) u = true ∧ 0 < unit.
Proof.
  unfold unitMap. repeat case_decide; intros [= <-]; subst u; done.
Qed.

Lemma parseSegments_number_unit (fuel : nat) (orig digits u : string) (unit : Z) :
  digits ≠ "" → allBytes isDigit digits = true → unitMap u = Some unit →
  parseSegments fractionNanos (S fuel) orig (digits +:+ u) 0 =
    if decide (decimal digits * unit ≤ 2^63) then inr (decimal digits * unit)
    else inl (InvalidDuration orig).
Proof.
  intros Hne Hdigits Hunit.
  destruct (unitMap_Some u unit Hunit) as (Hu & Hbytes & Hpos).
  destruct u as [|cu u']; [done|]. clear Hu.
  pose proof Hbytes as Hcu. simpl in Hcu. apply andb_true_iff in Hcu as [Hcu _].
  apply negb_true_iff in Hcu. unfold endsUnit in Hcu.
  apply orb_false_iff in Hcu as [Hdot Hdigit].
  pose proof (leadingIntFrom_digits 0 digits (String cu u') Hdigits ltac:(lia) Hdigit) as Hint.
  fold (decimal digits) in Hint.
  pose proof (decimalFrom_le 0 digits Hdigits ltac:(lia)) as Hn. fold (decimal digits) in Hn.
  destruct digits as [|c0 ds]; [done|]. clear Hne.
  pose proof Hdigits as Hc0. simpl in Hc0. apply andb_true_iff in Hc0 as [Hc0 _].
  assert (String.length (String c0 ds +:+ String cu u') ≠ String.length (String cu u')) as Hlen.
  { rewrite string_app_length. simpl. lia. }
  revert Hint Hlen. generalize (decimal (String c0 ds)) Hn. intros n Hn0.
  change (String c0 ds +:+ String cu u') with (String c0 (ds +:+ String cu u')).
  intros Hint Hlen. cbn [parseSegments].
  rewrite Hc0, orb_true_r. cbn [negb]. unfold leadingInt. rewrite Hint.
  destruct (decide (n ≤ 2^63)) as [Hfits|Hbig].
  - apply Nat.eqb_neq in Hlen. rewrite Hlen. cbv beta iota. rewrite Hdot.
    cbv beta iota. cbn [negb andb].
    replace (String cu u') with (String cu u' +:+ "") at 1 by apply string_app_empty_r.
    rewrite splitUnit_app by done.
    rewrite decide_False by done. rewrite Hunit.
    change (0 <? 0) with false. cbn [andb]. rewrite Z.add_0_l.
    destruct (Z.ltb_spec (2^63 / unit) n) as [Hover|Hunder].
    + rewrite decide_False; [done|].
      intros Hle. assert (n ≤ 2^63 / unit) by (apply Z.div_le_lower_bound; lia). lia.
    + assert (n * unit ≤ 2^63) as Hle.
      { pose proof (Z.mul_div_le (2^63) unit Hpos). nia. }
      rewrite decide_True by done. rewrite toUint64_small by nia.
      assert ((2^63 <? n * unit) = false) as -> by (apply Z.ltb_ge; lia).
      apply parseSegments_empty.
  - rewrite decide_False; [done|]. nia.
Qed.

(** X9. On a JSON string that holds one segment, a whole number followed
    by a unit with or without a minus sign, [UnmarshalJSON] returns the
    exact product of the number and the unit when it is an int64 (at most
    2^63 - 1, or 2^63 below zero), and otherwise the error "invalid
    duration" carrying the string: on such a string it never returns a
    wrapped value. *)
Theorem UnmarshalJSON_number_unit (bytes : string) (neg : bool) (digits u : string)
    (unit : Z) :
  jsonUnmarshalString bytes = Some (signed neg digits u) →
  digits ≠ "" → allBytes isDigit digits = true → unitMap u = Some unit →
  UnmarshalJSON fractionNanos jsonUnmarshalString bytes =
    let n := decimal digits * unit in
    if decide (n ≤ (if neg then 2^63 else 2^63 - 1))
    then inr (if neg then - n else n)
    else inl (InvalidDurationText (signed neg digits u)).
Proof.
  intros Hbytes Hne Hdigits Hunit. unfold UnmarshalJSON. rewrite Hbytes. clear Hbytes.
  destruct (unitMap_Some u unit Hunit) as (Hu & _ & Hpos).
  pose proof (decimalFrom_le 0 digits Hdigits ltac:(lia)) as Hn. fold (decimal digits) in Hn.
  pose proof (λ fuel orig,
    parseSegments_number_unit fuel orig digits u unit Hne Hdigits Hunit) as Hparse.
  revert Hparse. cbv zeta. generalize (decimal digits * unit) (Z.mul_nonneg_nonneg _ _ Hn (Z.lt_le_incl _ _ Hpos)).
  intros n Hn0 Hparse.
  assert (∃ c0 r, digits +:+ u = String c0 r ∧ isDigit c0 = true ∧ r ≠ "") as (c0 & r & Hs & Hc0 & Hr).
  { destruct digits as [|c0 ds]; [done|]. exists c0, (ds +:+ u).
    simpl in Hdigits. apply andb_true_iff in Hdigits as [Hc0 _].
    repeat split; [done|]. destruct ds; [done|done]. }
  unfold ParseDuration, signed. destruct neg.
  - change (Ascii.eqb "-" "-" || Ascii.eqb "-" "+") with true. cbv beta iota.
    rewrite Hs. rewrite decide_False by (intros [= _ ?]; done).
    rewrite decide_False by done. cbn [String.length]. rewrite <- Hs, Hparse.
    destruct (decide (n ≤ 2^63)) as [Hfits|Hbig]; [|done].
    change (Ascii.eqb "-" "-") with true. cbv beta iota. do 2 f_equal.
    destruct (decide (n = 2^63)) as [->|Hlt]; [reflexivity|].
    rewrite (toInt64_small n) by lia. apply toInt64_small. lia.
  - rewrite Hs. rewrite isDigit_not_sign by done. cbv beta iota.
    rewrite decide_False by (intros [= _ ?]; done).
    rewrite decide_False by done. cbn [String.length]. rewrite <- Hs, Hparse.
    destruct (decide (n ≤ 2^63)) as [Hfits|Hbig].
    + destruct (Z.ltb_spec (2^63 - 1) n).
      * rewrite decide_False by lia. done.
      * rewrite decide_True by lia. done.
    + rewrite decide_False by lia. done.
Qed.
End UnmarshalFacts.

Lemma UnmarshalJSON_needs_unit_witness :
  UnmarshalJSON (λ _ _ _, 0) Some "10" = inl (InvalidDurationText "10").
Proof.
  apply (UnmarshalJSON_needs_unit (λ _ _ _, 0) Some "10" "10"); [reflexivity|discriminate|reflexivity].
Defined.

Lemma UnmarshalJSON_number_unit_witness :
  UnmarshalJSON (λ _ _ _, 0) Some "2562047h" = inr 9223369200000000000 ∧
  UnmarshalJSON (λ _ _ _, 0) Some "2562048h" = inl (InvalidDurationText "2562048h").
Proof.
  split.
  - apply (UnmarshalJSON_number_unit (λ _ _ _, 0) Some "2562047h" false "2562047" "h"
             time.Hour); [reflexivity|discriminate|reflexivity|reflexivity].
  - apply (UnmarshalJSON_number_unit (λ _ _ _, 0) Some "2562048h" false "2562048" "h"
             time.Hour); [reflexivity|discriminate|reflexivity|reflexivity].
Defined.

(** ** logger_tools.go: [FileInfo] and [FuncInfo] *)
Section LoggerTools.
Import logger.

Lemma noSlash_app (a b : string) : noSlash (a +:+ b) = noSlash a && noSlash b.
Proof.
  unfold noSlash. induction a as [|c a IH]; [done|].
  change (String c a +:+ b) with (String c (a +:+ b)). simpl. by rewrite IH, andb_assoc.
Qed.

Lemma LastIndexByte_bounds (s : string) (c : ascii) :
  -1 ≤ LastIndexByte s c < Z.of_nat (String.length s).
Proof.
  induction s as [|a s IH]; simpl LastIndexByte; [simpl; lia|].
  cbn [String.length]. destruct (Z.leb_spec 0 (LastIndexByte s c)); [lia|].
  destruct (Ascii.eqb a c); lia.
Qed.

Lemma LastIndexByte_none (s : string) :
  LastIndexByte s "/" = -1 ↔ noSlash s = true.
Proof.
  unfold noSlash. induction s as [|a s IH]; simpl; [done|].
  pose proof (LastIndexByte_bounds s "/") as Hb.
  destruct (Z.leb_spec 0 (LastIndexByte s "/")) as [Hfound|Hnone].
  - split; [lia|]. intros [_ Hs]%andb_true_iff. apply IH in Hs. lia.
  - assert (LastIndexByte s "/" = -1) as Hs by lia. apply IH in Hs. rewrite Hs.
    destruct (Ascii.eqb a "/"); simpl; split; done || lia.
Qed.

(** The slice after the last '/' has no '/', and the string is what comes
    before it, the '/', and the slice. *)
Lemma LastIndexByte_split (s : string) :
  0 ≤ LastIndexByte s "/" →
  ∃ dir,
    s = dir +:+ "/" +:+ sliceFrom (Z.to_nat (LastIndexByte s "/" + 1)) s ∧
    noSlash (sliceFrom (Z.to_nat (LastIndexByte s "/" + 1)) s) = true.
Proof.
  induction s as [|a s IH]; simpl LastIndexByte; [lia|].
  pose proof (LastIndexByte_bounds s "/") as Hb.
  destruct (Z.leb_spec 0 (LastIndexByte s "/")) as [Hfound|Hnone].
  - intros _. destruct (IH Hfound) as (dir & Hs & Hbase).
    assert (Z.to_nat (LastIndexByte s "/" + 1 + 1) = S (Z.to_nat (LastIndexByte s "/" + 1)))
      as -> by lia.
    cbn [sliceFrom]. exists (String a dir). split; [|done].
    change (String a dir +:+ "/" +:+ ?x) with (String a (dir +:+ "/" +:+ x)).
    by rewrite <- Hs.
  - destruct (Ascii.eqb_spec a "/") as [->|Hne]; [|lia]. intros _.
    exists "". change (Z.to_nat (0 + 1)) with 1%nat. cbn [sliceFrom]. split; [done|].
    apply LastIndexByte_none. lia.
Qed.

Lemma LastIndexByte_app (dir base : string) :
  noSlash base = true →
  LastIndexByte (dir +:+ "/" +:+ base) "/" = Z.of_nat (String.length dir) ∧
  sliceFrom (S (String.length dir)) (dir +:+ "/" +:+ base) = base.
Proof.
  intros Hbase. induction dir as [|a dir [IHi IHs]].
  - change ("" +:+ "/" +:+ base) with (String "/" base). simpl.
    apply LastIndexByte_none in Hbase. rewrite Hbase. done.
  - change (String a dir +:+ "/" +:+ base) with (String a (dir +:+ "/" +:+ base)).
    split; [|exact IHs].
    cbn [LastIndexByte String.length]. rewrite IHi.
    assert ((0 <=? Z.of_nat (String.length dir)) = true) as -> by (apply Z.leb_le; lia).
    lia.
Qed.

Lemma noSlash_fmtIntLoop (fuel : nat) (v : Z) (buf : string) :
  noSlash buf = true → noSlash (time.fmtIntLoop fuel v buf) = true.
Proof.
  revert v buf. induction fuel as [|fuel IH]; intros v buf Hbuf; simpl; [done|].
  destruct (Z.ltb_spec 0 v); [|done]. apply IH. unfold noSlash in *. simpl. rewrite Hbuf.
  pose proof (Z.mod_pos_bound v 10 ltac:(lia)) as Hm.
  destruct (digit_cases _ Hm) as [->|[->|[->|[->|[->|[->|[->|[->|[->| ->]]]]]]]]]; reflexivity.
Qed.

Lemma noSlash_formatInt (n : Z) : noSlash (formatInt n) = true.
Proof.
  unfold formatInt, time.fmtInt.
  destruct (n <? 0); [destruct (- n =? 0)|destruct (n =? 0)];
    try reflexivity; apply noSlash_fmtIntLoop; reflexivity.
Qed.

(** The name [FileInfo] and [FuncInfo] keep of a path: what follows its
    last '/', or all of it when it has none. *)
Lemma base_name (path : string) :
  ∃ base,
    (if 0 <=? LastIndexByte path "/"
     then sliceFrom (Z.to_nat (LastIndexByte path "/" + 1)) path else path) = base ∧
    sliceFrom (Z.to_nat (LastIndexByte path "/" + 1)) path = base ∧
    noSlash base = true ∧
    (path = base ∨ ∃ dir, path = dir +:+ "/" +:+ base).
Proof.
  pose proof (LastIndexByte_bounds path "/") as Hb.
  destruct (Z.leb_spec 0 (LastIndexByte path "/")) as [Hfound|Hnone].
  - destruct (LastIndexByte_split path Hfound) as (dir & Hpath & Hbase).
    eexists. split; [reflexivity|]. split; [reflexivity|]. split; [done|]. eauto.
  - assert (LastIndexByte path "/" = -1) as Hi by lia. rewrite Hi.
    exists path. split; [done|]. split; [done|]. split; [by apply LastIndexByte_none|auto].
Qed.

Lemma FileInfo_base_name_slash (file : string) (line : Z) (ok : bool) :
  noSlash (FileInfo file line ok) = true.
Proof.
  destruct ok; [|reflexivity].
  destruct (base_name file) as (base & Hbase & _ & Hno & _).
  unfold FileInfo. cbn [negb]. cbv zeta.
  by rewrite Hbase, !noSlash_app, Hno, noSlash_formatInt.
Qed.

Lemma FuncInfo_base_name_slash (funcname : string) :
  noSlash (FuncInfo funcname) = true.
Proof.
  destruct (base_name funcname) as (fn & _ & Hfn & Hno & _).
  unfold FuncInfo. cbv zeta. by rewrite Hfn, noSlash_app, Hno.
Qed.

(** X10. [FileInfo] keeps of the file only the name after its last '/' and
    appends ':' and the line in decimal; without caller information it
    returns "<???>:1" whatever the file and the line.  Its result never
    contains a '/'. *)
Theorem FileInfo_base_name (file : string) (line : Z) :
  FileInfo file line false = "<???>:1" ∧
  (∃ base,
     FileInfo file line true = base +:+ ":" +:+ formatInt line ∧
     noSlash base = true ∧ (file = base ∨ ∃ dir, file = dir +:+ "/" +:+ base)) ∧
  (∀ dir base, noSlash base = true →
     FileInfo (dir +:+ "/" +:+ base) line true = base +:+ ":" +:+ formatInt line) ∧
  (∀ ok, noSlash (FileInfo file line ok) = true).
Proof.
  destruct (base_name file) as (base & Hbase & _ & Hno & Hfile).
  assert (FileInfo file line true = base +:+ ":" +:+ formatInt line) as Htrue.
  { unfold FileInfo. cbn [negb]. cbv zeta. by rewrite Hbase. }
  split; [reflexivity|]. split; [eauto|]. split.
  - intros dir b Hb. unfold FileInfo. cbn [negb]. cbv zeta.
    destruct (LastIndexByte_app dir b Hb) as [-> Hslice].
    assert ((0 <=? Z.of_nat (String.length dir)) = true) as -> by (apply Z.leb_le; lia).
    assert (Z.to_nat (Z.of_nat (String.length dir) + 1) = S (String.length dir)) as -> by lia.
    by rewrite Hslice.
  - intros [|]; [|reflexivity].
    rewrite Htrue, !noSlash_app, Hno, noSlash_formatInt. reflexivity.
Qed.

(** X11. [FuncInfo] keeps of the function name what follows its last '/'
    (all of it when it has none) and appends "()"; its result never
    contains a '/'. *)
Theorem FuncInfo_base_name (funcname : string) :
  (∃ fn,
     FuncInfo funcname = fn +:+ "()" ∧ noSlash fn = true ∧
     (funcname = fn ∨ ∃ path, funcname = path +:+ "/" +:+ fn)) ∧
  (∀ path fn, noSlash fn = true → FuncInfo (path +:+ "/" +:+ fn) = fn +:+ "()") ∧
  noSlash (FuncInfo funcname) = true.
Proof.
  destruct (base_name funcname) as (fn & _ & Hfn & Hno & Hname).
  assert (FuncInfo funcname = fn +:+ "()") as Heq.
  { unfold FuncInfo. cbv zeta. by rewrite Hfn. }
  split; [eauto|]. split.
  - intros path b Hb. unfold FuncInfo. cbv zeta.
    destruct (LastIndexByte_app path b Hb) as [-> Hslice].
    assert (Z.to_nat (Z.of_nat (String.length path) + 1) = S (String.length path)) as -> by lia.
    by rewrite Hslice.
  - rewrite Heq, noSlash_app, Hno. reflexivity.
Qed.

(** [TestFileInfoTrue], [TestFileInfoFalse] and [TestFuncInfo]. *)
Example test_logger_tools :
  FileInfo "tes/file" 20 true = "file:20" ∧
  FileInfo "tes/file" 20 false = "<???>:1" ∧
  FuncInfo "testFunction" = "testFunction()".
Proof. repeat split. Qed.
End LoggerTools.

(** ** The methods of [Logger] *)
Section LoggerMethods.
Import logger.
Variable Args : Type.
Variable fmtVerbS : Args → string.
Variable fmtSprint : Args → string.
Variable fmtSprintf : string → Args → string.
Variable fmtErrorf : string → Args → string.
Variable nowText : string.
Variable env : gmap string string.

(** X12. No method of the logger prints the directory of the calling file
    or the package path of the calling function: in every line printed the
    file field and the function field contain no '/', and the line carries
    the time, the colour, the level, the colour reset, these two fields and
    the message, in that order. *)
Theorem log_line_has_no_directory (m : Method) (c : Caller) (format : string)
    (args : Args) (line : list string) :
  EvPrintf line ∈ call Args fmtVerbS fmtSprint fmtSprintf fmtErrorf nowText env
                    m c format args →
  ∃ colour level message,
    line = [nowText; colour; level; reset;
            FileInfo (caller_file c) (caller_line c) (caller_ok c);
            FuncInfo (caller_func c); message] ∧
    noSlash (FileInfo (caller_file c) (caller_line c) (caller_ok c)) = true ∧
    noSlash (FuncInfo (caller_func c)) = true.
Proof.
  intros Hin.
  assert (∃ colour level message,
            line = [nowText; colour; level; reset;
                    FileInfo (caller_file c) (caller_line c) (caller_ok c);
                    FuncInfo (caller_func c); message]) as (colour & level & message & ->).
  { destruct m; unfold call, Fatal, Fatalf, Panic, Panicf, Error, Errorf, Info, Infof,
      Warning, Warningf, Debug, Debugf, printLine in Hin;
      try case_decide;
      repeat (apply elem_of_cons in Hin as [Hin|Hin]; [by simplify_eq; eauto|]);
      by apply elem_of_nil in Hin. }
  exists colour, level, message. split; [done|]. split.
  - apply FileInfo_base_name_slash.
  - apply FuncInfo_base_name_slash.
Qed.

(** X13. Of the twelve methods only [Fatal] and [Fatalf] call the exit
    function, with code 1 and after printing their line, and only [Panic]
    and [Panicf] panic, after printing theirs; [Debug] and [Debugf] do
    nothing at all unless the variable MODE_DEBUG is exactly "true"; every
    other call prints exactly one line first. *)
Theorem logger_exit_discipline (m : Method) (c : Caller) (format : string) (args : Args) :
  let events := call Args fmtVerbS fmtSprint fmtSprintf fmtErrorf nowText env
                  m c format args in
  (∀ code, EvExit code ∈ events ↔ code = 1 ∧ (m = MFatal ∨ m = MFatalf)) ∧
  ((∃ value, EvPanic value ∈ events) ↔ m = MPanic ∨ m = MPanicf) ∧
  (events = [] ↔ (m = MDebug ∨ m = MDebugf) ∧ Getenv env "MODE_DEBUG" ≠ "true") ∧
  (events ≠ [] →
   ∃ line rest, events = EvPrintf line :: rest ∧ (length rest ≤ 1)%nat ∧
     ∀ line', EvPrintf line' ∉ rest).
Proof.
  intros events. subst events.
  assert (∀ x y : Event, ∀ l, x ∈ y :: l ↔ x = y ∨ x ∈ l) as Hcons
    by (intros; apply elem_of_cons).
  split; [|split; [|split]].
  - intros code.
    destruct m; unfold call, Fatal, Fatalf, Panic, Panicf, Error, Errorf, Info, Infof,
      Warning, Warningf, Debug, Debugf, printLine; try case_decide;
      rewrite ?Hcons, ?elem_of_nil; naive_solver.
  - split.
    + intros [value Hin]. revert Hin.
      destruct m; unfold call, Fatal, Fatalf, Panic, Panicf, Error, Errorf, Info, Infof,
        Warning, Warningf, Debug, Debugf, printLine; try case_decide;
        rewrite ?Hcons, ?elem_of_nil; naive_solver.
    + intros [-> | ->]; eexists; unfold call, Panic, Panicf;
        rewrite !Hcons; right; left; reflexivity.
  - destruct m; unfold call, Fatal, Fatalf, Panic, Panicf, Error, Errorf, Info, Infof,
      Warning, Warningf, Debug, Debugf, printLine; try case_decide; naive_solver.
  - destruct m; unfold call, Fatal, Fatalf, Panic, Panicf, Error, Errorf, Info, Infof,
      Warning, Warningf, Debug, Debugf, printLine; try case_decide; intros Hne;
      try (by destruct Hne);
      (do 2 eexists; split; [reflexivity|]; split; [simpl; lia|];
       intros line'; rewrite ?Hcons, ?elem_of_nil; naive_solver).
Qed.
End LoggerMethods.

Lemma log_line_has_no_directory_witness :
  ∃ colour level message,
    [ "2023/05/12 - 00:00:00"; logger.red; logger.gError; logger.reset; "file.go:20";
      "logger.run()"; "boom" ]
    = ["2023/05/12 - 00:00:00"; colour; level; logger.reset;
       logger.FileInfo "/src/api/file.go" 20 true;
       logger.FuncInfo "github.com/x/logger.run"; message] ∧
    logger.noSlash (logger.FileInfo "/src/api/file.go" 20 true) = true ∧
    logger.noSlash (logger.FuncInfo "github.com/x/logger.run") = true.
Proof.
  apply (log_line_has_no_directory string id id (λ f _, f) (λ f _, f)
           "2023/05/12 - 00:00:00" ∅ logger.MError
           (logger.mkCaller "/src/api/file.go" 20 true "github.com/x/logger.run")
           "" "boom").
  apply list_elem_of_here.
Defined.

(** ** [web.EncodeJSON] *)
Section EncodeFacts.
Import web.
Variable writeErr : list WriterCall → string → option string.

Lemma headerCalls_only_add (headers : list (string * list string)) (c : WriterCall) :
  c ∈ flat_map (λ kv, HeaderAdd kv.1 <$> kv.2) headers →
  ∃ key value, c = HeaderAdd key value.
Proof.
  intros Hin. apply list_elem_of_In, in_flat_map in Hin as ([k values] & _ & Hc).
  apply list_elem_of_In, list_elem_of_fmap in Hc as (value & -> & _). eauto.
Qed.

Lemma filter_none {A} (P : A → bool) (l : list A) :
  (∀ x, x ∈ l → P x = false) → filter (λ x, P x = true) l = [].
Proof.
  induction l as [|a l IH]; intros Hall; [done|].
  rewrite filter_cons, decide_False.
  - apply IH. intros x Hx. apply Hall. by right.
  - rewrite Hall by left. done.
Qed.

Lemma filter_headerCalls (P : WriterCall → bool) (headers : option (list (string * list string))) :
  (∀ key value, P (HeaderAdd key value) = false) →
  filter (λ c, P c = true)
    (match headers with
     | Some headers => flat_map (λ kv, HeaderAdd kv.1 <$> kv.2) headers
     | None => []
     end) = [].
Proof.
  intros HP. destruct headers as [headers|]; [|done].
  apply filter_none. intros c Hc.
  destruct (headerCalls_only_add headers c Hc) as (key & value & ->). by rewrite HP.
Qed.

(** X14. [EncodeJSON] writes the status at most once and the body at most
    once, and the body only as its last call, right after setting the JSON
    content type and writing the status.  With status 204 it writes the
    status only, no body and no content type, and returns nil, also for a
    value that cannot be read or marshalled.  When it wrote no status, the
    encoding failed and its error is returned, so nothing of the response
    is committed. *)
Theorem EncodeJSON_call_discipline (v : Value) (code : Z) :
  let calls := (EncodeJSON writeErr v code).1 in
  let err := (EncodeJSON writeErr v code).2 in
  (length (filter (λ c, isWriteHeader c = true) calls) ≤ 1)%nat ∧
  (length (filter (λ c, isWrite c = true) calls) ≤ 1)%nat ∧
  (code = StatusNoContent →
   err = None ∧ filter (λ c, isWrite c = true) calls = [] ∧
   filter (λ c, isHeaderSet c = true) calls = [] ∧
   filter (λ c, isWriteHeader c = true) calls = [WriteHeader StatusNoContent]) ∧
  (∀ data, Write data ∈ calls →
     ∃ before, calls = before ++ [HeaderSet "Content-Type" "application/json; charset=utf-8";
                                  WriteHeader code; Write data] ∧
       err = writeErr (before ++ [HeaderSet "Content-Type" "application/json; charset=utf-8";
                                  WriteHeader code]) data) ∧
  (filter (λ c, isWriteHeader c = true) calls = [] →
   (∃ e, err = Some e) ∧ ∀ c, c ∈ calls → ∃ key value, c = HeaderAdd key value).
Proof.
  intros calls err. subst calls err. unfold EncodeJSON.
  set (adds := match headersOf v with
               | Some headers => flat_map (λ kv, HeaderAdd kv.1 <$> kv.2) headers
               | None => []
               end).
  assert (filter (λ c, isWriteHeader c = true) adds = []) as Hwh
    by (by apply filter_headerCalls).
  assert (filter (λ c, isWrite c = true) adds = []) as Hw
    by (by apply filter_headerCalls).
  assert (filter (λ c, isHeaderSet c = true) adds = []) as Hs
    by (by apply filter_headerCalls).
  assert (∀ c, c ∈ adds → ∃ key value, c = HeaderAdd key value) as Hadds.
  { intros c Hc. subst adds. destruct (headersOf v); [|by apply elem_of_nil in Hc].
    by eapply headerCalls_only_add. }
  destruct (Z.eqb_spec code StatusNoContent) as [->|Hcode].
  - cbn [fst snd]. rewrite !filter_app, Hwh, Hw, Hs. simpl.
    repeat split; try done; try lia.
    + intros data Hin. apply elem_of_app in Hin as [Hin|Hin].
      * destruct (Hadds _ Hin) as (? & ? & ?). done.
      * apply list_elem_of_singleton in Hin. done.
  - destruct (match v with
              | Bytes data => Data data
              | Reader _ readAll => readAll
              | Other _ marshal => marshal
              end) as [jsonData|e]; cbn [fst snd].
    + rewrite <- !app_assoc, !filter_app, Hwh, Hw. simpl.
      split; [lia|]. split; [lia|]. split; [done|]. split; [|done].
      intros data Hin. exists adds.
      apply elem_of_app in Hin as [Hin|Hin].
      * destruct (Hadds _ Hin) as (? & ? & ?). done.
      * rewrite !elem_of_cons, elem_of_nil in Hin.
        destruct Hin as [?|[?|[[= ->]|[]]]]; done.
    + rewrite Hwh, Hw. simpl. split; [lia|]. split; [lia|]. split; [done|]. split.
      * intros data Hin. destruct (Hadds _ Hin) as (? & ? & ?). done.
      * intros _. split; [eauto|done].
Qed.

(** *** The header the response is sent with *)
Variable canonical : string → string.

Lemma headerAfter_app header calls1 calls2 :
  headerAfter canonical header (calls1 ++ calls2)
  = headerAfter canonical (headerAfter canonical header calls1) calls2.
Proof. unfold headerAfter. apply foldl_app. Qed.

Lemma headerAfter_adds_values header key values k :
  default [] (headerAfter canonical header (HeaderAdd key <$> values) !! k)
  = default [] (header !! k) ++ (if decide (canonical key = k) then values else []).
Proof.
  revert header. induction values as [|value values IH]; intros header.
  - simpl. case_decide; by rewrite app_nil_r.
  - rewrite fmap_cons. unfold headerAfter in *. cbn [foldl]. rewrite IH.
    unfold applyHeader. case_decide as Hk.
    + subst k. rewrite lookup_insert_eq. simpl. by rewrite <- app_assoc.
    + rewrite lookup_insert_ne by done. done.
Qed.

Lemma headerAfter_adds header headers k :
  default [] (headerAfter canonical header
                (flat_map (λ kv, HeaderAdd kv.1 <$> kv.2) headers) !! k)
  = default [] (header !! k) ++ addedValues canonical k headers.
Proof.
  revert header. induction headers as [|[key values] headers IH]; intros header.
  - simpl. by rewrite app_nil_r.
  - cbn [flat_map]. rewrite headerAfter_app, IH, headerAfter_adds_values.
    unfold addedValues. cbn [flat_map fst snd]. by rewrite <- app_assoc.
Qed.

(** X15. When [EncodeJSON] writes a body, the header the status is written
    with holds under Content-Type the single value
    "application/json; charset=utf-8", whatever the response held there
    before and whatever the value's [Headers()] supplied; under every other
    key it holds the values the response held before, followed by the
    values [Headers()] supplied for that key, in order. *)
Theorem EncodeJSON_content_type (v : Value) (code : Z) (data : string)
    (header : gmap string (list string)) (before : list WriterCall) :
  (EncodeJSON writeErr v code).1 = before ++ [WriteHeader code; Write data] →
  headerAfter canonical header before !! canonical "Content-Type"
    = Some ["application/json; charset=utf-8"] ∧
  ∀ key, key ≠ canonical "Content-Type" →
    default [] (headerAfter canonical header before !! key)
    = default [] (header !! key)
      ++ addedValues canonical key (default [] (headersOf v)).
Proof.
  unfold EncodeJSON.
  set (adds := match headersOf v with
               | Some headers => flat_map (λ kv, HeaderAdd kv.1 <$> kv.2) headers
               | None => []
               end).
  assert (∀ k, default [] (headerAfter canonical header adds !! k)
               = default [] (header !! k)
                 ++ addedValues canonical k (default [] (headersOf v))) as Hadds.
  { intros k. subst adds. destruct (headersOf v) as [headers|].
    - apply headerAfter_adds.
    - simpl. by rewrite app_nil_r. }
  destruct (code =? StatusNoContent).
  { cbn [fst]. intros Heq.
    assert (length (adds ++ [WriteHeader code]) = length (before ++ [WriteHeader code; Write data]))
      as Hlen by (by rewrite Heq).
    apply (f_equal (last)) in Heq. rewrite !last_app in Heq. simpl in Heq. done. }
  destruct (match v with
            | Bytes d => Data d
            | Reader _ readAll => readAll
            | Other _ marshal => marshal
            end) as [jsonData|e]; cbn [fst].
  - intros Heq.
    assert (before = adds ++ [HeaderSet "Content-Type" "application/json; charset=utf-8"])
      as ->.
    { rewrite <- !app_assoc in Heq. simpl in Heq.
      change (adds ++ [HeaderSet "Content-Type" "application/json; charset=utf-8";
                       WriteHeader code; Write jsonData])
        with (adds ++ [HeaderSet "Content-Type" "application/json; charset=utf-8"]
                   ++ [WriteHeader code; Write jsonData]) in Heq.
      rewrite app_assoc in Heq. apply app_inj_2 in Heq as [? _]; done. }
    rewrite headerAfter_app. unfold headerAfter at 1 3. cbn [foldl applyHeader]. split.
    + apply lookup_insert_eq.
    + intros key Hkey. rewrite lookup_insert_ne by done. apply Hadds.
  - intros Heq. exfalso.
    assert (Write data ∈ adds) as Hin.
    { rewrite Heq. apply elem_of_app. right. rewrite !elem_of_cons. auto. }
    subst adds. destruct (headersOf v) as [headers|]; [|by apply elem_of_nil in Hin].
    apply headerCalls_only_add in Hin as (? & ? & ?). done.
Qed.
End EncodeFacts.

Lemma EncodeJSON_content_type_witness :
  web.headerAfter id {["Content-Type" := ["text/html"]]}
    [web.HeaderAdd "X-Id" "7"; web.HeaderAdd "Content-Type" "text/plain";
     web.HeaderSet "Content-Type" "application/json; charset=utf-8"] !! "Content-Type"
  = Some ["application/json; charset=utf-8"].
Proof.
  apply (EncodeJSON_content_type (λ _ _, None) id
           (web.Other (Some [("X-Id", ["7"]); ("Content-Type", ["text/plain"])])
              (web.Data "{}"))
           200 "{}" {["Content-Type" := ["text/html"]]}).
  reflexivity.
Defined.

(** ** When [Open] returns a registry *)
Section OpenSucceeds.
Variable unicodeToUpper : string → string.
Variable env : gmap string string.
Variable Drivers : list string.
Variable sqlOpenErr : string → string → option string.

Lemma no_violation_invariants config :
  violations config = 0%nat ↔
  validated config ∧ inv5 config = true.
Proof.
  unfold violations, invariants, validated.
  destruct (inv1 config), (inv2 config), (inv3 config), (inv4 config), (inv5 config);
    vm_compute; naive_solver.
Qed.

(** X16. [Open] returns a registry exactly when the configuration violates
    none of the five invariants and the driver opens the connection string
    of every spec.  Under these two conditions it returns the registry of
    the specs' handles, and has called [sql.Open] once for every spec, in
    the order of the list. *)
Theorem open_succeeds_iff config log :
  ((∃ reg, (Open unicodeToUpper env Drivers sqlOpenErr config log).2 = Ok reg) ↔
   violations config = 0%nat ∧
   Forall (accepted unicodeToUpper env Drivers sqlOpenErr config) (Connections config)) ∧
  (violations config = 0%nat →
   Forall (accepted unicodeToUpper env Drivers sqlOpenErr config) (Connections config) →
   Open unicodeToUpper env Drivers sqlOpenErr config log
     = (log ++ (connectionString unicodeToUpper env config <$> Connections config),
        Ok (registerAll unicodeToUpper env Drivers config (Connections config) ∅))).
Proof.
  assert (violations config = 0%nat →
          Forall (accepted unicodeToUpper env Drivers sqlOpenErr config) (Connections config) →
          Open unicodeToUpper env Drivers sqlOpenErr config log
            = (log ++ (connectionString unicodeToUpper env config <$> Connections config),
               Ok (registerAll unicodeToUpper env Drivers config (Connections config) ∅)))
    as Hif.
  { intros Hnone Hacc. apply no_violation_invariants in Hnone as [Hval H5].
    apply Open_total; [done| |done].
    intros Hd. apply forallb_Forall_true.
    unfold inv5 in H5. apply orb_true_iff in H5 as [Hmode|?]; [|done].
    exfalso. apply negb_true_iff in Hmode. unfold clusterMode in Hmode.
    apply orb_false_iff in Hmode as [Hc Hh]. apply isSet_false in Hc, Hh.
    destruct Hval as (H1 & _). apply inv1_cases in H1. naive_solver. }
  split; [split|exact Hif].
  - intros [reg Hreg].
    destruct (Open unicodeToUpper env Drivers sqlOpenErr config log) as [log' r] eqn:Hrun.
    simpl in Hreg. subst r. split; [by eapply Open_Ok_no_violation|].
    apply Open_Ok in Hrun as (_ & _ & _ & Hacc & _). done.
  - intros (Hnone & Hacc). rewrite Hif by done. by eexists.
Qed.
End OpenSucceeds.

(** ** The variables [Open] reads *)
Section OpenReads.
Variable unicodeToUpper : string → string.
Variable Drivers : list string.
Variable sqlOpenErr : string → string → option string.

Lemma openConnection_env (env1 env2 : gmap string string) config spec :
  (DSN config = "" →
   ∀ key, key ∈ requiredVariables unicodeToUpper config spec → env1 !! key = env2 !! key) →
  openConnection unicodeToUpper env1 Drivers sqlOpenErr config spec
  = openConnection unicodeToUpper env2 Drivers sqlOpenErr config spec.
Proof.
  intros Hagree. unfold openConnection. case_decide as Hd; [done|].
  assert (DSN config = "") as Hdsn by (destruct (decide (DSN config = "")); done).
  specialize (Hagree Hdsn). unfold requiredVariables in Hagree.
  case_decide as Hc.
  - rewrite !openMySQL_singleClusterDSN. f_equal.
    unfold singleClusterDSN, Getenv. rewrite !Hagree by (rewrite !elem_of_cons; auto). done.
  - case_decide; [|done].
    rewrite !openMySQLHA_haClusterDSN. f_equal.
    unfold haClusterDSN, Getenv. rewrite !Hagree by (rewrite !elem_of_cons; auto). done.
Qed.

Lemma openAll_env (env1 env2 : gmap string string) config specs dbs log :
  (DSN config = "" →
   ∀ spec key, spec ∈ specs → key ∈ requiredVariables unicodeToUpper config spec →
     env1 !! key = env2 !! key) →
  openAll unicodeToUpper env1 Drivers sqlOpenErr config specs dbs log
  = openAll unicodeToUpper env2 Drivers sqlOpenErr config specs dbs log.
Proof.
  revert dbs log. induction specs as [|spec rest IH]; intros dbs log Hagree; [done|].
  cbn [openAll]. destruct (bool_decide _ && _); [done|].
  unfold mbind, IO_bind.
  rewrite (openConnection_env env1 env2 config spec).
  - destruct (openConnection _ _ _ _ _ _ _) as [log' [db|e]]; [|done].
    apply IH. intros Hd c key Hc. apply (Hagree Hd). by right.
  - intros Hd key. apply (Hagree Hd). by left.
Qed.

(** X17. In direct mode [Open] reads no environment variable, and in a
    cluster mode only the endpoint and password variables of its specs:
    under two environments that agree on those variables it makes the same
    calls of [sql.Open] and returns the same result. *)
Theorem open_reads_only_required_variables (env1 env2 : gmap string string) config log :
  (DSN config = "" →
   ∀ spec key, spec ∈ Connections config →
     key ∈ requiredVariables unicodeToUpper config spec → env1 !! key = env2 !! key) →
  Open unicodeToUpper env1 Drivers sqlOpenErr config log
  = Open unicodeToUpper env2 Drivers sqlOpenErr config log.
Proof.
  intros Hagree. unfold Open. repeat case_decide; try done.
  destruct (validateDuplicateNames _); [done|]. by apply openAll_env.
Qed.
End OpenReads.

Lemma open_reads_only_required_variables_witness :
  Open id (<["PORT" := "9090"]> Fixtures.envSingleMaster) Tests.mockDrivers
    Tests.mockOpenErr Fixtures.configSingleMaster []
  = Open id Fixtures.envSingleMaster Tests.mockDrivers Tests.mockOpenErr
      Fixtures.configSingleMaster [].
Proof.
  apply (open_reads_only_required_variables id Tests.mockDrivers Tests.mockOpenErr).
  intros _ spec key Hspec Hkey.
  apply list_elem_of_singleton in Hspec as ->.
  vm_compute in Hkey.
  apply elem_of_cons in Hkey as [->|Hkey]; [vm_compute; reflexivity|].
  apply list_elem_of_singleton in Hkey as ->. vm_compute. reflexivity.
Defined.
